(** * Copilot-IA: disk cache, agent wrapper, coordinator and token counter

    A shallow embedding of [src/utils/cache.py], [src/agents/base.py],
    [src/agents/coordinator.py] and [src/utils/token_counter.py], followed
    by the properties the specification states about them and by further
    properties that the code shows.

    Conventions of the embedding:
    - a Python [str] is a Rocq [string] holding its UTF-8 bytes;
    - a [float] time stamp ([time.time()], [created_at], [expires_at]) is an
      exact positive rational [Qp], a reading of the POSIX clock after the
      epoch; in particular no stamp is the float [0.0], the one float that
      Python's [and] takes for false; comparisons of stamps are exact, and
      the one sum of the cache, [now + ttl], is taken from outside with its
      rounding and its overflow; Python [int]s are [Z];
    - a [dict] whose order matters is an association list in insertion
      order; the registry of copilots is a [gmap]; a Python [set] is a
      [gset];
    - the file system is a finite map from paths to file contents, threaded
      explicitly through every operation of the cache;
    - a call that may raise returns an [outcome]; [try]/[except Exception]
      is [try_except]. *)

From Stdlib Require Import ZArith String Ascii List Bool.
From stdpp Require Import base numbers gmap strings list.

(** ** Python values and exceptions *)

(** The JSON-shaped fragment of Python's [Any]: what [Cache.set] documents
    as its admissible values, and what a [dict] payload carries. *)
#[warnings="-register-all"]
Inductive pyval : Type :=
  | PNone
  | PBool (b : bool)
  | PInt (z : Z)
  | PStr (s : string)
  | PList (l : list pyval)
  | PDict (d : list (string * pyval)).

(** Result of a call that may raise: [Raises msg] stands for an instance
    [e] of [Exception] with [str(e) = msg]. *)
Inductive outcome (A : Type) : Type :=
  | Returns (a : A)
  | Raises (msg : string).
Arguments Returns {A} a.
Arguments Raises {A} msg.

#[global] Instance outcome_bind : MBind outcome := λ A B k m,
  match m with
  | Returns a => k a
  | Raises msg => Raises msg
  end.

(** [try: body / except Exception as e: handler(str(e))]. *)
Definition try_except {A} (body : outcome A) (handler : string → outcome A)
  : outcome A :=
  match body with
  | Returns a => Returns a
  | Raises msg => handler msg
  end.

(** [str(v)], which is also what an f-string puts for [v]; of a [str] it
    is the string itself. *)
Class PyStr := {
  py_str : pyval → string;
  py_str_of_str : ∀ s, py_str (PStr s) = s
}.

(** ** Python strings *)

Definition nl : string := String (ascii_of_nat 10) "".

(** [sep.join(parts)] *)
Definition join (sep : string) (parts : list string) : string :=
  String.concat sep parts.

(** [kw in s] on strings: [kw] occurs in [s] as a contiguous substring. *)
Fixpoint str_in (kw s : string) : bool :=
  String.prefix kw s ||
  match s with
  | EmptyString => false
  | String _ s' => str_in kw s'
  end.

Definition is_upper_ascii (c : ascii) : bool :=
  let n := nat_of_ascii c in (65 <=? n)%nat && (n <=? 90)%nat.

(** Second byte of a two-byte UTF-8 sequence [C3 xx] that encodes one of the
    capital letters U+00C0..U+00DE (the multiplication sign U+00D7 apart). *)
Definition is_upper_latin1_tail (d : ascii) : bool :=
  let n := nat_of_ascii d in
  (128 <=? n)%nat && (n <=? 158)%nat && negb (n =? 151)%nat.

Definition is_lead_c3 (c : ascii) : bool := (nat_of_ascii c =? 195)%nat.

Definition shift32 (c : ascii) : ascii := ascii_of_nat (nat_of_ascii c + 32).

(** [s.lower()] on the UTF-8 bytes of [s], for Basic Latin and the Latin-1
    Supplement: [A-Z] and U+00C0..U+00DE are mapped to their small letters,
    every other byte is kept.  All the configured keywords live in this
    range. *)
Fixpoint lower (s : string) : string :=
  match s with
  | EmptyString => EmptyString
  | String c s' =>
      if is_lead_c3 c then
        match s' with
        | EmptyString => String c EmptyString
        | String d s'' =>
            if is_upper_latin1_tail d
            then String c (String (shift32 d) (lower s''))
            else String c (lower s')
        end
      else String (if is_upper_ascii c then shift32 c else c) (lower s')
  end.

(** A byte below 128: a character of Basic Latin. *)
Definition is_ascii_byte (c : ascii) : bool := (nat_of_ascii c <? 128)%nat.

(** ** Letter case, letter by letter *)

(** [big] is one of the capital letters [A-Z], and [small] is its small
    letter, 32 code points further. *)
Definition capital_of (small big : ascii) : Prop :=
  (65 ≤ nat_of_ascii big ≤ 90)%nat ∧
  nat_of_ascii small = (nat_of_ascii big + 32)%nat.

(** The same for the capital letters U+00C0..U+00DE of the Latin-1
    Supplement, on the second bytes of their UTF-8 sequences [C3 xx];
    U+00D7, the multiplication sign, is not a letter. *)
Definition latin1_capital_of (small big : ascii) : Prop :=
  (128 ≤ nat_of_ascii big ≤ 158)%nat ∧ nat_of_ascii big ≠ 151%nat ∧
  nat_of_ascii small = (nat_of_ascii big + 32)%nat.

(** [w] reads as [kw] when letter case is ignored: byte for byte [w] has
    what [kw] has, or a capital letter where [kw] has its small letter. *)
Inductive same_ignoring_case : string → string → Prop :=
  | sic_nil : same_ignoring_case "" ""
  | sic_same (c : ascii) (w kw : string) :
      same_ignoring_case w kw →
      same_ignoring_case (String c w) (String c kw)
  | sic_capital (big small : ascii) (w kw : string) :
      capital_of small big →
      same_ignoring_case w kw →
      same_ignoring_case (String big w) (String small kw)
  | sic_latin1 (lead big small : ascii) (w kw : string) :
      nat_of_ascii lead = 195%nat →
      latin1_capital_of small big →
      same_ignoring_case w kw →
      same_ignoring_case (String lead (String big w))
                         (String lead (String small kw)).

(** [kw], a text in small letters, occurs in [message] as a substring,
    letter case ignored. *)
Definition occurs_ignoring_case (kw message : string) : Prop :=
  ∃ a w b, message = a +:+ w +:+ b ∧ same_ignoring_case w kw.

(** ** Dictionaries in insertion order *)

Section Dict.
Context {K V : Type} `{EqDecision K}.

(** [d.get(k)] *)
Fixpoint dict_get (d : list (K * V)) (k : K) : option V :=
  match d with
  | [] => None
  | (k', v) :: d' => if decide (k' = k) then Some v else dict_get d' k
  end.

(** [d[k] = v]: an existing key keeps its position, a new one goes last. *)
Fixpoint dict_set (d : list (K * V)) (k : K) (v : V) : list (K * V) :=
  match d with
  | [] => [(k, v)]
  | (k', v') :: d' =>
      if decide (k' = k) then (k', v) :: d' else (k', v') :: dict_set d' k v
  end.

Definition dict_values (d : list (K * V)) : list V := map snd d.

End Dict.

(** ** The agent wrapper ([src/agents/base.py]) *)

Module Base.

(** [AgentResponse] *)
Record AgentResponse : Type := mkAgentResponse {
  success : bool;
  content : string;
  metadata : list (string * pyval);
  tokens_used : option Z;
  model : option string
}.

(** What the LLM client hands back: an object with a [content] attribute of
    any type, or an object without one, of which only [str(response)] is
    used. *)
Inductive llm_response : Type :=
  | WithContent (c : pyval)
  | NoContent (repr : string).

(** The external collaborators of the wrapper. [pydantic_str_error v] is the
    text of the [ValidationError] that the [content: str] field of
    [AgentResponse] raises on a value [v] that is not a string. *)
Class Pydantic := pydantic_str_error : pyval → string.

(** The part of [BaseCopilotAgent] that [run] and [arun] read.  [agent_run]
    and [agent_arun] are [self.agent.run] and the awaited
    [self.agent.arun]. *)
Record BaseCopilotAgent : Type := mkAgent {
  name : string;
  model_config_name : string;
  agent_run : string → outcome llm_response;
  agent_arun : string → outcome llm_response
}.

Section AgentWrapper.
Context `{Pydantic}.

(** [response.content if hasattr(response, "content") else str(response)] *)
Definition extract_content (response : llm_response) : pyval :=
  match response with
  | WithContent c => c
  | NoContent repr => PStr repr
  end.

(** Construction of an [AgentResponse]: the model validates
    [content: str]. *)
Definition new_AgentResponse (ok : bool) (c : pyval)
    (md : list (string * pyval)) (mdl : option string)
  : outcome AgentResponse :=
  match c with
  | PStr s => Returns (mkAgentResponse ok s md None mdl)
  | _ => Raises (pydantic_str_error c)
  end.

(** [BaseCopilotAgent.run] *)
Definition run (self : BaseCopilotAgent) (prompt : string)
  : outcome AgentResponse :=
  try_except
    (response ← agent_run self prompt;
     let content := extract_content response in
     new_AgentResponse true content
       [("agent", PStr (name self)); ("model", PStr (model_config_name self))]
       (Some (model_config_name self)))
    (λ e,
     new_AgentResponse false (PStr ("Erro ao processar: " +:+ e))
       [("error", PStr e)] None).

(** [BaseCopilotAgent.arun], as seen by the caller that awaits it. *)
Definition arun (self : BaseCopilotAgent) (prompt : string)
  : outcome AgentResponse :=
  try_except
    (response ← agent_arun self prompt;
     let content := extract_content response in
     new_AgentResponse true content
       [("agent", PStr (name self))]
       (Some (model_config_name self)))
    (λ e,
     new_AgentResponse false (PStr ("Erro ao processar: " +:+ e))
       [("error", PStr e)] None).

End AgentWrapper.

(** *** A worked configuration *)

(** The text that stands for pydantic's message in the examples. *)
Definition example_pydantic : Pydantic := λ _,
  "1 validation error for AgentResponse".

(** A client whose calls time out, and one that answers. *)
Definition timing_out_agent : BaseCopilotAgent :=
  mkAgent "Code Reviewer" "gpt-4o"
    (λ _, Raises "Request timed out.") (λ _, Raises "Request timed out.").

Definition answering_agent : BaseCopilotAgent :=
  mkAgent "Code Reviewer" "gpt-4o"
    (λ _, Returns (WithContent (PStr "LGTM")))
    (λ _, Returns (WithContent (PStr "LGTM"))).

(** A client whose calls return a response without a text: its [content]
    is [None]. *)
Definition contentless_agent : BaseCopilotAgent :=
  mkAgent "Code Reviewer" "gpt-4o"
    (λ _, Returns (WithContent PNone)) (λ _, Returns (WithContent PNone)).

End Base.

(** ** The coordinator ([src/agents/coordinator.py]) *)

Module Coordinator.

Inductive CopilotType : Type :=
  | CODE_REVIEWER | DOCUMENTATION | TESTING | DEBUG_COPILOT
  | REFACTORING | ARCHITECTURE | SECURITY.

Inductive TaskIntent : Type :=
  | REVIEW | DOCUMENT | TEST | DEBUG | REFACTOR
  | ANALYZE_ARCHITECTURE | SECURITY_SCAN | FULL_ANALYSIS.

#[global] Instance CopilotType_eq_dec : EqDecision CopilotType.
Proof. solve_decision. Defined.

#[global] Instance TaskIntent_eq_dec : EqDecision TaskIntent.
Proof. solve_decision. Defined.

Definition CopilotType_index (ct : CopilotType) : nat :=
  match ct with
  | CODE_REVIEWER => 0 | DOCUMENTATION => 1 | TESTING => 2
  | DEBUG_COPILOT => 3 | REFACTORING => 4 | ARCHITECTURE => 5
  | SECURITY => 6
  end.

Definition CopilotType_of_index (n : nat) : CopilotType :=
  match n with
  | 0 => CODE_REVIEWER | 1 => DOCUMENTATION | 2 => TESTING
  | 3 => DEBUG_COPILOT | 4 => REFACTORING | 5 => ARCHITECTURE
  | _ => SECURITY
  end.

#[global] Instance CopilotType_countable : Countable CopilotType.
Proof.
  refine (inj_countable' CopilotType_index CopilotType_of_index _).
  by intros [].
Defined.

(** [copilot_type.value] *)
Definition CopilotType_value (ct : CopilotType) : string :=
  match ct with
  | CODE_REVIEWER => "code_reviewer"
  | DOCUMENTATION => "documentation"
  | TESTING => "testing"
  | DEBUG_COPILOT => "debug"
  | REFACTORING => "refactoring"
  | ARCHITECTURE => "architecture"
  | SECURITY => "security"
  end.

Record CoordinatorRequest : Type := mkRequest {
  message : string;
  files : list string;
  context : option (list (string * pyval));
  preferred_copilots : option (list CopilotType)
}.

(** One value of the [results] dict: a dict with the keys ["success"],
    ["content"] and ["metadata"]; a field is [None] when the key is
    absent. *)
Record result_dict : Type := mkResult {
  r_success : option bool;
  r_content : option string;
  r_metadata : option (list (string * pyval))
}.

Record CoordinatorResponse : Type := mkResponse {
  resp_success : bool;
  summary : string;
  details : list (string * result_dict);
  recommendations : list string;
  copilots_used : list string
}.

(** A registered copilot, reduced to its [process] method: the context dict
    built by the coordinator goes in, an [AgentResponse] or an exception
    comes out. *)
Record Copilot : Type := mkCopilot {
  copilot_name : string;
  copilot_process : list (string * pyval) → outcome Base.AgentResponse
}.

Definition INTENT_COPILOT_MAP : list (TaskIntent * list CopilotType) :=
  [ (REVIEW, [CODE_REVIEWER]);
    (DOCUMENT, [DOCUMENTATION]);
    (TEST, [TESTING]);
    (DEBUG, [DEBUG_COPILOT]);
    (REFACTOR, [REFACTORING]);
    (ANALYZE_ARCHITECTURE, [ARCHITECTURE]);
    (SECURITY_SCAN, [SECURITY]);
    (FULL_ANALYSIS, [CODE_REVIEWER; SECURITY; ARCHITECTURE]) ].

Definition INTENT_KEYWORDS : list (TaskIntent * list string) :=
  [ (REVIEW, ["review"; "revisar"; "analisar código"; "code review"; "verificar"]);
    (DOCUMENT, ["document"; "documentar"; "docstring"; "readme"; "docs"]);
    (TEST, ["test"; "testar"; "teste"; "unit test"; "testes"]);
    (DEBUG, ["debug"; "bug"; "erro"; "error"; "fix"; "corrigir"; "problema"]);
    (REFACTOR, ["refactor"; "refatorar"; "melhorar"; "clean"; "limpar"]);
    (ANALYZE_ARCHITECTURE, ["architecture"; "arquitetura"; "design"; "estrutura"]);
    (SECURITY_SCAN, ["security"; "segurança"; "vulnerab"; "owasp"; "injection"]);
    (FULL_ANALYSIS, ["full"; "completo"; "completa"; "tudo"; "all"]) ].

(** The inner loop of [detect_intent]: does some keyword of the list occur
    in the lower-cased message (the [break] stops at the first one). *)
Definition any_keyword_in (keywords : list string) (message_lower : string)
  : bool :=
  existsb (λ keyword, str_in keyword message_lower) keywords.

(** The outer loop of [detect_intent]: [detected_intents] when the loop over
    the table ends. *)
Fixpoint scan_intents (table : list (TaskIntent * list string))
    (message_lower : string) : list TaskIntent :=
  match table with
  | [] => []
  | (intent, keywords) :: table' =>
      if any_keyword_in keywords message_lower
      then intent :: scan_intents table' message_lower
      else scan_intents table' message_lower
  end.

(** [CopilotCoordinator.detect_intent] *)
Definition detect_intent (message : string) : list TaskIntent :=
  let message_lower := lower message in
  let detected_intents := scan_intents INTENT_KEYWORDS message_lower in
  match detected_intents with
  | [] => [REVIEW]
  | _ => detected_intents
  end.

(** One turn of the first loop of [select_copilots]. *)
Definition add_intent_copilots (copilot_types : gset CopilotType)
    (intent : TaskIntent) : gset CopilotType :=
  match dict_get INTENT_COPILOT_MAP intent with
  | Some cts => copilot_types ∪ list_to_set cts
  | None => copilot_types
  end.

(** The set built by the first loop of [select_copilots]. *)
Definition collect_copilot_types (intents : list TaskIntent)
  : gset CopilotType :=
  foldl add_intent_copilots ∅ intents.

(** [CopilotCoordinator.select_copilots]; the order in which Python walks
    the set is not specified, here it is that of [elements]. *)
Definition select_copilots (copilots : gmap CopilotType Copilot)
    (intents : list TaskIntent) : list CopilotType :=
  let copilot_types := collect_copilot_types intents in
  filter (λ ct, is_Some (copilots !! ct)) (elements copilot_types).

(** The context dict handed to a copilot:
    [{"message": ..., "files": ..., **(request.context or {})}]. *)
Definition build_context (request : CoordinatorRequest)
  : list (string * pyval) :=
  foldl (λ d kv, dict_set d kv.1 kv.2)
    [("message", PStr (message request));
     ("files", PList (map PStr (files request)))]
    (default [] (context request)).

(** One turn of the loop of [process] over [copilot_types]. *)
Definition run_copilot (copilots : gmap CopilotType Copilot)
    (request : CoordinatorRequest)
    (results : list (string * result_dict)) (copilot_type : CopilotType)
  : list (string * result_dict) :=
  match copilots !! copilot_type with
  | Some copilot =>
      match copilot_process copilot (build_context request) with
      | Returns response =>
          dict_set results (CopilotType_value copilot_type)
            (mkResult (Some (Base.success response))
                      (Some (Base.content response))
                      (Some (Base.metadata response)))
      | Raises e =>
          dict_set results (CopilotType_value copilot_type)
            (mkResult (Some false) (Some ("Erro: " +:+ e)) (Some []))
      end
  | None => results
  end.

Definition summary_line (item : string * result_dict) : string :=
  let (copilot_name, result) := item in
  if default false (r_success result)
  then "✅ " +:+ copilot_name +:+ ": Análise concluída"
  else "❌ " +:+ copilot_name +:+ ": Falha na análise".

Definition recommendation_text : string :=
  "Verifique as recomendações detalhadas no relatório".

(** Does the content of one result mention a recommendation. *)
Definition mentions_recommendation (result : result_dict) : bool :=
  let content := default "" (r_content result) in
  str_in "recomend" (lower content) || str_in "sugest" (lower content).

(** The last loop of [_consolidate_results], with its [break]. *)
Fixpoint extract_recommendations (values : list result_dict) : list string :=
  match values with
  | [] => []
  | result :: values' =>
      if mentions_recommendation result
      then [recommendation_text]
      else extract_recommendations values'
  end.

(** [CopilotCoordinator._consolidate_results] *)
Definition _consolidate_results (results : list (string * result_dict))
    (copilot_types : list CopilotType) : CoordinatorResponse :=
  let all_success :=
    forallb (λ r, default false (r_success r)) (dict_values results) in
  let summary_parts := map summary_line results in
  let summary := "## Resumo da Análise" +:+ nl +:+ nl +:+ join nl summary_parts in
  let recommendations := extract_recommendations (dict_values results) in
  mkResponse all_success summary results recommendations
             (map CopilotType_value copilot_types).

(** The choice of [copilot_types] at the head of [process]. *)
Definition choose_copilots (copilots : gmap CopilotType Copilot)
    (request : CoordinatorRequest) : list CopilotType :=
  match preferred_copilots request with
  | Some (ct :: cts) => ct :: cts
  | _ => select_copilots copilots (detect_intent (message request))
  end.

(** [CopilotCoordinator.process] *)
Definition process (copilots : gmap CopilotType Copilot)
    (request : CoordinatorRequest) : CoordinatorResponse :=
  let copilot_types := choose_copilots copilots request in
  match copilot_types with
  | [] =>
      mkResponse false "Nenhum copiloto disponível para esta solicitação"
                 [] [] []
  | _ =>
      let results := foldl (run_copilot copilots request) [] copilot_types in
      _consolidate_results results copilot_types
  end.

(** The coroutine [run_copilot] of [aprocess] for one type: the name, and
    the result or [None].  [arun_of copilot] is the awaited [copilot.arun];
    the prompt is [str(context)]. *)
Definition arun_copilot `{PyStr} (copilots : gmap CopilotType Copilot)
    (arun_of : Copilot → string → outcome Base.AgentResponse)
    (request : CoordinatorRequest) (copilot_type : CopilotType)
  : string * option result_dict :=
  match copilots !! copilot_type with
  | None => (CopilotType_value copilot_type, None)
  | Some copilot =>
      match arun_of copilot (py_str (PDict (build_context request))) with
      | Returns response =>
          (CopilotType_value copilot_type,
           Some (mkResult (Some (Base.success response))
                          (Some (Base.content response)) None))
      | Raises e =>
          (CopilotType_value copilot_type,
           Some (mkResult (Some false) (Some e) None))
      end
  end.

(** [{name: result for name, result in results_list if result}] *)
Definition gather_results (results_list : list (string * option result_dict))
  : list (string * result_dict) :=
  foldl (λ results item,
           match item.2 with
           | Some result => dict_set results item.1 result
           | None => results
           end) [] results_list.

(** [CopilotCoordinator.aprocess], as seen by the caller that awaits it;
    [asyncio.gather] returns the results in the order of the tasks. *)
Definition aprocess `{PyStr} (copilots : gmap CopilotType Copilot)
    (arun_of : Copilot → string → outcome Base.AgentResponse)
    (request : CoordinatorRequest) : CoordinatorResponse :=
  let copilot_types := choose_copilots copilots request in
  match copilot_types with
  | [] => mkResponse false "Nenhum copiloto disponível" [] [] []
  | _ =>
      let results_list :=
        map (arun_copilot copilots arun_of request) copilot_types in
      let results := gather_results results_list in
      _consolidate_results results copilot_types
  end.

(** *** Vocabulary of the statements about the coordinator *)

(** The keywords configured for an intent. *)
Definition keywords_of (intent : TaskIntent) : list string :=
  default [] (dict_get INTENT_KEYWORDS intent).

(** One of the keywords of [intent] occurs in [message], letter case
    ignored. *)
Definition keyword_hit (intent : TaskIntent) (message : string) : Prop :=
  ∃ kw, kw ∈ keywords_of intent ∧ occurs_ignoring_case kw message.

(** The copilot types that [INTENT_COPILOT_MAP] gives for one of the
    intents. *)
Definition mapped_from (intents : list TaskIntent) (ct : CopilotType) : Prop :=
  ∃ intent cts,
    intent ∈ intents ∧ dict_get INTENT_COPILOT_MAP intent = Some cts ∧ ct ∈ cts.

(** The content of a result mentions "recomend" or "sugest", letter case
    ignored; a result without content counts as the empty text. *)
Definition content_mentions_advice (result : result_dict) : Prop :=
  occurs_ignoring_case "recomend" (default "" (r_content result)) ∨
  occurs_ignoring_case "sugest" (default "" (r_content result)).

(** [agno.team.Team(name=..., agents=agents, mode="coordinate")]: the
    constructor is taken as given.  It returns a team or raises; a [Team]
    without a parameter [agents] raises [TypeError] on every call. *)
Class Agno (Team : Type) := {
  new_Team : list Copilot → outcome Team
}.

(** The agents handed to the constructor of the team: those of the
    registered copilots (each copilot stands for its agent). *)
Definition team_agents (copilots : gmap CopilotType Copilot) : list Copilot :=
  map snd (map_to_list copilots).

(** [CopilotCoordinator._update_team]: with at least one copilot
    registered the team is rebuilt from the registered copilots, otherwise
    it is left as it was.  What the constructor raises reaches the caller,
    before [self.team] is assigned. *)
Definition _update_team `{Agno Team} (copilots : gmap CopilotType Copilot)
    (team : option Team) : outcome (option Team) :=
  if (0 <? Z.of_nat (size copilots))%Z then
    new_team ← new_Team (team_agents copilots);
    Returns (Some new_team)
  else Returns team.

(** [CopilotCoordinator.register_copilot]: what the call returns or raises,
    and the registry and the team after it.  The registry is updated before
    the team is rebuilt, and stays so when the constructor raises. *)
Definition register_copilot `{Agno Team}
    (self : gmap CopilotType Copilot * option Team)
    (copilot : Copilot) (copilot_type : CopilotType)
  : outcome unit * (gmap CopilotType Copilot * option Team) :=
  let copilots := <[copilot_type := copilot]> self.1 in
  match _update_team copilots self.2 with
  | Returns team => (Returns tt, (copilots, team))
  | Raises e => (Raises e, (copilots, self.2))
  end.

(** [CopilotCoordinator.get_available_copilots]; the registry is walked in
    the order of [map_to_list]. *)
Definition get_available_copilots (copilots : gmap CopilotType Copilot)
  : list string :=
  map (λ kv, CopilotType_value kv.1) (map_to_list copilots).

(** The entry that the loop of [process] stores for a copilot that has
    run. *)
Definition result_of (copilot : Copilot) (request : CoordinatorRequest)
  : result_dict :=
  match copilot_process copilot (build_context request) with
  | Returns response =>
      mkResult (Some (Base.success response)) (Some (Base.content response))
               (Some (Base.metadata response))
  | Raises e => mkResult (Some false) (Some ("Erro: " +:+ e)) (Some [])
  end.

(** The entry that [aprocess] stores for a copilot that has run. *)
Definition aresult_of `{PyStr}
    (arun_of : Copilot → string → outcome Base.AgentResponse)
    (copilot : Copilot) (request : CoordinatorRequest) : result_dict :=
  match arun_of copilot (py_str (PDict (build_context request))) with
  | Returns response =>
      mkResult (Some (Base.success response)) (Some (Base.content response))
               None
  | Raises e => mkResult (Some false) (Some e) None
  end.

(** A turn of a loop that stores, for a registered type, the entry that
    [res] gives for its copilot. *)
Definition store_result (copilots : gmap CopilotType Copilot)
    (res : Copilot → result_dict) (results : list (string * result_dict))
    (copilot_type : CopilotType) : list (string * result_dict) :=
  match copilots !! copilot_type with
  | Some copilot => dict_set results (CopilotType_value copilot_type)
                             (res copilot)
  | None => results
  end.

(** All the copilot types, and all the intents in the order of
    [INTENT_KEYWORDS]. *)
Definition all_copilot_types : list CopilotType :=
  [CODE_REVIEWER; DOCUMENTATION; TESTING; DEBUG_COPILOT; REFACTORING;
   ARCHITECTURE; SECURITY].

Definition all_intents : list TaskIntent := map fst INTENT_KEYWORDS.

(** *** A worked configuration *)

(** A copilot that always answers with a recommendation, registered as the
    code reviewer and nothing else. *)
Definition example_copilot : Copilot :=
  mkCopilot "Code Reviewer"
    (λ _, Returns (Base.mkAgentResponse true "Eu recomendo extrair a função"
                     [] None None)).

Definition example_registry : gmap CopilotType Copilot :=
  {[ CODE_REVIEWER := example_copilot ]}.

(** A copilot whose [process] raises, and a registry with both. *)
Definition failing_copilot : Copilot :=
  mkCopilot "Security" (λ _, Raises "connection refused").

Definition mixed_registry : gmap CopilotType Copilot :=
  {[ CODE_REVIEWER := example_copilot; SECURITY := failing_copilot ]}.

(** Copilots whose [arun] answers, on any prompt, what their [process]
    answers on the empty context. *)
Definition arun_of_examples (copilot : Copilot) (prompt : string)
  : outcome Base.AgentResponse :=
  copilot_process copilot [].

(** A [Team] that has no parameter [agents]: every call of the constructor
    with [agents=...] raises [TypeError]; and one that takes the agents. *)
Definition agno_without_agents : Agno unit :=
  {| new_Team := λ _, Raises "TypeError" |}.

Definition agno_with_agents : Agno (list Copilot) :=
  {| new_Team := λ agents, Returns agents |}.

(** A registry in which every type is registered. *)
Definition full_registry : gmap CopilotType Copilot :=
  list_to_map (map (λ ct, (ct, example_copilot)) all_copilot_types).

End Coordinator.

(** ** The disk cache ([src/utils/cache.py]) *)

Module Cache.

(** [CacheEntry] *)
Record CacheEntry : Type := mkEntry {
  key : string;
  value : pyval;
  created_at : Qp;
  expires_at : option Qp;
  hit_count : Z
}.

(** The text of a file, as far as the cache can tell: either the JSON dump
    of an entry (what [model_dump_json] writes, and what [json.loads]
    followed by the [CacheEntry] constructor reads back), or anything else, on
    which parsing or validation raises. *)
Inductive filetext : Type :=
  | JsonEntry (e : CacheEntry)
  | OtherText (s : string).

Inductive node : Type :=
  | NDir
  | NFile (text : filetext).

(** A path is the list of its components; the file system maps the paths
    that were created to their nodes.  A path below which something lives
    exists as a directory even when it has no node of its own. *)
Abbreviation path := (list string).
Abbreviation filesystem := (gmap (list string) node).

Definition is_hex_digit (c : ascii) : bool :=
  let n := nat_of_ascii c in
  ((48 <=? n)%nat && (n <=? 57)%nat) || ((97 <=? n)%nat && (n <=? 102)%nat).

Fixpoint all_hex (s : string) : bool :=
  match s with
  | EmptyString => true
  | String c s' => is_hex_digit c && all_hex s'
  end.

(** The shape of a SHA-256 digest in hexadecimal: 64 digits in [0-9a-f]. *)
Definition is_sha256_hex (s : string) : bool :=
  (String.length s =? 64)%nat && all_hex s.

(** [hashlib.sha256(s.encode()).hexdigest()]: the digest is taken as given,
    with the shape that the library documents. *)
Class Hashlib := {
  sha256_hexdigest : string → string;
  sha256_hexdigest_shape : ∀ s, is_sha256_hex (sha256_hexdigest s) = true
}.

Definition is_strictly_below (d q : path) : bool :=
  bool_decide (d `prefix_of` q) && negb (bool_decide (d = q)).

Definition has_descendant (fs : filesystem) (d : path) : bool :=
  existsb (is_strictly_below d) (map fst (map_to_list fs)).

(** [p.exists()] *)
Definition path_exists (fs : filesystem) (p : path) : bool :=
  match fs !! p with
  | Some _ => true
  | None => has_descendant fs p
  end.

Definition is_dir (fs : filesystem) (p : path) : bool :=
  match fs !! p with
  | Some NDir => true
  | Some (NFile _) => false
  | None => has_descendant fs p
  end.

Definition is_file (fs : filesystem) (p : path) : bool :=
  match fs !! p with
  | Some (NFile _) => true
  | _ => false
  end.

(** The path itself and all its ancestors, the root first. *)
Definition ancestors_and_self (p : path) : list path :=
  map (λ n, take n p) (seq 0 (S (length p))).

(** [p.mkdir(parents=True, exist_ok=True)]: raises when [p] or one of its
    ancestors is a file. *)
Definition mkdir_parents (p : path) (fs : filesystem) : outcome filesystem :=
  if existsb (is_file fs) (ancestors_and_self p)
  then Raises "FileExistsError"
  else Returns (foldr (λ q acc, <[q := NDir]> acc) fs (ancestors_and_self p)).

(** [p.write_text(text)]: raises when [p] is a directory.  (The cache only
    writes below a directory it has just created, or over a file it has
    just read, so a missing parent cannot arise.) *)
Definition write_text (p : path) (text : filetext) (fs : filesystem)
  : outcome filesystem :=
  if is_dir fs p then Raises "IsADirectoryError"
  else Returns (<[p := NFile text]> fs).

(** [p.read_text()] *)
Definition read_text (p : path) (fs : filesystem) : outcome filetext :=
  match fs !! p with
  | Some (NFile text) => Returns text
  | Some NDir => Raises "IsADirectoryError"
  | None => Raises "FileNotFoundError"
  end.

(** [p.unlink()] *)
Definition unlink (p : path) (fs : filesystem) : outcome filesystem :=
  match fs !! p with
  | Some (NFile _) => Returns (base.delete p fs)
  | Some NDir => Raises "IsADirectoryError"
  | None => Raises "FileNotFoundError"
  end.

(** [json.loads(text)] handed to the [CacheEntry] constructor. *)
Definition parse_entry (text : filetext) : outcome CacheEntry :=
  match text with
  | JsonEntry e => Returns e
  | OtherText _ => Raises "ValidationError"
  end.

(** [entry.model_dump_json(indent=2)] *)
Definition model_dump_json (entry : CacheEntry) : filetext := JsonEntry entry.

(** [s.endswith(suffix)] *)
Fixpoint ends_with (suffix s : string) : bool :=
  String.eqb s suffix ||
  match s with
  | EmptyString => false
  | String _ s' => ends_with suffix s'
  end.

(** The name of a path matches the pattern ["*.json"]. *)
Definition is_json_name (q : path) : bool :=
  match last q with
  | Some file_name => ends_with ".json" file_name
  | None => false
  end.

(** Every path that exists: the paths with a node and what lies above
    them, each path once. *)
Definition all_paths (fs : filesystem) : list path :=
  remove_dups (concat (map (λ kv, ancestors_and_self kv.1) (map_to_list fs))).

(** [d.rglob("*.json")]: every existing path strictly below [d] whose name
    matches, directories included. *)
Definition rglob_json (fs : filesystem) (d : path) : list path :=
  List.filter (λ q, is_strictly_below d q && is_json_name q) (all_paths fs).

(** Truth value of an int: [0] is false. *)
Definition truthy_int (z : Z) : bool := negb (z =? 0)%Z.

(** [entry.expires_at and now > entry.expires_at]: a stamp that is present
    is positive, hence true, and the test is the comparison. *)
Definition is_expired (entry : CacheEntry) (now : Qp) : bool :=
  match expires_at entry with
  | Some t => bool_decide (t < now)%Qp
  | None => false
  end.

(** A positive number of seconds as a duration. *)
Definition seconds (ttl : Z) : Qp := pos_to_Qp (Z.to_pos ttl).

(** [now + ttl], the sum of a float and an int as Python computes it.  The
    int is first converted to a float, which raises [OverflowError] when it
    lies beyond the floats; the sum is then rounded to a float: [Some d] is
    a finite sum and [None] is [inf], which no reading of the clock passes.
    Rounding is monotone and [now] is a float, so that the sum with a
    positive int, the only one that [set] takes, is not below [now]. *)
Class FloatSum := {
  float_add_int : Qp → Z → outcome (option Qp);
  float_add_int_ge : ∀ now ttl d,
    (0 < ttl)%Z → float_add_int now ttl = Returns (Some d) → (now ≤ d)%Qp
}.

(** [entry.hit_count += 1] *)
Definition bump_hit_count (entry : CacheEntry) : CacheEntry :=
  mkEntry (key entry) (value entry) (created_at entry) (expires_at entry)
          (hit_count entry + 1).

(** The attributes of a [Cache] object. *)
Record t : Type := mkCache {
  cache_dir : path;
  default_ttl : Z;
  enabled : bool
}.

(** [Cache.__init__]: the directory is created when the cache is enabled
    (an error of [mkdir] would propagate to the caller). *)
Definition __init__ (cache_dir : path) (default_ttl : Z) (enabled : bool)
    (fs : filesystem) : outcome (t * filesystem) :=
  let self := mkCache cache_dir default_ttl enabled in
  if enabled then
    fs' ← mkdir_parents cache_dir fs;
    Returns (self, fs')
  else Returns (self, fs).

Section Operations.
Context `{Hashlib} `{FloatSum}.

(** [Cache._get_key_hash] *)
Definition _get_key_hash (key : string) : string :=
  substring 0 32 (sha256_hexdigest key).

(** [Cache._get_cache_path] *)
Definition _get_cache_path (self : t) (key : string) : path :=
  let key_hash := _get_key_hash key in
  let subdir := substring 0 2 key_hash in
  cache_dir self ++ [subdir; key_hash +:+ ".json"].

(** [cache_path.parent] *)
Definition parent (p : path) : path := removelast p.

(** [ttl or self.default_ttl] *)
Definition effective_ttl (self : t) (ttl : option Z) : Z :=
  match ttl with
  | Some n => if truthy_int n then n else default_ttl self
  | None => default_ttl self
  end.

(** The [CacheEntry] that [set] builds, [ttl] being the effective one:
    [expires_at=now + ttl if ttl > 0 else None]. *)
Definition new_entry (now : Qp) (key : string) (value : pyval) (ttl : Z)
  : outcome CacheEntry :=
  expires_at ← (if (0 <? ttl)%Z then float_add_int now ttl else Returns None);
  Returns (mkEntry key value now expires_at 0).

(** [Cache.set]; [now] is the reading of [time.time()].  The entry is built
    before the [try], so that an error of the sum reaches the caller. *)
Definition set (self : t) (now : Qp) (key : string) (value : pyval)
    (ttl : option Z) (fs : filesystem) : outcome (bool * filesystem) :=
  if negb (enabled self) then Returns (false, fs) else
  let ttl := effective_ttl self ttl in
  entry ← new_entry now key value ttl;
  let cache_path := _get_cache_path self key in
  match mkdir_parents (parent cache_path) fs with
  | Raises _ => Returns (false, fs)
  | Returns fs1 =>
      match write_text cache_path (model_dump_json entry) fs1 with
      | Raises _ => Returns (false, fs1)
      | Returns fs2 => Returns (true, fs2)
      end
  end.

(** [Cache.delete] *)
Definition delete (self : t) (key : string) (fs : filesystem)
  : bool * filesystem :=
  let cache_path := _get_cache_path self key in
  if path_exists fs cache_path then
    match unlink cache_path fs with
    | Returns fs' => (true, fs')
    | Raises _ => (false, fs)
    end
  else (false, fs).

(** [Cache.get]; the result [PNone] is Python's [None]. *)
Definition get (self : t) (now : Qp) (key : string) (fs : filesystem)
  : pyval * filesystem :=
  if negb (enabled self) then (PNone, fs) else
  let cache_path := _get_cache_path self key in
  if negb (path_exists fs cache_path) then (PNone, fs) else
  match text ← read_text cache_path fs; parse_entry text with
  | Raises _ => (PNone, fs)
  | Returns entry =>
      if is_expired entry now then (PNone, (delete self key fs).2)
      else
        let entry := bump_hit_count entry in
        match write_text cache_path (model_dump_json entry) fs with
        | Raises _ => (PNone, fs)
        | Returns fs' => (value entry, fs')
        end
  end.

(** [Cache.exists] *)
Definition exists_ (self : t) (now : Qp) (key : string) (fs : filesystem)
  : bool * filesystem :=
  if negb (enabled self) then (false, fs) else
  let cache_path := _get_cache_path self key in
  if negb (path_exists fs cache_path) then (false, fs) else
  match text ← read_text cache_path fs; parse_entry text with
  | Raises _ => (false, fs)
  | Returns entry =>
      if is_expired entry now then (false, (delete self key fs).2)
      else (true, fs)
  end.

End Operations.

(** One turn of the loop of [clear]. *)
Definition clear_step (st : Z * filesystem) (cache_file : path)
  : Z * filesystem :=
  let (count, fs) := st in
  match unlink cache_file fs with
  | Returns fs' => ((count + 1)%Z, fs')
  | Raises _ => (count, fs)
  end.

(** [Cache.clear] *)
Definition clear (self : t) (fs : filesystem) : Z * filesystem :=
  if negb (path_exists fs (cache_dir self)) then (0%Z, fs) else
  foldl clear_step (0%Z, fs) (rglob_json fs (cache_dir self)).

(** One turn of the loop of [clear_expired]. *)
Definition clear_expired_step (now : Qp) (st : Z * filesystem)
    (cache_file : path) : Z * filesystem :=
  let (count, fs) := st in
  match text ← read_text cache_file fs; parse_entry text with
  | Raises _ => (count, fs)
  | Returns entry =>
      if is_expired entry now then
        match unlink cache_file fs with
        | Returns fs' => ((count + 1)%Z, fs')
        | Raises _ => (count, fs)
        end
      else (count, fs)
  end.

(** [Cache.clear_expired] *)
Definition clear_expired (self : t) (now : Qp) (fs : filesystem)
  : Z * filesystem :=
  if negb (path_exists fs (cache_dir self)) then (0%Z, fs) else
  foldl (clear_expired_step now) (0%Z, fs) (rglob_json fs (cache_dir self)).

(** What [get_stats] takes from outside: [cache_file.stat().st_size] of
    what lies at a path, [str] of a path, and the format [.2f] of a number.
    Sizes are exact rationals: below 2^53 the divisions by 1024 are exact
    in floating point as well. *)
Class Platform := {
  st_size : node → Z;
  path_str : path → string;
  format_2f : Qcanon.Qc → string
}.

Section Stats.
Context `{Platform}.

(** The loop of [_human_readable_size] over the units that are left. *)
Fixpoint human_readable_loop (units : list string) (size_bytes : Qcanon.Qc)
  : string :=
  match units with
  | [] => format_2f size_bytes +:+ " TB"
  | unit :: units' =>
      if bool_decide (Qcanon.Qclt size_bytes (Qc_of_Z 1024))
      then format_2f size_bytes +:+ " " +:+ unit
      else human_readable_loop units'
             (Qcanon.Qcdiv size_bytes (Qc_of_Z 1024))
  end.

(** [Cache._human_readable_size] *)
Definition _human_readable_size (size_bytes : Z) : string :=
  human_readable_loop ["B"; "KB"; "MB"; "GB"] (Qc_of_Z size_bytes).

(** What lies at a path: its node, a directory where the path exists
    through what lies below it, and nothing elsewhere. *)
Definition node_at (fs : filesystem) (p : path) : option node :=
  match fs !! p with
  | Some n => Some n
  | None => if has_descendant fs p then Some NDir else None
  end.

(** One turn of the loop of [get_stats] on [(total, expired, total_size)];
    [stat] raises on a path that is not there, outside any [try]. *)
Definition stats_step (now : Qp) (fs : filesystem)
    (st : outcome (Z * Z * Z)) (cache_file : path) : outcome (Z * Z * Z) :=
  '(total, expired, total_size) ← st;
  match node_at fs cache_file with
  | None => Raises "FileNotFoundError"
  | Some n =>
      let total := (total + 1)%Z in
      let total_size := (total_size + st_size n)%Z in
      match text ← read_text cache_file fs; parse_entry text with
      | Returns entry =>
          if is_expired entry now
          then Returns (total, (expired + 1)%Z, total_size)
          else Returns (total, expired, total_size)
      | Raises _ => Returns (total, expired, total_size)
      end
  end.

(** [Cache.get_stats] *)
Definition get_stats (self : t) (now : Qp) (fs : filesystem)
  : outcome (list (string * pyval)) :=
  if negb (path_exists fs (cache_dir self)) then
    Returns [("total_entries", PInt 0); ("total_size_bytes", PInt 0);
             ("expired_entries", PInt 0)]
  else
    '(total, expired, total_size) ←
      foldl (stats_step now fs) (Returns (0%Z, 0%Z, 0%Z))
            (rglob_json fs (cache_dir self));
    Returns [("total_entries", PInt total);
             ("expired_entries", PInt expired);
             ("valid_entries", PInt (total - expired));
             ("total_size_bytes", PInt total_size);
             ("total_size_human", PStr (_human_readable_size total_size));
             ("cache_dir", PStr (path_str (cache_dir self)))].

End Stats.

(** [sorted(kwargs.items())]: the keys of a dict are pairwise different, so
    that the items are ordered by their keys alone; strings compare by code
    points, which is the order of their UTF-8 bytes. *)
Fixpoint insert_item (item : string * pyval) (items : list (string * pyval))
  : list (string * pyval) :=
  match items with
  | [] => [item]
  | item' :: items' =>
      if String.leb item.1 item'.1 then item :: items
      else item' :: insert_item item items'
  end.

Definition sorted_items (kwargs : list (string * pyval))
  : list (string * pyval) :=
  foldr insert_item [] kwargs.

Section Decorator.
Context `{Hashlib} `{FloatSum} `{PyStr}.

(** The key that the wrapper of [cache_response] builds from the prefix,
    [func.__name__] and the arguments. *)
Definition wrapper_key (key_prefix func_name : string) (args : list pyval)
    (kwargs : list (string * pyval)) : string :=
  let key_parts :=
    [key_prefix; func_name]
    ++ map py_str args
    ++ map (λ kv, kv.1 +:+ "=" +:+ py_str kv.2) (sorted_items kwargs) in
  join ":" key_parts.

(** The wrapper that [cache_response(cache, key_prefix, ttl)(func)] returns,
    called with [args] and [kwargs]; [t_get] and [t_set] are the readings of
    the clock in [cache.get] and in [cache.set].  Neither [func] nor
    [cache.set] is called in a [try]: what they raise reaches the caller,
    the one of [cache.set] after [func] has returned. *)
Definition cache_response (cache : t) (key_prefix : string) (ttl : option Z)
    (func_name : string)
    (func : list pyval → list (string * pyval) → outcome pyval)
    (t_get t_set : Qp) (args : list pyval) (kwargs : list (string * pyval))
    (fs : filesystem) : outcome pyval * filesystem :=
  let key := wrapper_key key_prefix func_name args kwargs in
  let (cached, fs1) := get cache t_get key fs in
  match cached with
  | PNone =>
      match func args kwargs with
      | Returns result =>
          match set cache t_set key result ttl fs1 with
          | Returns (_, fs2) => (Returns result, fs2)
          | Raises e => (Raises e, fs1)
          end
      | Raises e => (Raises e, fs1)
      end
  | _ => (Returns cached, fs1)
  end.

End Decorator.

(** *** Vocabulary of the statements about the cache *)

(** The file at [p] holds the JSON dump of the entry [e]. *)
Definition stored (fs : filesystem) (p : path) (e : CacheEntry) : Prop :=
  fs !! p = Some (NFile (JsonEntry e)).

(** The entry has an expiry stamp, and the stamp lies before [now]. *)
Definition expired_at (now : Qp) (e : CacheEntry) : Prop :=
  ∃ t, expires_at e = Some t ∧ (t < now)%Qp.

(** The entry has no expiry stamp, or one that [now] has not passed. *)
Definition live_at (now : Qp) (e : CacheEntry) : Prop :=
  ∀ t, expires_at e = Some t → (now ≤ t)%Qp.

(** The disk after a run of [get]s on one key, at the given readings of the
    clock. *)
Definition after_gets `{Hashlib} (self : t) (key : string) (times : list Qp)
    (fs : filesystem) : filesystem :=
  foldl (λ disk now, (get self now key disk).2) fs times.

(** A path that [clear] and [clear_expired] visit. *)
Definition is_cache_file (self : t) (p : path) : bool :=
  is_strictly_below (cache_dir self) p && is_json_name p.

(** What decides, in [clear], that a visited path is unlinked. *)
Definition holds_file (o : option node) : bool :=
  match o with
  | Some (NFile _) => true
  | _ => false
  end.

(** What decides, in [clear_expired], that a visited path is unlinked. *)
Definition holds_stale_entry (now : Qp) (o : option node) : bool :=
  match o with
  | Some (NFile (JsonEntry e)) => is_expired e now
  | _ => false
  end.

(** The visited paths that hold a file: what [clear] counts. *)
Definition cache_files (self : t) (fs : filesystem) : list path :=
  List.filter (λ q, holds_file (fs !! q)) (rglob_json fs (cache_dir self)).

(** The visited paths that hold an expired entry: what [clear_expired]
    counts. *)
Definition stale_files (self : t) (now : Qp) (fs : filesystem) : list path :=
  List.filter (λ q, holds_stale_entry now (fs !! q))
              (rglob_json fs (cache_dir self)).

(** The disk after a call that may raise: a call that raises has written
    nothing. *)
Definition disk_after {A : Type} (o : outcome (A * filesystem))
    (fs : filesystem) : filesystem :=
  match o with
  | Returns (_, fs') => fs'
  | Raises _ => fs
  end.

(** The call has returned [True]. *)
Definition returned_true {A : Type} (o : outcome (bool * A)) : bool :=
  match o with
  | Returns (b, _) => b
  | Raises _ => false
  end.

(** The calls on a cache object, and the disk after one of them and after
    a run of them. *)
Inductive call : Type :=
  | CallSet (now : Qp) (key : string) (value : pyval) (ttl : option Z)
  | CallGet (now : Qp) (key : string)
  | CallDelete (key : string)
  | CallExists (now : Qp) (key : string)
  | CallClear
  | CallClearExpired (now : Qp).

Definition after_call `{Hashlib} `{FloatSum} (self : t) (fs : filesystem)
    (c : call) : filesystem :=
  match c with
  | CallSet now key value ttl => disk_after (set self now key value ttl fs) fs
  | CallGet now key => (get self now key fs).2
  | CallDelete key => (delete self key fs).2
  | CallExists now key => (exists_ self now key fs).2
  | CallClear => (clear self fs).2
  | CallClearExpired now => (clear_expired self now fs).2
  end.

Definition after_calls `{Hashlib} `{FloatSum} (self : t) (calls : list call)
    (fs : filesystem) : filesystem :=
  foldl (after_call self) fs calls.

(** The cache directory is used by the cache alone: what lies on the way to
    it is a directory, and at or below it there are only directories down
    to the shards and files right below a shard. *)
Definition cache_owned (self : t) (fs : filesystem) : Prop :=
  ∀ q n, fs !! q = Some n →
    (q `prefix_of` cache_dir self → n = NDir) ∧
    (cache_dir self `prefix_of` q →
     match n with
     | NDir => length q ≤ length (cache_dir self) + 1
     | NFile _ => length q = length (cache_dir self) + 2
     end).

(** *** A worked configuration *)

(** The digests, as [hashlib] computes them, of the keys that the examples
    use; every other key is given the digest of the empty string. *)
Definition digest_of_examples (key : string) : string :=
  if String.eqb key "k"
  then "8254c329a92850f6d539dd376f4816ee2764517da5e0235514af433164480d7a"
  else if String.eqb key "old"
  then "cba06b5736faf67e54b07b561eae94395e774c517a7d910a54369e1263ccfbd4"
  else if String.eqb key "fresh"
  then "d098ab5e44b9aabb755f76d806598f43573c662b35e4a2eab1e312ec9ad195e2"
  else "e3b0c44298fc1c149afbf4c8996fb92427ae41e4649b934ca495991b7852b855".

Definition sha256_of_examples : Hashlib.
Proof.
  refine {| sha256_hexdigest := digest_of_examples |}.
  intros s. unfold digest_of_examples.
  destruct (String.eqb s "k"); [reflexivity |].
  destruct (String.eqb s "old"); [reflexivity |].
  destruct (String.eqb s "fresh"); reflexivity.
Defined.

(** The sums of the examples.  The clock readings and the ttls there are
    whole numbers of seconds far below 2^53, whose sum is a float and hence
    exact; a ttl from 2^1024 on lies beyond the floats, and its conversion
    raises.  No other sum is used; the ones below 2^1024 are all given as
    exact. *)
Definition float_sum_of_examples : FloatSum.
Proof.
  refine {| float_add_int := λ now ttl,
              if (ttl <? 2 ^ 1024)%Z
              then Returns (if (0 <? ttl)%Z then Some (now + seconds ttl)%Qp
                            else Some now)
              else Raises "OverflowError" |}.
  intros now ttl d Hpos Hsum.
  destruct (ttl <? 2 ^ 1024)%Z; [| discriminate].
  apply Z.ltb_lt in Hpos. rewrite Hpos in Hsum.
  injection Hsum as <-. apply Qp.le_add_l.
Defined.

(** [Cache(cache_dir="data/cache")], with the default TTL of one hour. *)
Definition example_cache : t := mkCache ["data"; "cache"] 3600 true.

(** The value [{"v": 1}]. *)
Definition example_value : pyval := PDict [("v", PInt 1)].

(** Clock readings, in seconds. *)
Definition at_second (n : positive) : Qp := pos_to_Qp n.

(** The disk after [set("k", {"v": 1}, ttl=10)] at time 100, on an empty
    disk. *)
Definition disk_with_k : filesystem :=
  disk_after
    (@set sha256_of_examples float_sum_of_examples example_cache
       (at_second 100) "k" example_value (Some 10%Z) ∅) ∅.

(** The entry that this write leaves in the file of ["k"]. *)
Definition entry_of_k : CacheEntry :=
  mkEntry "k" example_value (at_second 100)
    (Some (at_second 100 + seconds 10)%Qp) 0.

(** The disk after [set("old", "a", ttl=10)] at time 100 and
    [set("fresh", "b", ttl=1000)] at time 150. *)
Definition disk_with_old : filesystem :=
  disk_after
    (@set sha256_of_examples float_sum_of_examples example_cache
       (at_second 100) "old" (PStr "a") (Some 10%Z) ∅) ∅.

Definition disk_with_old_and_fresh : filesystem :=
  disk_after
    (@set sha256_of_examples float_sum_of_examples example_cache
       (at_second 150) "fresh" (PStr "b") (Some 1000%Z) disk_with_old)
    disk_with_old.

(** The texts, as [str] gives them, of the values that the examples use:
    strings, [None] and the booleans; the other values are not used as
    arguments there and are given the text of [None]. *)
Definition str_of_examples : PyStr.
Proof.
  refine {| py_str := λ v, match v with
                           | PStr s => s
                           | PBool true => "True"
                           | PBool false => "False"
                           | _ => "None"
                           end |}.
  reflexivity.
Defined.

(** A function that answers with a review, whatever its arguments. *)
Definition reviewing_function (args : list pyval)
    (kwargs : list (string * pyval)) : outcome pyval :=
  Returns (PStr "LGTM").

(** [Cache(cache_dir="data/cache", enabled=False)] *)
Definition disabled_cache : t := mkCache ["data"; "cache"] 3600 false.

(** A disk on which a directory below the cache directory is named
    [x.json] and holds the file [y.json], and nothing else is there. *)
Definition disk_with_json_directory : filesystem :=
  {[ ["data"; "cache"; "ab"; "x.json"; "y.json"] := NFile (OtherText "{}") ]}.

(** A platform for the examples: a directory takes 4096 bytes and a file
    64, paths are written with [/], and numbers are not formatted. *)
Definition platform_of_examples : Platform :=
  {| st_size := λ n, match n with NDir => 4096%Z | NFile _ => 64%Z end;
     path_str := join "/";
     format_2f := λ _, "0.00" |}.

(** [Cache(cache_dir="data/cache", default_ttl=0)] *)
Definition cache_without_default : t := mkCache ["data"; "cache"] 0 true.

(** The disk after [set("k", {"v": 1}, ttl=0)] on that cache at time 100,
    on an empty disk. *)
Definition disk_with_immortal_k : filesystem :=
  disk_after
    (@set sha256_of_examples float_sum_of_examples cache_without_default
       (at_second 100) "k" example_value (Some 0%Z) ∅) ∅.

(** A disk on which the file of ["k"] holds a text that is not the dump
    of an entry. *)
Definition disk_with_corrupted_k : filesystem :=
  {[ @_get_cache_path sha256_of_examples example_cache "k"
     := NFile (OtherText "{") ]}.

End Cache.

(** ** The token counter ([src/utils/token_counter.py]) *)

Module TokenCounter.

(** A [tiktoken.Encoding], as far as the counter uses it. *)
Record Encoding : Type := mkEncoding {
  encode : string → list Z;
  decode : list Z → string
}.

(** [tiktoken.get_encoding] *)
Class Tiktoken := get_encoding : string → outcome Encoding.

Definition MODEL_ENCODINGS : list (string * string) :=
  [ ("gpt-4o", "o200k_base");
    ("gpt-4o-mini", "o200k_base");
    ("gpt-4-turbo", "cl100k_base");
    ("gpt-4", "cl100k_base");
    ("gpt-3.5-turbo", "cl100k_base");
    ("claude-3-5-sonnet", "cl100k_base");
    ("claude-3-opus", "cl100k_base");
    ("claude-3-sonnet", "cl100k_base");
    ("claude-3-haiku", "cl100k_base");
    ("default", "cl100k_base") ].

(** The attributes of a [TokenCounter]; [_encoders] is the dict of the
    encoders fetched so far. *)
Record t : Type := mkCounter {
  default_model : string;
  _encoders : list (string * Encoding)
}.

(** [TokenCounter.__init__] *)
Definition __init__ (default_model : string) : t := mkCounter default_model [].

(** [model or self.default_model]: [None] and the empty string are false. *)
Definition model_or_default (self : t) (model : option string) : string :=
  match model with
  | Some m => if String.eqb m "" then default_model self else m
  | None => default_model self
  end.

(** [l[start:end]] with the indices of Python: a negative index counts from
    the end, and both are clipped to the list. *)
Definition slice_index (len i : Z) : Z :=
  if (i <? 0)%Z then Z.max (i + len) 0 else Z.min i len.

Definition py_slice {A} (l : list A) (start end_ : Z) : list A :=
  let len := Z.of_nat (length l) in
  let s := slice_index len start in
  let e := slice_index len end_ in
  take (Z.to_nat (e - s)) (drop (Z.to_nat s) l).

(** The loop of [split_into_chunks]; [None] when the loop has not come to
    its end within [fuel] tests of its condition. *)
Fixpoint chunk_loop (fuel : nat) (encoder : Encoding) (tokens : list Z)
    (chunk_size overlap : Z) (start : Z) (chunks : list string)
  : option (list string) :=
  match fuel with
  | O => None
  | S fuel' =>
      if (start <? Z.of_nat (length tokens))%Z then
        let end_ := Z.min (start + chunk_size) (Z.of_nat (length tokens)) in
        let chunk_tokens := py_slice tokens start end_ in
        let chunks := chunks ++ [decode encoder chunk_tokens] in
        let start := if (0 <? overlap)%Z then (end_ - overlap)%Z else end_ in
        chunk_loop fuel' encoder tokens chunk_size overlap start chunks
      else Some chunks
  end.

Section Methods.
Context `{Tiktoken}.

(** [TokenCounter._get_encoder]: the encoder is fetched once and kept. *)
Definition _get_encoder (self : t) (model : string) : outcome (Encoding * t) :=
  let encoding_name :=
    default (default "" (dict_get MODEL_ENCODINGS "default"))
            (dict_get MODEL_ENCODINGS model) in
  match dict_get (_encoders self) encoding_name with
  | Some encoder => Returns (encoder, self)
  | None =>
      encoder ← try_except (get_encoding encoding_name)
                           (λ _, get_encoding "cl100k_base");
      Returns (encoder,
               mkCounter (default_model self)
                         (dict_set (_encoders self) encoding_name encoder))
  end.

(** [TokenCounter.count] *)
Definition count (self : t) (text : string) (model : option string)
  : outcome (Z * t) :=
  let model := model_or_default self model in
  '(encoder, self) ← _get_encoder self model;
  Returns (Z.of_nat (length (encode encoder text)), self).

(** One turn of the loop of [count_messages]; a message is a dict from
    strings to strings. *)
Definition count_message (model : string) (st : outcome (Z * t))
    (message : list (string * string)) : outcome (Z * t) :=
  '(total, self) ← st;
  let total := (total + 4)%Z in
  '(n, self) ← count self (default "" (dict_get message "role")) (Some model);
  let total := (total + n)%Z in
  '(n, self) ← count self (default "" (dict_get message "content"))
                 (Some model);
  let total := (total + n)%Z in
  Returns (total, self).

(** [TokenCounter.count_messages] *)
Definition count_messages (self : t) (messages : list (list (string * string)))
    (model : option string) : outcome (Z * t) :=
  let model := model_or_default self model in
  '(total, self) ← foldl (count_message model) (Returns (0%Z, self)) messages;
  Returns ((total + 3)%Z, self).

(** [TokenCounter.truncate_to_limit] *)
Definition truncate_to_limit (self : t) (text : string) (max_tokens : Z)
    (model : option string) : outcome (string * t) :=
  let model := model_or_default self model in
  '(encoder, self) ← _get_encoder self model;
  let tokens := encode encoder text in
  if (Z.of_nat (length tokens) <=? max_tokens)%Z then Returns (text, self)
  else
    let truncated_tokens := py_slice tokens 0 max_tokens in
    Returns (decode encoder truncated_tokens, self).

(** [TokenCounter.split_into_chunks], the loop being given [fuel]. *)
Definition split_into_chunks (fuel : nat) (self : t) (text : string)
    (chunk_size overlap : Z) (model : option string)
  : outcome (option (list string) * t) :=
  let model := model_or_default self model in
  '(encoder, self) ← _get_encoder self model;
  let tokens := encode encoder text in
  Returns (chunk_loop fuel encoder tokens chunk_size overlap 0 [], self).

End Methods.

(** The floating-point numbers of Python, taken from outside: the value
    of a literal, the true division of two ints, product, sum and
    [round(x, 6)]. *)
Class Floats := {
  float : Type;
  float_of_literal : string → float;
  int_div : Z → Z → float;
  fmul : float → float → float;
  fadd : float → float → float;
  round6 : float → float
}.

(** A value of the dicts that [estimate_cost] and [get_model_info]
    return. *)
Inductive info_value (F : Type) : Type :=
  | VInt (z : Z)
  | VFloat (x : F)
  | VStr (s : string).
Arguments VInt {F} z.
Arguments VFloat {F} x.
Arguments VStr {F} s.

(** Prices per million tokens, input and output, as the literals of the
    source. *)
Definition MODEL_PRICING : list (string * (string * string)) :=
  [ ("gpt-4o", ("2.50", "10.00"));
    ("gpt-4o-mini", ("0.15", "0.60"));
    ("gpt-4-turbo", ("10.00", "30.00"));
    ("gpt-4", ("30.00", "60.00"));
    ("gpt-3.5-turbo", ("0.50", "1.50"));
    ("claude-3-5-sonnet", ("3.00", "15.00"));
    ("claude-3-opus", ("15.00", "75.00"));
    ("claude-3-sonnet", ("3.00", "15.00"));
    ("claude-3-haiku", ("0.25", "1.25")) ].

(** The loop of [estimate_cost] over the keys of the table, with its
    [break]: the prices of the first key that occurs in the name of the
    model. *)
Fixpoint similar_pricing (table : list (string * (string * string)))
    (model : string) : option (string * string) :=
  match table with
  | [] => None
  | (key, pricing) :: table' =>
      if str_in key model then Some pricing
      else similar_pricing table' model
  end.

Section Costs.
Context `{Floats}.

(** [TokenCounter.estimate_cost] *)
Definition estimate_cost (self : t) (input_tokens output_tokens : Z)
    (model : option string) : list (string * info_value float) :=
  let model := model_or_default self model in
  let pricing :=
    match dict_get MODEL_PRICING model with
    | Some pricing => Some pricing
    | None => similar_pricing MODEL_PRICING model
    end in
  match pricing with
  | None =>
      [("input_cost", VInt 0); ("output_cost", VInt 0);
       ("total_cost", VInt 0); ("model", VStr model);
       ("warning", VStr "Preço não disponível para este modelo")]
  | Some (input_price, output_price) =>
      let input_cost :=
        fmul (int_div input_tokens 1000000) (float_of_literal input_price) in
      let output_cost :=
        fmul (int_div output_tokens 1000000)
             (float_of_literal output_price) in
      let total_cost := fadd input_cost output_cost in
      [("input_tokens", VInt input_tokens);
       ("output_tokens", VInt output_tokens);
       ("input_cost", VFloat (round6 input_cost));
       ("output_cost", VFloat (round6 output_cost));
       ("total_cost", VFloat (round6 total_cost));
       ("model", VStr model);
       ("currency", VStr "USD")]
  end.

(** [TokenCounter.get_model_info] *)
Definition get_model_info (model : string)
  : list (string * info_value float) :=
  let pricing := dict_get MODEL_PRICING model in
  let encoding := default "cl100k_base" (dict_get MODEL_ENCODINGS model) in
  [("model", VStr model);
   ("encoding", VStr encoding);
   ("input_price_per_1m",
    match pricing with
    | Some (input_price, _) => VFloat (float_of_literal input_price)
    | None => VStr "N/A"
    end);
   ("output_price_per_1m",
    match pricing with
    | Some (_, output_price) => VFloat (float_of_literal output_price)
    | None => VStr "N/A"
    end)].

End Costs.

(** *** A worked configuration *)

(** An encoding with one token per byte, and a library that only has
    it. *)
Definition bytes_encoding : Encoding :=
  mkEncoding
    (λ s, map (λ c, Z.of_nat (nat_of_ascii c)) (list_ascii_of_string s))
    (λ l, string_of_list_ascii (map (λ z, ascii_of_nat (Z.to_nat z)) l)).

Definition tiktoken_of_examples : Tiktoken := λ _, Returns bytes_encoding.

End TokenCounter.

(** * Properties *)

(** ** Facts about the string primitives *)

Lemma append_nil_l (a : string) : "" +:+ a = a.
Proof. reflexivity. Qed.

Lemma append_cons (x : ascii) (a b : string) :
  String x a +:+ b = String x (a +:+ b).
Proof. reflexivity. Qed.

Lemma append_assoc (a b c : string) : (a +:+ b) +:+ c = a +:+ (b +:+ c).
Proof.
  induction a as [|x a IH]; [done |].
  by rewrite !append_cons, IH.
Qed.

Lemma append_nil_r (a : string) : a +:+ "" = a.
Proof.
  induction a as [|x a IH]; [done |].
  by rewrite append_cons, IH.
Qed.

Lemma prefix_nil (s : string) : String.prefix "" s = true.
Proof. by destruct s. Qed.

Lemma prefix_true_iff (p s : string) :
  String.prefix p s = true ↔ ∃ b, s = p +:+ b.
Proof.
  revert s. induction p as [|x p IH]; intros s.
  - rewrite prefix_nil. split; [intros _; by exists s | done].
  - destruct s as [|y s]; simpl.
    + split; [done | intros [b Hb]; discriminate].
    + destruct (Ascii.ascii_dec x y) as [->|Hne].
      * rewrite IH. split; intros [b Hb]; exists b.
        -- by rewrite append_cons, Hb.
        -- rewrite append_cons in Hb. congruence.
      * split; [done | intros [b Hb]].
        rewrite append_cons in Hb. congruence.
Qed.

(** [str_in] decides the occurrence of a contiguous substring. *)
Lemma str_in_true_iff (kw s : string) :
  str_in kw s = true ↔ ∃ a b, s = a +:+ kw +:+ b.
Proof.
  induction s as [|y s IH]; cbn [str_in];
    rewrite orb_true_iff, prefix_true_iff.
  - split.
    + intros [[b Hb]|?]; [|done]. by exists "", b.
    + intros (a & b & Hab). left. destruct a; [by exists b | discriminate].
  - rewrite IH. split.
    + intros [[b Hb]|(a & b & Hab)].
      * by exists "", b.
      * exists (String y a), b. by rewrite append_cons, Hab.
    + intros (a & b & Hab). destruct a as [|x a].
      * left. by exists b.
      * right. exists a, b. rewrite append_cons in Hab. congruence.
Qed.

Lemma str_in_false_iff (kw s : string) :
  str_in kw s = false ↔ ¬ ∃ a b, s = a +:+ kw +:+ b.
Proof. rewrite <- str_in_true_iff. by destruct (str_in kw s). Qed.

Lemma ascii_byte_not_tail (c : ascii) :
  is_ascii_byte c = true → is_upper_latin1_tail c = false.
Proof.
  unfold is_ascii_byte, is_upper_latin1_tail. intros Hc.
  apply Nat.ltb_lt in Hc.
  destruct (Nat.leb_spec 128 (nat_of_ascii c)); [lia | done].
Qed.

(** Lower-casing never looks across an ASCII byte: whatever precedes it,
    the text from that byte on is lower-cased on its own. *)
Lemma lower_app_ascii (a : string) (c : ascii) (s : string) :
  is_ascii_byte c = true →
  lower (a +:+ String c s) = lower a +:+ lower (String c s).
Proof.
  intros Hc. remember (String c s) as tl eqn:Htl.
  assert (Hn : ∀ n a, (String.length a ≤ n)%nat →
    lower (a +:+ tl) = lower a +:+ lower tl).
  { clear a. induction n as [|n IH]; intros a Hlen.
    - destruct a; [done | simpl in Hlen; lia].
    - destruct a as [|x a]; [done |].
      simpl in Hlen. rewrite append_cons.
      destruct a as [|d a].
      + rewrite append_nil_l. subst tl.
        cbn [lower]. rewrite (ascii_byte_not_tail c Hc).
        destruct (is_lead_c3 x); by rewrite ?append_cons, ?append_nil_l.
      + simpl in Hlen.
        assert (H1 : lower (String d a +:+ tl)
                     = lower (String d a) +:+ lower tl)
          by (apply IH; simpl; lia).
        assert (H2 : lower (a +:+ tl) = lower a +:+ lower tl)
          by (apply IH; lia).
        rewrite append_cons in H1 |- *.
        cbn [lower]. cbn [lower] in H1.
        destruct (is_lead_c3 x).
        * destruct (is_upper_latin1_tail d).
          -- by rewrite H2, !append_cons.
          -- by rewrite H1, !append_cons.
        * by rewrite H1, !append_cons. }
  by apply (Hn (String.length a)).
Qed.

(** ** Letter case *)

Section LetterCase.

Lemma upper_tail_shifted (d : ascii) :
  is_upper_latin1_tail d = true →
  is_lead_c3 (shift32 d) = false ∧ is_upper_ascii (shift32 d) = false ∧
  is_upper_latin1_tail (shift32 d) = false.
Proof. destruct d as [[] [] [] [] [] [] [] []]; by vm_compute. Qed.

Lemma lead_c3_not_tail (c : ascii) :
  is_lead_c3 c = true → is_upper_latin1_tail c = false.
Proof. destruct c as [[] [] [] [] [] [] [] []]; by vm_compute. Qed.

Lemma plain_lowered (c : ascii) :
  is_lead_c3 c = false →
  is_lead_c3 (if is_upper_ascii c then shift32 c else c) = false ∧
  is_upper_ascii (if is_upper_ascii c then shift32 c else c) = false.
Proof. destruct c as [[] [] [] [] [] [] [] []]; by vm_compute. Qed.

Lemma plain_lowered_not_tail (c : ascii) :
  is_upper_latin1_tail c = false →
  is_upper_latin1_tail (if is_upper_ascii c then shift32 c else c) = false.
Proof. destruct c as [[] [] [] [] [] [] [] []]; by vm_compute. Qed.

(** The first byte of a lowered text is not a capital of the Latin-1
    Supplement when the first byte of the text is not. *)
Lemma lower_head (d : ascii) (s : string) :
  is_upper_latin1_tail d = false →
  ∃ d' r, lower (String d s) = String d' r ∧ is_upper_latin1_tail d' = false.
Proof.
  intros Hd. cbn [lower]. destruct (is_lead_c3 d) eqn:Hc3.
  - destruct s as [|e s']; [by eauto |].
    destruct (is_upper_latin1_tail e); by eauto.
  - eexists _, _. split; [done |]. by apply plain_lowered_not_tail.
Qed.

Lemma lower_plain_head (c : ascii) (s : string) :
  is_lead_c3 c = false → is_upper_ascii c = false →
  lower (String c s) = String c (lower s).
Proof. intros Hc3 Hup. cbn [lower]. by rewrite Hc3, Hup. Qed.

Lemma lower_c3_end (c : ascii) :
  is_lead_c3 c = true → lower (String c "") = String c "".
Proof. intros Hc3. cbn [lower]. by rewrite Hc3. Qed.

Lemma lower_c3_tail (c d : ascii) (s : string) :
  is_lead_c3 c = true → is_upper_latin1_tail d = true →
  lower (String c (String d s)) = String c (String (shift32 d) (lower s)).
Proof.
  intros Hc3 Hd. change (lower (String c (String d s)))
    with (if is_lead_c3 c
          then if is_upper_latin1_tail d
               then String c (String (shift32 d) (lower s))
               else String c (lower (String d s))
          else String (if is_upper_ascii c then shift32 c else c)
                      (lower (String d s))).
  by rewrite Hc3, Hd.
Qed.

Lemma lower_c3_other (c d : ascii) (s : string) :
  is_lead_c3 c = true → is_upper_latin1_tail d = false →
  lower (String c (String d s)) = String c (lower (String d s)).
Proof.
  intros Hc3 Hd. change (lower (String c (String d s)))
    with (if is_lead_c3 c
          then if is_upper_latin1_tail d
               then String c (String (shift32 d) (lower s))
               else String c (lower (String d s))
          else String (if is_upper_ascii c then shift32 c else c)
                      (lower (String d s))).
  by rewrite Hc3, Hd.
Qed.

Lemma lower_plain (c : ascii) (s : string) :
  is_lead_c3 c = false →
  lower (String c s)
  = String (if is_upper_ascii c then shift32 c else c) (lower s).
Proof. intros Hc3. cbn [lower]. by rewrite Hc3. Qed.

Lemma ascii_by_code (c d : ascii) : nat_of_ascii c = nat_of_ascii d → c = d.
Proof.
  intros Heq.
  rewrite <- (ascii_nat_embedding c), <- (ascii_nat_embedding d).
  by rewrite Heq.
Qed.

Lemma nat_of_shift32 (c : ascii) :
  (nat_of_ascii c + 32 < 256)%nat →
  nat_of_ascii (shift32 c) = (nat_of_ascii c + 32)%nat.
Proof. intros Hlt. unfold shift32. by apply nat_ascii_embedding. Qed.

(** What the tests of [lower] say of a capital letter and of its small
    letter. *)
Lemma capital_of_spec (small big : ascii) :
  capital_of small big →
  is_lead_c3 big = false ∧ is_upper_ascii big = true ∧ shift32 big = small ∧
  is_ascii_byte big = true ∧
  is_lead_c3 small = false ∧ is_upper_ascii small = false.
Proof.
  intros [Hb Hs]. unfold is_lead_c3, is_upper_ascii, is_ascii_byte.
  cbv zeta. rewrite Hs. repeat split.
  - apply Nat.eqb_neq. lia.
  - apply andb_true_iff. split; apply Nat.leb_le; lia.
  - apply ascii_by_code. rewrite nat_of_shift32 by lia. done.
  - apply Nat.ltb_lt. lia.
  - apply Nat.eqb_neq. lia.
  - apply andb_false_iff. right. apply Nat.leb_gt. lia.
Qed.

Lemma latin1_capital_of_spec (small big : ascii) :
  latin1_capital_of small big →
  is_upper_latin1_tail big = true ∧ shift32 big = small ∧
  is_upper_latin1_tail small = false ∧
  is_lead_c3 small = false ∧ is_upper_ascii small = false.
Proof.
  intros (Hb & Hx & Hs).
  unfold is_upper_latin1_tail, is_lead_c3, is_upper_ascii.
  cbv zeta. rewrite Hs. repeat split.
  - rewrite !andb_true_iff, negb_true_iff.
    repeat split; [apply Nat.leb_le; lia.. | apply Nat.eqb_neq; lia].
  - apply ascii_by_code. rewrite nat_of_shift32 by lia. done.
  - apply andb_false_iff. left. apply andb_false_iff. right.
    apply Nat.leb_gt. lia.
  - apply Nat.eqb_neq. lia.
  - apply andb_false_iff. right. apply Nat.leb_gt. lia.
Qed.

(** Conversely, what [lower] maps is a capital letter, and it is mapped to
    its small letter. *)
Lemma upper_ascii_capital (c : ascii) :
  is_upper_ascii c = true → capital_of (shift32 c) c.
Proof.
  unfold is_upper_ascii. cbv zeta.
  intros [H1%Nat.leb_le H2%Nat.leb_le]%andb_true_iff.
  split; [lia |]. apply nat_of_shift32. lia.
Qed.

Lemma upper_tail_capital (d : ascii) :
  is_upper_latin1_tail d = true → latin1_capital_of (shift32 d) d.
Proof.
  unfold is_upper_latin1_tail. cbv zeta.
  intros [[H1%Nat.leb_le H2%Nat.leb_le]%andb_true_iff H3%negb_true_iff]
    %andb_true_iff.
  apply Nat.eqb_neq in H3.
  split; [lia |]. split; [done |]. apply nat_of_shift32. lia.
Qed.

Lemma same_ignoring_case_refl (s : string) : same_ignoring_case s s.
Proof. induction s; by constructor. Qed.

Lemma same_ignoring_case_nil_l (kw : string) :
  same_ignoring_case "" kw → kw = "".
Proof. by inversion 1. Qed.

(** The first byte of a text that reads as [kw]. *)
Lemma same_ignoring_case_head (w kw : string) :
  same_ignoring_case w kw →
  (∀ d kw', kw = String d kw' → is_upper_latin1_tail d = false) →
  ∀ d w', w = String d w' → is_upper_latin1_tail d = false.
Proof.
  intros Hsic Hkw d w' ->.
  inversion Hsic as [|c w0 kw0 Hsub|big small w0 kw0 Hcap Hsub
                     |lead big small w0 kw0 Hlead Hcap Hsub]; subst.
  - by apply (Hkw d kw0).
  - apply capital_of_spec in Hcap as (_ & _ & _ & Hascii & _).
    by apply ascii_byte_not_tail.
  - apply lead_c3_not_tail. by apply Nat.eqb_eq.
Qed.

Lemma same_ignoring_case_ascii_head (w : string) (c : ascii)
    (rest : string) :
  same_ignoring_case w (String c rest) → is_ascii_byte c = true →
  ∃ c0 w0, w = String c0 w0 ∧ is_ascii_byte c0 = true.
Proof.
  intros Hsic Hc.
  inversion Hsic as [|c' w0 kw0 Hsub|big small w0 kw0 Hcap Hsub
                     |lead big small w0 kw0 Hlead Hcap Hsub]; subst.
  - by eauto.
  - apply capital_of_spec in Hcap as (_ & _ & _ & Hascii & _). by eauto.
  - unfold is_ascii_byte in Hc. apply Nat.ltb_lt in Hc. lia.
Qed.

Lemma lower_lead_head (c : ascii) (s : string) :
  is_lead_c3 c = true → ∃ r, lower (String c s) = String c r.
Proof.
  intros Hc. destruct s as [|d s']; [exists ""; by apply lower_c3_end |].
  destruct (is_upper_latin1_tail d) eqn:Hd.
  - eexists. by apply lower_c3_tail.
  - eexists. by apply lower_c3_other.
Qed.

Lemma lower_fixed_after_lead (c : ascii) (kw : string) :
  is_lead_c3 c = true → lower (String c kw) = String c kw →
  lower kw = kw ∧
  ∀ d kw', kw = String d kw' → is_upper_latin1_tail d = false.
Proof.
  intros Hc Hfix. destruct kw as [|d kw']; [done |].
  destruct (is_upper_latin1_tail d) eqn:Hd.
  - rewrite (lower_c3_tail c d kw' Hc Hd) in Hfix. injection Hfix as Hs _.
    apply upper_tail_capital in Hd as (Hb & _ & Hn). rewrite Hs in Hn. lia.
  - rewrite (lower_c3_other c d kw' Hc Hd) in Hfix. injection Hfix as Hk.
    split; [done |]. by intros d' kw'' [= <- _].
Qed.

(** A text that reads as [kw] is lowered to [kw], whatever follows it. *)
Lemma lower_reads_capitals (w kw : string) :
  same_ignoring_case w kw → lower kw = kw →
  ∀ b, ∃ b', lower (w +:+ b) = kw +:+ b'.
Proof.
  induction 1 as [|c w kw Hsub IH|big small w kw Hcap Hsub IH
                  |lead big small w kw Hlead Hcap Hsub IH]; intros Hfix b.
  - exists (lower b). by rewrite !append_nil_l.
  - destruct (is_lead_c3 c) eqn:Hc.
    + destruct (lower_fixed_after_lead c kw Hc Hfix) as [Hkw Hhead].
      destruct w as [|d w'].
      * apply same_ignoring_case_nil_l in Hsub as ->.
        destruct (lower_lead_head c b Hc) as [r Hr]. exists r.
        by rewrite !append_cons, !append_nil_l.
      * assert (Hd : is_upper_latin1_tail d = false)
          by (by apply (same_ignoring_case_head _ _ Hsub Hhead d w')).
        destruct (IH Hkw b) as [b' Hb']. exists b'.
        rewrite append_cons in Hb'. rewrite !append_cons.
        by rewrite (lower_c3_other c d _ Hc Hd), Hb'.
    + rewrite (lower_plain c _ Hc) in Hfix. injection Hfix as Hc' Hkw.
      destruct (IH Hkw b) as [b' Hb']. exists b'.
      by rewrite !append_cons, (lower_plain c _ Hc), Hb', Hc'.
  - apply capital_of_spec in Hcap as (Hl & Hu & Hsh & _ & Hl' & Hu').
    rewrite (lower_plain_head small kw Hl' Hu') in Hfix.
    injection Hfix as Hkw.
    destruct (IH Hkw b) as [b' Hb']. exists b'.
    by rewrite !append_cons, (lower_plain big _ Hl), Hu, Hsh, Hb'.
  - assert (Hc : is_lead_c3 lead = true) by (by apply Nat.eqb_eq).
    apply latin1_capital_of_spec in Hcap as (Ht & Hsh & Ht' & Hl' & Hu').
    rewrite (lower_c3_other lead small kw Hc Ht'),
      (lower_plain_head small kw Hl' Hu') in Hfix.
    injection Hfix as Hkw.
    destruct (IH Hkw b) as [b' Hb']. exists b'.
    by rewrite !append_cons, (lower_c3_tail lead big _ Hc Ht), Hsh, Hb'.
Qed.

(** What is lowered to a text that begins with [k] begins with a text that
    reads as [k]. *)
Lemma lowered_prefix_read_back (n : nat) (k r b' : string) :
  (String.length k ≤ n)%nat → lower r = k +:+ b' →
  ∃ w b, r = w +:+ b ∧ same_ignoring_case w k.
Proof.
  revert k r b'. induction n as [|n IH]; intros k r b' Hlen Hlow.
  { destruct k; [|cbn in Hlen; lia].
    exists "", r. split; [by rewrite append_nil_l | constructor]. }
  destruct k as [|x k'].
  { exists "", r. split; [by rewrite append_nil_l | constructor]. }
  rewrite append_cons in Hlow. cbn in Hlen.
  destruct r as [|c r']; [done |].
  destruct (is_lead_c3 c) eqn:Hc.
  - destruct r' as [|d r''].
    + rewrite (lower_c3_end c Hc) in Hlow. injection Hlow as <- Hk.
      destruct k'; [|by rewrite append_cons in Hk].
      exists (String c ""), "". split; [done | by repeat constructor].
    + destruct (is_upper_latin1_tail d) eqn:Hd.
      * rewrite (lower_c3_tail c d r'' Hc Hd) in Hlow.
        injection Hlow as <- Hk.
        destruct k' as [|y k''].
        -- exists (String c ""), (String d r'').
           split; [by rewrite append_cons, append_nil_l |].
           by repeat constructor.
        -- rewrite append_cons in Hk. injection Hk as <- Hk. cbn in Hlen.
           destruct (IH k'' r'' b') as (w & b & -> & Hw); [lia | done |].
           exists (String c (String d w)), b.
           split; [by rewrite !append_cons |].
           apply sic_latin1;
             [by apply Nat.eqb_eq | by apply upper_tail_capital | done].
      * rewrite (lower_c3_other c d r'' Hc Hd) in Hlow.
        injection Hlow as <- Hk.
        destruct (IH k' (String d r'') b') as (w & b & Hr & Hw);
          [lia | done |].
        exists (String c w), b.
        split; [by rewrite append_cons, Hr | by constructor].
  - rewrite (lower_plain c r' Hc) in Hlow. injection Hlow as Hx Hk.
    destruct (IH k' r' b') as (w & b & -> & Hw); [lia | done |].
    exists (String c w), b. split; [by rewrite append_cons |].
    subst x. destruct (is_upper_ascii c) eqn:Hu.
    + apply sic_capital; [by apply upper_ascii_capital | done].
    + by apply sic_same.
Qed.

(** Where the lowered text is cut before a character of Basic Latin, the
    text itself can be cut, and what follows the cut is lowered on its
    own. *)
Lemma lowered_suffix_read_back (n : nat) (a' m rest : string) :
  (String.length a' ≤ n)%nat → lower m = a' +:+ rest →
  (∀ c rest', rest = String c rest' → is_ascii_byte c = true) →
  ∃ a r, m = a +:+ r ∧ lower r = rest.
Proof.
  revert a' m rest. induction n as [|n IH]; intros a' m rest Hlen Hlow Hhead.
  { destruct a'; [|cbn in Hlen; lia]. rewrite append_nil_l in Hlow.
    exists "", m. by rewrite append_nil_l. }
  destruct a' as [|x a''].
  { rewrite append_nil_l in Hlow. exists "", m. by rewrite append_nil_l. }
  rewrite append_cons in Hlow. cbn in Hlen.
  destruct m as [|c m']; [done |].
  destruct (is_lead_c3 c) eqn:Hc.
  - destruct m' as [|d m''].
    + rewrite (lower_c3_end c Hc) in Hlow. injection Hlow as _ Hk.
      destruct a''; [|by rewrite append_cons in Hk].
      rewrite append_nil_l in Hk. subst rest.
      exists (String c ""), "". split; [by rewrite append_nil_r | done].
    + destruct (is_upper_latin1_tail d) eqn:Hd.
      * rewrite (lower_c3_tail c d m'' Hc Hd) in Hlow.
        injection Hlow as _ Hk.
        destruct a'' as [|y a3].
        -- rewrite append_nil_l in Hk.
           pose proof (Hhead _ _ (eq_sym Hk)) as Hascii.
           apply upper_tail_capital in Hd as (Hb & _ & Hn).
           unfold is_ascii_byte in Hascii. apply Nat.ltb_lt in Hascii. lia.
        -- rewrite append_cons in Hk. injection Hk as _ Hk. cbn in Hlen.
           destruct (IH a3 m'' rest) as (a & r & -> & Hr);
             [lia | done | done |].
           exists (String c (String d a)), r.
           split; [by rewrite !append_cons | done].
      * rewrite (lower_c3_other c d m'' Hc Hd) in Hlow.
        injection Hlow as _ Hk.
        destruct (IH a'' (String d m'') rest) as (a & r & Hm & Hr);
          [lia | done | done |].
        exists (String c a), r. split; [by rewrite append_cons, Hm | done].
  - rewrite (lower_plain c m' Hc) in Hlow. injection Hlow as _ Hk.
    destruct (IH a'' m' rest) as (a & r & -> & Hr); [lia | done | done |].
    exists (String c a), r. split; [by rewrite append_cons | done].
Qed.

(** Looking for a keyword in the lowered message finds exactly the
    occurrences of the keyword in the message with letter case ignored,
    for a keyword in small letters that begins with a character of Basic
    Latin. *)
Lemma str_in_lower_iff (kw message : string) :
  lower kw = kw →
  (∃ c rest, kw = String c rest ∧ is_ascii_byte c = true) →
  str_in kw (lower message) = true ↔ occurs_ignoring_case kw message.
Proof.
  intros Hfix (c & rest & -> & Hc). rewrite str_in_true_iff. split.
  - intros (a' & b' & Hlow).
    destruct (lowered_suffix_read_back (String.length a') a' message
                (String c rest +:+ b')) as (a & r & -> & Hr);
      [done | done | |].
    { intros c' rest' Heq. rewrite append_cons in Heq.
      by injection Heq as <- _. }
    destruct (lowered_prefix_read_back (String.length (String c rest))
                (String c rest) r b') as (w & b & -> & Hw); [done | done |].
    by exists a, w, b.
  - intros (a & w & b & -> & Hw).
    destruct (same_ignoring_case_ascii_head w c rest Hw Hc)
      as (c0 & w0 & -> & Hc0).
    destruct (lower_reads_capitals _ _ Hw Hfix b) as [b' Hb'].
    exists (lower a), b'. rewrite append_cons in Hb' |- *.
    by rewrite lower_app_ascii, Hb'.
Qed.

End LetterCase.

(** ** Intent detection *)

Section IntentDetection.
Import Coordinator.

Lemma lower_cons_plain (c : ascii) (s : string) :
  is_lead_c3 c = false → is_upper_ascii c = false →
  lower (String c s) = String c (lower s).
Proof. intros H1 H2. cbn [lower]. by rewrite H1, H2. Qed.

Lemma any_keyword_in_true (keywords : list string) (ml : string) :
  any_keyword_in keywords ml = true ↔
  ∃ kw, kw ∈ keywords ∧ str_in kw ml = true.
Proof.
  unfold any_keyword_in. rewrite existsb_exists.
  split; intros (kw & Hin & Hkw); exists kw; split; try done;
    by apply list_elem_of_In.
Qed.

(** What the scan of a table collects: the intents of the rows one of
    whose keywords occurs. *)
Lemma scan_intents_elem (table : list (TaskIntent * list string))
    (ml : string) (intent : TaskIntent) :
  intent ∈ scan_intents table ml ↔
  ∃ keywords, (intent, keywords) ∈ table ∧ any_keyword_in keywords ml = true.
Proof.
  induction table as [|[i kws] table IH]; simpl.
  - split; [by intros ?%not_elem_of_nil |].
    by intros (? & ?%not_elem_of_nil & _).
  - destruct (any_keyword_in kws ml) eqn:Hany.
    + rewrite elem_of_cons, IH. split.
      * intros [->|(k & Hk & Hm)].
        -- exists kws. split; [left | done].
        -- exists k. split; [by right | done].
      * intros (k & Hk & Hm). apply elem_of_cons in Hk as [[= -> ->]|Hk].
        -- by left.
        -- right. by exists k.
    + rewrite IH. split.
      * intros (k & Hk & Hm). exists k. split; [by right | done].
      * intros (k & Hk & Hm). apply elem_of_cons in Hk as [[= -> ->]|Hk].
        -- congruence.
        -- by exists k.
Qed.

Lemma intent_row_unique (intent : TaskIntent) (keywords : list string) :
  (intent, keywords) ∈ INTENT_KEYWORDS → keywords = keywords_of intent.
Proof.
  unfold INTENT_KEYWORDS. intros Hin.
  repeat (apply elem_of_cons in Hin as [[= -> ->]|Hin]; [reflexivity |]).
  by apply not_elem_of_nil in Hin.
Qed.

Lemma intent_row_present (intent : TaskIntent) :
  (intent, keywords_of intent) ∈ INTENT_KEYWORDS.
Proof.
  destruct intent; unfold INTENT_KEYWORDS;
    repeat first [ by apply list_elem_of_here | apply list_elem_of_further ].
Qed.

Lemma keywords_are_lower (intent : TaskIntent) :
  Forall (λ kw, lower kw = kw) (keywords_of intent).
Proof.
  destruct intent; repeat (constructor; [by vm_compute |]); constructor.
Qed.

Lemma keywords_start_in_basic_latin (intent : TaskIntent) :
  Forall (λ kw, ∃ c rest, kw = String c rest ∧ is_ascii_byte c = true)
         (keywords_of intent).
Proof.
  destruct intent; repeat (constructor; [by eexists _, _ |]); constructor.
Qed.

(** The list collected by the loop of [detect_intent] holds exactly the
    intents one of whose keywords occurs in the message. *)
Lemma scan_intents_keyword_hit (message : string) (intent : TaskIntent) :
  intent ∈ scan_intents INTENT_KEYWORDS (lower message) ↔
  keyword_hit intent message.
Proof.
  pose proof (keywords_are_lower intent) as Hlow.
  pose proof (keywords_start_in_basic_latin intent) as Hhead.
  rewrite Forall_forall in Hlow. rewrite Forall_forall in Hhead.
  rewrite scan_intents_elem. split.
  - intros (kws & Hrow & Hany).
    apply intent_row_unique in Hrow as ->.
    apply any_keyword_in_true in Hany as (kw & Hkw & Hin).
    exists kw. split; [done |].
    by apply (str_in_lower_iff kw message (Hlow kw Hkw) (Hhead kw Hkw)).
  - intros (kw & Hkw & Hocc).
    exists (keywords_of intent). split; [apply intent_row_present |].
    apply any_keyword_in_true. exists kw. split; [done |].
    by apply (str_in_lower_iff kw message (Hlow kw Hkw) (Hhead kw Hkw)).
Qed.

Lemma revisar_in_capitals : same_ignoring_case "REVISAR" "revisar".
Proof.
  repeat (apply sic_capital; [by (split; [vm_compute; lia | reflexivity]) |]).
  constructor.
Qed.

(** C2. For every message: the intents collected by keyword are exactly
    those one of whose configured keywords occurs in the message as a
    case-insensitive substring, that is, as a stretch of the message that
    has, letter for letter, the letters of the keyword or their capitals;
    the returned list is that collection, or the single fallback REVIEW
    when the collection is empty; a message that contains "revisar", in
    small letters, in capitals or in any mixture of them, yields REVIEW;
    and a message in which no configured keyword of any intent occurs
    yields exactly [REVIEW]. *)
Theorem detect_intent_by_keywords (message : string) :
  (∀ intent,
      intent ∈ scan_intents INTENT_KEYWORDS (lower message) ↔
      ∃ kw a w b,
        kw ∈ keywords_of intent ∧ message = a +:+ w +:+ b ∧
        same_ignoring_case w kw) ∧
  (∀ intent,
      intent ∈ detect_intent message ↔
      keyword_hit intent message ∨
      (intent = REVIEW ∧ ∀ i, ¬ keyword_hit i message)) ∧
  (∀ a b, message = a +:+ "revisar" +:+ b → REVIEW ∈ detect_intent message) ∧
  (∀ a b, message = a +:+ "REVISAR" +:+ b → REVIEW ∈ detect_intent message) ∧
  (∀ a w b, message = a +:+ w +:+ b → same_ignoring_case w "revisar" →
            REVIEW ∈ detect_intent message) ∧
  ((∀ i, ¬ keyword_hit i message) → detect_intent message = [REVIEW]).
Proof.
  assert (Hscan := scan_intents_keyword_hit message).
  assert (Hfinal : ∀ intent,
      intent ∈ detect_intent message ↔
      keyword_hit intent message ∨
      (intent = REVIEW ∧ ∀ i, ¬ keyword_hit i message)).
  { intros intent. unfold detect_intent.
    destruct (scan_intents INTENT_KEYWORDS (lower message)) as [|i0 l] eqn:Hl.
    - rewrite list_elem_of_singleton. split.
      + intros ->. right. split; [done |].
        intros i Hi. apply Hscan in Hi. by apply not_elem_of_nil in Hi.
      + intros [Hi|[-> _]]; [|done].
        apply Hscan in Hi. by apply not_elem_of_nil in Hi.
    - rewrite Hscan. split; [by left |].
      intros [Hi|[_ Hno]]; [done |].
      destruct (Hno i0). apply Hscan. left. }
  assert (Hrev : ∀ a w b, message = a +:+ w +:+ b →
                          same_ignoring_case w "revisar" →
                          REVIEW ∈ detect_intent message).
  { intros a w b Hm Hw. apply Hfinal. left. exists "revisar". split.
    - unfold keywords_of. simpl.
      apply list_elem_of_further, list_elem_of_here.
    - by exists a, w, b. }
  split; [|split; [done |]; split; [|split; [|split; [done |]]]].
  - intros intent. rewrite Hscan. unfold keyword_hit, occurs_ignoring_case.
    split.
    + intros (kw & Hkw & a & w & b & Hm & Hw). by exists kw, a, w, b.
    + intros (kw & a & w & b & Hkw & Hm & Hw).
      exists kw. split; [done |]. by exists a, w, b.
  - intros a b Hm.
    apply (Hrev a "revisar" b Hm), same_ignoring_case_refl.
  - intros a b Hm. apply (Hrev a "REVISAR" b Hm), revisar_in_capitals.
  - intros Hno. unfold detect_intent.
    destruct (scan_intents INTENT_KEYWORDS (lower message)) as [|i0 l] eqn:Hl;
      [done |].
    destruct (Hno i0). apply Hscan. left.
Qed.

End IntentDetection.

(** Concrete messages: upper case is folded, accented capitals included, and
    a message without any keyword falls back to REVIEW. *)
Example detect_intent_upper_case :
  Coordinator.detect_intent "POR FAVOR REVISAR A SEGURANÇA"
  = [Coordinator.REVIEW; Coordinator.SECURITY_SCAN].
Proof. by vm_compute. Qed.

Example detect_intent_fallback :
  Coordinator.detect_intent "bom dia" = [Coordinator.REVIEW].
Proof. by vm_compute. Qed.

Example detect_intent_without_review :
  Coordinator.detect_intent "escreva testes para o parser"
  = [Coordinator.TEST].
Proof. by vm_compute. Qed.

(** ** Copilot selection and processing *)

Section Selection.
Import Coordinator.

Implicit Types (copilots : gmap CopilotType Copilot).

Lemma collect_step_elem (acc : gset CopilotType) (intents : list TaskIntent)
    (ct : CopilotType) :
  ct ∈ foldl add_intent_copilots acc intents
  ↔ ct ∈ acc ∨ mapped_from intents ct.
Proof.
  revert acc. induction intents as [|i intents IH]; intros acc; cbn [foldl].
  - split; [by left |]. intros [?|(? & ? & ?%not_elem_of_nil & _)]; done.
  - rewrite IH. unfold mapped_from, add_intent_copilots. split.
    + intros [Hacc|(i' & cts & Hi & Hget & Hct)].
      * destruct (dict_get INTENT_COPILOT_MAP i) as [cts|] eqn:Hget.
        -- apply elem_of_union in Hacc as [?|Hct]; [by left |].
           right. exists i, cts. rewrite elem_of_list_to_set in Hct.
           split; [left | done].
        -- by left.
      * right. exists i', cts. split; [by right | done].
    + intros [Hacc|(i' & cts & Hi & Hget & Hct)].
      * left. destruct (dict_get INTENT_COPILOT_MAP i); [|done].
        apply elem_of_union. by left.
      * apply elem_of_cons in Hi as [->|Hi].
        -- left. rewrite Hget. apply elem_of_union. right.
           by apply elem_of_list_to_set.
        -- right. by exists i', cts.
Qed.

Lemma collect_copilot_types_elem (intents : list TaskIntent)
    (ct : CopilotType) :
  ct ∈ collect_copilot_types intents ↔ mapped_from intents ct.
Proof.
  unfold collect_copilot_types. rewrite collect_step_elem.
  split; [intros [?%not_elem_of_empty|?]; done | by right].
Qed.

Lemma choose_copilots_nil copilots (request : CoordinatorRequest) :
  choose_copilots copilots request = [] ↔
  (preferred_copilots request = None ∨ preferred_copilots request = Some []) ∧
  select_copilots copilots (detect_intent (message request)) = [].
Proof.
  unfold choose_copilots.
  destruct (preferred_copilots request) as [[|ct cts]|].
  - split; [intros ?; split; auto | by intros [_ ?]].
  - split; [done | intros [[?|?] _]; done].
  - split; [intros ?; split; auto | by intros [_ ?]].
Qed.

(** C3. For every list of intents, [select_copilots] returns, without
    repetition, exactly the copilot types that the intent-to-copilot map
    gives for one of the intents and that are registered; and when the
    selection that [process] works with is empty, the response has
    [success = false], no details and an empty [copilots_used]. *)
Theorem select_copilots_registered_union copilots (intents : list TaskIntent) :
  (∀ ct, ct ∈ select_copilots copilots intents ↔
         mapped_from intents ct ∧ is_Some (copilots !! ct)) ∧
  NoDup (select_copilots copilots intents) ∧
  (∀ request,
      choose_copilots copilots request = [] →
      resp_success (process copilots request) = false ∧
      details (process copilots request) = [] ∧
      copilots_used (process copilots request) = []) ∧
  (∀ request,
      preferred_copilots request = None ∨
      preferred_copilots request = Some [] →
      select_copilots copilots (detect_intent (message request)) = [] →
      resp_success (process copilots request) = false ∧
      copilots_used (process copilots request) = []).
Proof.
  assert (Hempty : ∀ request,
      choose_copilots copilots request = [] →
      resp_success (process copilots request) = false ∧
      details (process copilots request) = [] ∧
      copilots_used (process copilots request) = []).
  { intros request Hnil. unfold process. by rewrite Hnil. }
  split; [|split; [|split]].
  - intros ct. unfold select_copilots.
    rewrite list_elem_of_filter, elem_of_elements, collect_copilot_types_elem.
    tauto.
  - unfold select_copilots. apply NoDup_filter, NoDup_elements.
  - done.
  - intros request Hpref Hsel.
    destruct (Hempty request) as (? & _ & ?); [|done].
    by apply choose_copilots_nil.
Qed.

Lemma run_copilots_unregistered copilots (request : CoordinatorRequest)
    (results : list (string * result_dict)) (copilot_types : list CopilotType) :
  (∀ ct, ct ∈ copilot_types → copilots !! ct = None) →
  foldl (run_copilot copilots request) results copilot_types = results.
Proof.
  revert results.
  induction copilot_types as [|ct cts IH]; intros results Hnone; [done |].
  simpl. unfold run_copilot at 2. rewrite (Hnone ct) by left.
  apply IH. intros ct' Hct'. apply Hnone. by right.
Qed.

(** C10. When [preferred_copilots] is a non-empty list of types none of
    which is registered, [process] goes past the empty-selection guard, runs
    no copilot, and answers with [success = true], no details, no
    recommendations, and [copilots_used] listing the preferred types. *)
Theorem process_preferred_unregistered copilots (request : CoordinatorRequest)
    (ct : CopilotType) (cts : list CopilotType) :
  preferred_copilots request = Some (ct :: cts) →
  (∀ c, c ∈ ct :: cts → copilots !! c = None) →
  process copilots request
  = mkResponse true ("## Resumo da Análise" +:+ nl +:+ nl) [] []
               (map CopilotType_value (ct :: cts)).
Proof.
  intros Hpref Hnone. unfold process, choose_copilots. rewrite Hpref.
  rewrite run_copilots_unregistered by done.
  unfold _consolidate_results. simpl. by rewrite append_nil_r.
Qed.

End Selection.

(** ** Consolidation of the results *)

Section Consolidation.
Import Coordinator.

Lemma mentions_recommendation_true (result : result_dict) :
  mentions_recommendation result = true ↔ content_mentions_advice result.
Proof.
  unfold mentions_recommendation, content_mentions_advice.
  rewrite orb_true_iff.
  rewrite (str_in_lower_iff "recomend") by (by eauto).
  by rewrite (str_in_lower_iff "sugest") by (by eauto).
Qed.

(** The loop with its [break] is an existence test. *)
Lemma extract_recommendations_existsb (values : list result_dict) :
  extract_recommendations values
  = if existsb mentions_recommendation values
    then [recommendation_text] else [].
Proof.
  induction values as [|r values IH]; simpl; [done |].
  by destruct (mentions_recommendation r).
Qed.

Lemma existsb_mentions (values : list result_dict) :
  existsb mentions_recommendation values = true ↔
  ∃ result, result ∈ values ∧ content_mentions_advice result.
Proof.
  rewrite existsb_exists. split; intros (r & H1 & H2); exists r.
  - split; [by apply list_elem_of_In | by apply mentions_recommendation_true].
  - split; [by apply list_elem_of_In | by apply mentions_recommendation_true].
Qed.

Lemma recomend_in_capitals : same_ignoring_case "RECOMEND" "recomend".
Proof.
  repeat (apply sic_capital; [by (split; [vm_compute; lia | reflexivity]) |]).
  constructor.
Qed.

Lemma sugest_in_capitals : same_ignoring_case "SUGEST" "sugest".
Proof.
  repeat (apply sic_capital; [by (split; [vm_compute; lia | reflexivity]) |]).
  constructor.
Qed.


End Consolidation.

(** ** The agent wrapper *)

Section AgentWrapperFacts.
Import Base.
Context `{Pydantic}.

(** Whatever the call to the client does, the wrapper returns. *)
Lemma run_returns (self : BaseCopilotAgent) (prompt : string) :
  ∃ response, run self prompt = Returns response.
Proof.
  unfold run. destruct (agent_run self prompt) as [r|msg]; simpl.
  - destruct (extract_content r); simpl; eauto.
  - eauto.
Qed.

Lemma arun_returns (self : BaseCopilotAgent) (prompt : string) :
  ∃ response, arun self prompt = Returns response.
Proof.
  unfold arun. destruct (agent_arun self prompt) as [r|msg]; simpl.
  - destruct (extract_content r); simpl; eauto.
  - eauto.
Qed.

(** A response whose content is not a string is rejected by the
    [AgentResponse] model inside the [try], and handled like any other
    exception. *)
Lemma run_content_not_text (self : BaseCopilotAgent) (prompt : string)
    (response : llm_response) :
  agent_run self prompt = Returns response →
  (∀ text, extract_content response ≠ PStr text) →
  run self prompt
  = Returns (mkAgentResponse false
       ("Erro ao processar: " +:+ pydantic_str_error (extract_content response))
       [("error", PStr (pydantic_str_error (extract_content response)))]
       None None).
Proof.
  intros Hrun Hnot. unfold run. rewrite Hrun. simpl.
  destruct (extract_content response) eqn:Hc; simpl; try done.
  by destruct (Hnot s).
Qed.

Lemma arun_content_not_text (self : BaseCopilotAgent) (prompt : string)
    (response : llm_response) :
  agent_arun self prompt = Returns response →
  (∀ text, extract_content response ≠ PStr text) →
  arun self prompt
  = Returns (mkAgentResponse false
       ("Erro ao processar: " +:+ pydantic_str_error (extract_content response))
       [("error", PStr (pydantic_str_error (extract_content response)))]
       None None).
Proof.
  intros Hrun Hnot. unfold arun. rewrite Hrun. simpl.
  destruct (extract_content response) eqn:Hc; simpl; try done.
  by destruct (Hnot s).
Qed.


End AgentWrapperFacts.

(** ** The disk cache *)

(** *** Expiry test *)

(** [is_expired] holds exactly of the entries whose stamp has passed. *)
Lemma is_expired_true_iff (e : Cache.CacheEntry) (now : Qp) :
  Cache.is_expired e now = true ↔ Cache.expired_at now e.
Proof.
  unfold Cache.is_expired, Cache.expired_at.
  destruct (Cache.expires_at e) as [t|].
  - rewrite bool_decide_eq_true. split.
    + intros ?. by exists t.
    + by intros (t' & [= <-] & ?).
  - split; [done | by intros (t' & ? & _)].
Qed.

Lemma live_not_expired (e : Cache.CacheEntry) (now : Qp) :
  Cache.live_at now e → Cache.is_expired e now = false.
Proof.
  intros Hlive. destruct (Cache.is_expired e now) eqn:Hexp; [|done].
  apply is_expired_true_iff in Hexp as (t & Ht & Hlt).
  apply Hlive in Ht. by apply Qp.le_ngt in Ht.
Qed.

(** Every entry is expired or live, and never both. *)
Lemma expired_or_live (e : Cache.CacheEntry) (now : Qp) :
  (Cache.expired_at now e ∧ ¬ Cache.live_at now e) ∨
  (Cache.live_at now e ∧ ¬ Cache.expired_at now e).
Proof.
  destruct (Cache.is_expired e now) eqn:Hexp.
  - left. apply is_expired_true_iff in Hexp. split; [done |].
    intros Hlive. apply live_not_expired in Hlive.
    apply is_expired_true_iff in Hexp. congruence.
  - right. split.
    + intros t Ht. apply Qp.le_ngt. intros Hlt.
      assert (Cache.is_expired e now = true); [|congruence].
      apply is_expired_true_iff. by exists t.
    + intros Hex. apply is_expired_true_iff in Hex. congruence.
Qed.

(** *** Paths and single operations *)

Section CacheOperations.
Context `{Cache.Hashlib} `{Cache.FloatSum}.

Implicit Types (self : Cache.t) (fs : Cache.filesystem) (e : Cache.CacheEntry).

Lemma ends_with_append (suffix h : string) :
  Cache.ends_with suffix (h +:+ suffix) = true.
Proof.
  induction h as [|x h IH].
  - rewrite append_nil_l. destruct suffix; simpl; [done |].
    by rewrite Ascii.eqb_refl, String.eqb_refl.
  - rewrite append_cons. cbn [Cache.ends_with]. rewrite IH.
    apply orb_true_r.
Qed.

(** The file of every key is one that [clear] and [clear_expired] visit. *)
Lemma cache_path_is_cache_file self (key : string) :
  Cache.is_cache_file self (Cache._get_cache_path self key) = true.
Proof.
  unfold Cache.is_cache_file, Cache._get_cache_path, Cache.is_strictly_below,
    Cache.is_json_name.
  set (h := Cache._get_key_hash key).
  rewrite !andb_true_iff, negb_true_iff, bool_decide_eq_true,
    bool_decide_eq_false.
  repeat split.
  - by apply prefix_app_r.
  - intros Heq. apply (f_equal length) in Heq.
    rewrite length_app in Heq. simpl in Heq. lia.
  - replace (Cache.cache_dir self ++ [substring 0 2 h; h +:+ ".json"])
      with ((Cache.cache_dir self ++ [substring 0 2 h]) ++ [h +:+ ".json"])
      by (by rewrite <- app_assoc).
    rewrite last_snoc. apply ends_with_append.
Qed.

Lemma get_disabled self (now : Qp) (key : string) fs :
  Cache.enabled self = false → Cache.get self now key fs = (PNone, fs).
Proof. intros Hen. unfold Cache.get. by rewrite Hen. Qed.

(** A hit: the value is returned and the entry is written back with its
    hit count raised by one. *)
Lemma get_hit self (now : Qp) (key : string) fs e :
  Cache.enabled self = true →
  Cache.stored fs (Cache._get_cache_path self key) e →
  Cache.is_expired e now = false →
  Cache.get self now key fs
  = (Cache.value e,
     <[Cache._get_cache_path self key :=
         Cache.NFile (Cache.JsonEntry (Cache.bump_hit_count e))]> fs).
Proof.
  intros Hen Hst Hexp. unfold Cache.stored in Hst. unfold Cache.get.
  rewrite Hen. cbn [negb]. unfold Cache.path_exists, Cache.read_text.
  rewrite Hst. cbn. rewrite Hexp.
  unfold Cache.write_text, Cache.is_dir. by rewrite Hst.
Qed.

(** A stale entry: the answer is [None] and the file is unlinked. *)
Lemma get_stale self (now : Qp) (key : string) fs e :
  Cache.enabled self = true →
  Cache.stored fs (Cache._get_cache_path self key) e →
  Cache.is_expired e now = true →
  Cache.get self now key fs
  = (PNone, base.delete (Cache._get_cache_path self key) fs).
Proof.
  intros Hen Hst Hexp. unfold Cache.stored in Hst. unfold Cache.get.
  rewrite Hen. cbn [negb]. unfold Cache.path_exists, Cache.read_text.
  rewrite Hst. cbn. rewrite Hexp.
  unfold Cache.delete, Cache.path_exists, Cache.unlink. by rewrite Hst.
Qed.

(** Without a file at the path of the key, [get] and [exists] miss and
    leave the file system alone. *)
Lemma get_without_file self (now : Qp) (key : string) fs :
  Cache.is_file fs (Cache._get_cache_path self key) = false →
  Cache.get self now key fs = (PNone, fs).
Proof.
  intros Hnf. unfold Cache.get. destruct (negb (Cache.enabled self)); [done |].
  destruct (negb (Cache.path_exists fs _)); [done |].
  unfold Cache.read_text. unfold Cache.is_file in Hnf.
  destruct (fs !! Cache._get_cache_path self key) as [[|text]|]; done.
Qed.

Lemma exists_without_file self (now : Qp) (key : string) fs :
  Cache.is_file fs (Cache._get_cache_path self key) = false →
  Cache.exists_ self now key fs = (false, fs).
Proof.
  intros Hnf. unfold Cache.exists_.
  destruct (negb (Cache.enabled self)); [done |].
  destruct (negb (Cache.path_exists fs _)); [done |].
  unfold Cache.read_text. unfold Cache.is_file in Hnf.
  destruct (fs !! Cache._get_cache_path self key) as [[|text]|]; done.
Qed.

Lemma is_file_after_delete fs (p : list string) :
  Cache.is_file (base.delete p fs) p = false.
Proof. unfold Cache.is_file. by rewrite lookup_delete_eq. Qed.

(** What a successful [set] leaves behind: the cache is enabled and the
    file of the key holds the new entry. *)
Lemma set_true self (now : Qp) (key : string) (value : pyval)
    (ttl : option Z) fs fs' :
  Cache.set self now key value ttl fs = Returns (true, fs') →
  Cache.enabled self = true ∧
  ∃ e,
    Cache.new_entry now key value (Cache.effective_ttl self ttl) = Returns e ∧
    Cache.stored fs' (Cache._get_cache_path self key) e.
Proof.
  unfold Cache.set. destruct (Cache.enabled self); cbn [negb]; [|done].
  destruct (Cache.new_entry _ _ _ _) as [e|]; [|done]. cbn.
  destruct (Cache.mkdir_parents _ fs) as [fs1|]; [|done].
  unfold Cache.write_text. destruct (Cache.is_dir fs1 _); [done |].
  intros [= <-]. split; [done |]. exists e. split; [done |].
  unfold Cache.stored. by rewrite lookup_insert_eq.
Qed.

(** [set] raises exactly when the sum for the deadline does, and has then
    written nothing: the entry is built before anything is written. *)
Lemma set_raises_iff self (now : Qp) (key : string) (value : pyval)
    (ttl : option Z) fs (msg : string) :
  Cache.set self now key value ttl fs = Raises msg ↔
  Cache.enabled self = true ∧
  Cache.new_entry now key value (Cache.effective_ttl self ttl) = Raises msg.
Proof.
  unfold Cache.set. destruct (Cache.enabled self); cbn [negb].
  - destruct (Cache.new_entry _ _ _ _) as [e|msg']; cbn.
    + split; [| by intros [_ ?]].
      destruct (Cache.mkdir_parents _ fs) as [fs1|]; [|done].
      by destruct (Cache.write_text _ _ fs1).
    + split; [by intros [= ->] | by intros [_ [= ->]]].
  - split; [done | by intros [? _]].
Qed.

(** A disabled cache stores nothing. *)
Lemma set_disabled self (now : Qp) (key : string) (value : pyval)
    (ttl : option Z) fs :
  Cache.enabled self = false →
  Cache.set self now key value ttl fs = Returns (false, fs).
Proof. intros Hen. unfold Cache.set. by rewrite Hen. Qed.

End CacheOperations.

(** *** Layout on disk *)

Section CacheLayout.
Context `{Cache.Hashlib}.

Lemma substring_prefix (n : nat) (s : string) :
  String.prefix (substring 0 n s) s = true.
Proof.
  revert s. induction n as [|n IH]; intros [|c s]; simpl; try done.
  destruct (Ascii.ascii_dec c c); [apply IH | done].
Qed.

Lemma substring_length (n : nat) (s : string) :
  String.length (substring 0 n s) = Nat.min n (String.length s).
Proof.
  revert s. induction n as [|n IH]; intros [|c s]; simpl; try done.
  by rewrite IH.
Qed.

Lemma substring_all_hex (n : nat) (s : string) :
  Cache.all_hex s = true → Cache.all_hex (substring 0 n s) = true.
Proof.
  revert s. induction n as [|n IH]; intros [|c s]; simpl; try done.
  intros [Hc Hs]%andb_true_iff. by rewrite Hc, IH.
Qed.

Lemma digest_length (key : string) :
  String.length (Cache.sha256_hexdigest key) = 64.
Proof.
  pose proof (Cache.sha256_hexdigest_shape key) as Hs.
  apply andb_true_iff in Hs as [Hlen _]. by apply Nat.eqb_eq.
Qed.

(** C5. For every key, the entry lives at
    [<cache_dir>/<shard>/<hash>.json]: the base name of the file is the
    whole key hash followed by [.json], the directory above it is
    [cache_dir] extended by the shard, and the shard consists of the first
    two characters of that same hash.  The hash is made of the first 32
    hexadecimal digits of the SHA-256 digest of the key. *)
Theorem cache_path_layout (self : Cache.t) (key : string) :
  let key_hash := Cache._get_key_hash key in
  let shard := substring 0 2 key_hash in
  Cache._get_cache_path self key
  = Cache.cache_dir self ++ [shard; key_hash +:+ ".json"] ∧
  last (Cache._get_cache_path self key) = Some (key_hash +:+ ".json") ∧
  Cache.parent (Cache._get_cache_path self key)
  = Cache.cache_dir self ++ [shard] ∧
  (∃ rest, key_hash = shard +:+ rest) ∧
  key_hash = substring 0 32 (Cache.sha256_hexdigest key) ∧
  String.length key_hash = 32 ∧
  String.length shard = 2 ∧
  Cache.all_hex key_hash = true.
Proof.
  intros key_hash shard.
  assert (Hpath : Cache._get_cache_path self key
                  = (Cache.cache_dir self ++ [shard]) ++ [key_hash +:+ ".json"]).
  { unfold Cache._get_cache_path. by rewrite <- app_assoc. }
  assert (Hlen : String.length key_hash = 32).
  { subst key_hash. unfold Cache._get_key_hash.
    by rewrite substring_length, digest_length. }
  split; [by rewrite Hpath, <- app_assoc |].
  split; [rewrite Hpath; apply last_snoc |].
  split; [unfold Cache.parent; rewrite Hpath; apply removelast_last |].
  split; [apply prefix_true_iff, substring_prefix |].
  split; [done |]. split; [done |].
  split; [subst shard; by rewrite substring_length, Hlen |].
  subst key_hash. unfold Cache._get_key_hash. apply substring_all_hex.
  pose proof (Cache.sha256_hexdigest_shape key) as Hs.
  by apply andb_true_iff in Hs as [_ Hs].
Qed.

End CacheLayout.

(** *** Time to live *)

Section CacheTtl.
Context `{Cache.Hashlib} `{Cache.FloatSum}.

Implicit Types (self : Cache.t) (fs : Cache.filesystem) (e : Cache.CacheEntry).

Lemma effective_ttl_nonzero self (T : Z) :
  T ≠ 0%Z → Cache.effective_ttl self (Some T) = T.
Proof.
  intros HT. unfold Cache.effective_ttl, Cache.truthy_int.
  destruct (Z.eqb_spec T 0); done.
Qed.

Lemma effective_ttl_zero self :
  Cache.effective_ttl self (Some 0%Z) = Cache.default_ttl self.
Proof. reflexivity. Qed.

Lemma effective_ttl_default self :
  Cache.effective_ttl self (Some (Cache.default_ttl self))
  = Cache.default_ttl self.
Proof.
  unfold Cache.effective_ttl.
  by destruct (Cache.truthy_int (Cache.default_ttl self)).
Qed.

Lemma new_entry_positive_ttl (now : Qp) (key : string) (value : pyval)
    (T : Z) :
  (0 < T)%Z →
  Cache.new_entry now key value T
  = (deadline ← Cache.float_add_int now T;
     Returns (Cache.mkEntry key value now deadline 0)).
Proof.
  intros HT. unfold Cache.new_entry.
  by destruct (Z.ltb_spec 0 T); [|lia].
Qed.

Lemma new_entry_no_ttl (now : Qp) (key : string) (value : pyval) (T : Z) :
  (T <= 0)%Z →
  Cache.new_entry now key value T
  = Returns (Cache.mkEntry key value now None 0).
Proof.
  intros HT. unfold Cache.new_entry.
  by destruct (Z.ltb_spec 0 T); [lia |].
Qed.

(** The entry that [set] builds carries the key, the value and the time of
    the call, and no hits; a deadline in it is the sum for a positive ttl,
    and is not before the call. *)
Lemma new_entry_returns (now : Qp) (key : string) (value : pyval) (T : Z) e :
  Cache.new_entry now key value T = Returns e →
  e = Cache.mkEntry key value now (Cache.expires_at e) 0 ∧
  (∀ d, Cache.expires_at e = Some d →
        (0 < T)%Z ∧ Cache.float_add_int now T = Returns (Some d) ∧
        (now ≤ d)%Qp).
Proof.
  unfold Cache.new_entry. destruct (Z.ltb_spec 0 T) as [HT|HT].
  - destruct (Cache.float_add_int now T) as [deadline|] eqn:Hsum; [|done].
    intros [= <-]. split; [done |]. intros d [= ->].
    split; [done |]. split; [done |].
    by apply (Cache.float_add_int_ge now T d).
  - intros [= <-]. split; [done |]. by intros d.
Qed.

(** An entry with the deadline [d], read at [now]. *)
Lemma get_by_deadline self (now d : Qp) (key : string) fs e :
  Cache.enabled self = true →
  Cache.stored fs (Cache._get_cache_path self key) e →
  Cache.expires_at e = Some d →
  ((now ≤ d)%Qp → (Cache.get self now key fs).1 = Cache.value e) ∧
  ((d < now)%Qp → (Cache.get self now key fs).1 = PNone).
Proof.
  intros Hen Hst Hd. split.
  - intros Hle. rewrite (get_hit self now key fs e); try done.
    apply live_not_expired. intros t Ht. congruence.
  - intros Hlt. rewrite (get_stale self now key fs e); try done.
    apply is_expired_true_iff. by exists d.
Qed.

(** An entry without a deadline is returned whatever the time. *)
Lemma get_without_deadline self (now : Qp) (key : string) fs e :
  Cache.enabled self = true →
  Cache.stored fs (Cache._get_cache_path self key) e →
  Cache.expires_at e = None →
  (Cache.get self now key fs).1 = Cache.value e.
Proof.
  intros Hen Hst Hd. rewrite (get_hit self now key fs e); try done.
  apply live_not_expired. intros t Ht. congruence.
Qed.

(** A hit leaves the value and the deadline of the entry as they were, so
    that later reads are judged against the same deadline. *)
Lemma hit_keeps_entry self (now : Qp) (key : string) fs e :
  Cache.enabled self = true →
  Cache.stored fs (Cache._get_cache_path self key) e →
  Cache.is_expired e now = false →
  ∃ e', Cache.stored (Cache.get self now key fs).2
          (Cache._get_cache_path self key) e' ∧
        Cache.value e' = Cache.value e ∧
        Cache.expires_at e' = Cache.expires_at e ∧
        Cache.hit_count e' = (Cache.hit_count e + 1)%Z.
Proof.
  intros Hen Hst Hexp. rewrite (get_hit self now key fs e) by done.
  exists (Cache.bump_hit_count e). unfold Cache.stored. cbn [snd].
  by rewrite lookup_insert_eq.
Qed.

(** Reads of a live entry count the hits and touch nothing else. *)
Lemma after_live_gets self (key : string) (times : list Qp) fs e :
  Cache.enabled self = true →
  Cache.stored fs (Cache._get_cache_path self key) e →
  Forall (λ t, Cache.live_at t e) times →
  Cache.stored (Cache.after_gets self key times fs)
    (Cache._get_cache_path self key)
    (Cache.mkEntry (Cache.key e) (Cache.value e) (Cache.created_at e)
       (Cache.expires_at e) (Cache.hit_count e + Z.of_nat (length times))) ∧
  (∀ p, p ≠ Cache._get_cache_path self key →
        Cache.after_gets self key times fs !! p = fs !! p).
Proof.
  intros Hen Hst Hlive. revert fs e Hst Hlive.
  induction times as [|t times IH]; intros fs e Hst Hlive.
  - split; [|done]. destruct e. cbn. by rewrite Z.add_0_r.
  - apply Forall_cons in Hlive as [Ht Hlive].
    unfold Cache.after_gets. cbn [foldl].
    fold (Cache.after_gets self key times (Cache.get self t key fs).2).
    rewrite (get_hit self t key fs e Hen Hst (live_not_expired e t Ht)).
    cbn [snd].
    destruct (IH (<[Cache._get_cache_path self key :=
                      Cache.NFile (Cache.JsonEntry (Cache.bump_hit_count e))]>
                    fs) (Cache.bump_hit_count e)) as [Hst' Hframe].
    + unfold Cache.stored. by rewrite lookup_insert_eq.
    + done.
    + split.
      * cbn [Cache.bump_hit_count Cache.key Cache.value Cache.created_at
               Cache.expires_at Cache.hit_count] in Hst'.
        replace (Cache.hit_count e + Z.of_nat (length (t :: times)))%Z
          with (Cache.hit_count e + 1 + Z.of_nat (length times))%Z
          by (cbn [length]; lia).
        exact Hst'.
      * intros p Hp. rewrite Hframe by done. by rewrite lookup_insert_ne.
Qed.


End CacheTtl.

(** *** Lazy purge and hit counting *)

Section CacheReads.
Context `{Cache.Hashlib} `{Cache.FloatSum}.

Implicit Types (self : Cache.t) (fs : Cache.filesystem) (e : Cache.CacheEntry).

(** C4. For every key of an enabled cache whose file holds an entry [e]:
    when [e] has an expiry stamp that lies before the time of the read,
    [get] returns [None] and unlinks the file, and from then on [exists]
    answers false; when [e] has no expiry stamp or one that has not passed,
    [get] returns the stored value and writes the entry back with
    [hit_count] raised by one and everything else as it was. *)
Theorem get_purges_stale_and_counts_hits self (now : Qp) (key : string) fs e :
  Cache.enabled self = true →
  Cache.stored fs (Cache._get_cache_path self key) e →
  (∀ t, Cache.expires_at e = Some t → (t < now)%Qp →
     (Cache.get self now key fs).1 = PNone ∧
     (Cache.get self now key fs).2
       = base.delete (Cache._get_cache_path self key) fs ∧
     (Cache.get self now key fs).2 !! Cache._get_cache_path self key = None ∧
     ∀ now', Cache.exists_ self now' key (Cache.get self now key fs).2
             = (false, (Cache.get self now key fs).2)) ∧
  (Cache.live_at now e →
     (Cache.get self now key fs).1 = Cache.value e ∧
     Cache.stored (Cache.get self now key fs).2
       (Cache._get_cache_path self key)
       (Cache.mkEntry (Cache.key e) (Cache.value e) (Cache.created_at e)
          (Cache.expires_at e) (Cache.hit_count e + 1)) ∧
     (∀ p, p ≠ Cache._get_cache_path self key →
           (Cache.get self now key fs).2 !! p = fs !! p)).
Proof.
  intros Hen Hst. split.
  - intros t Ht Hlt.
    rewrite (get_stale self now key fs e); try done.
    + cbn [fst snd]. split; [done |]. split; [done |].
      split; [apply lookup_delete_eq |].
      intros now'. apply exists_without_file, is_file_after_delete.
    + apply is_expired_true_iff. by exists t.
  - intros Hlive.
    rewrite (get_hit self now key fs e); try done.
    + cbn [fst snd]. split; [done |]. split.
      * unfold Cache.stored. by rewrite lookup_insert_eq.
      * intros p Hp. by rewrite lookup_insert_ne.
    + by apply live_not_expired.
Qed.

(** C9, as the code has it.  For every key and value: [set] with [ttl=0]
    behaves exactly as [set] without a ttl and as [set] with the default
    ttl of the cache.  With a positive default the entry written carries
    as its deadline the float sum of [now] and [default_ttl], is returned
    up to that deadline and is gone after it.  With a default that is not
    positive, the entry written by [ttl=0] has [expires_at = None] and is
    returned whatever the time, as is the entry written by [set] with a
    negative ttl. *)
Theorem set_zero_ttl_takes_default self (now : Qp) (key : string)
    (value : pyval) fs :
  Cache.set self now key value (Some 0%Z) fs
  = Cache.set self now key value None fs ∧
  Cache.set self now key value (Some 0%Z) fs
  = Cache.set self now key value (Some (Cache.default_ttl self)) fs ∧
  (∀ fs',
     (0 < Cache.default_ttl self)%Z →
     Cache.set self now key value (Some 0%Z) fs = Returns (true, fs') →
     ∃ deadline : option Qp,
       Cache.float_add_int now (Cache.default_ttl self) = Returns deadline ∧
       Cache.stored fs' (Cache._get_cache_path self key)
         (Cache.mkEntry key value now deadline 0) ∧
       match deadline with
       | Some d =>
           (now ≤ d)%Qp ∧
           (∀ now', (now' ≤ d)%Qp → (Cache.get self now' key fs').1 = value) ∧
           (∀ now', (d < now')%Qp → (Cache.get self now' key fs').1 = PNone)
       | None => ∀ now', (Cache.get self now' key fs').1 = value
       end) ∧
  (∀ fs',
     (Cache.default_ttl self <= 0)%Z →
     Cache.set self now key value (Some 0%Z) fs = Returns (true, fs') →
     Cache.stored fs' (Cache._get_cache_path self key)
       (Cache.mkEntry key value now None 0) ∧
     (∀ now', (Cache.get self now' key fs').1 = value)) ∧
  (∀ T fs',
     (T < 0)%Z →
     Cache.set self now key value (Some T) fs = Returns (true, fs') →
     Cache.stored fs' (Cache._get_cache_path self key)
       (Cache.mkEntry key value now None 0) ∧
     (∀ now', (Cache.get self now' key fs').1 = value)).
Proof.
  split; [done |]. split.
  { unfold Cache.set. by rewrite effective_ttl_zero, effective_ttl_default. }
  split; [|split].
  - intros fs' Hpos Hset. apply set_true in Hset as (Hen & e & Hnew & Hst).
    rewrite effective_ttl_zero, new_entry_positive_ttl in Hnew by done.
    destruct (Cache.float_add_int now _) as [deadline|] eqn:Hsum; [|done].
    injection Hnew as <-. exists deadline.
    split; [done |]. split; [done |]. destruct deadline as [d|].
    + split; [by apply (Cache.float_add_int_ge now _ d Hpos) |].
      split; intros now' Hnow;
        by apply (get_by_deadline self now' d key fs' _ Hen Hst eq_refl).
    + intros now'.
      by apply (get_without_deadline self now' key fs' _ Hen Hst).
  - intros fs' Hd Hset. apply set_true in Hset as (Hen & e & Hnew & Hst).
    rewrite effective_ttl_zero, new_entry_no_ttl in Hnew by done.
    injection Hnew as <-. split; [done |]. intros now'.
    by apply (get_without_deadline self now' key fs' _ Hen Hst).
  - intros T fs' Hneg Hset. apply set_true in Hset as (Hen & e & Hnew & Hst).
    rewrite effective_ttl_nonzero, new_entry_no_ttl in Hnew by lia.
    injection Hnew as <-. split; [done |]. intros now'.
    by apply (get_without_deadline self now' key fs' _ Hen Hst).
Qed.

End CacheReads.

(** *** Clearing *)

Section CacheClearing.
Context `{Cache.Hashlib}.

Implicit Types (self : Cache.t) (fs : Cache.filesystem) (e : Cache.CacheEntry).

(** A loop that, at each path, unlinks or leaves alone according to a test
    on what the path holds. *)
Lemma purge_loop_lookup
    (step : Z * Cache.filesystem → list string → Z * Cache.filesystem)
    (test : option Cache.node → bool) :
  test None = false →
  (∀ count fs p,
     (step (count, fs) p).2 = if test (fs !! p) then base.delete p fs else fs) →
  ∀ (l : list (list string)) count fs q,
    (foldl step (count, fs) l).2 !! q
    = if bool_decide (q ∈ l) && test (fs !! q) then None else fs !! q.
Proof.
  intros Hnone Hstep l. induction l as [|p l IH]; intros count fs q.
  - done.
  - cbn [foldl]. destruct (step (count, fs) p) as [count1 fs1] eqn:Hs.
    pose proof (Hstep count fs p) as Hfs1. rewrite Hs in Hfs1. cbn in Hfs1.
    rewrite IH. destruct (decide (q = p)) as [->|Hne].
    + rewrite (bool_decide_eq_true_2 (p ∈ p :: l)) by left. cbn [andb].
      subst fs1. destruct (test (fs !! p)) eqn:Ht.
      * rewrite lookup_delete_eq, Hnone. by rewrite andb_false_r.
      * rewrite Ht. by rewrite andb_false_r.
    + assert (Hq : fs1 !! q = fs !! q).
      { subst fs1. destruct (test (fs !! p)); [|done].
        by rewrite lookup_delete_ne. }
      rewrite Hq.
      assert (Hin : bool_decide (q ∈ l) = bool_decide (q ∈ p :: l)).
      { apply bool_decide_ext. rewrite elem_of_cons. tauto. }
      by rewrite Hin.
Qed.

Lemma clear_step_spec (count : Z) fs (p : list string) :
  (Cache.clear_step (count, fs) p).2
  = if Cache.holds_file (fs !! p) then base.delete p fs else fs.
Proof.
  unfold Cache.clear_step, Cache.unlink.
  by destruct (fs !! p) as [[|text]|].
Qed.

Lemma clear_expired_step_spec (now : Qp) (count : Z) fs (p : list string) :
  (Cache.clear_expired_step now (count, fs) p).2
  = if Cache.holds_stale_entry now (fs !! p) then base.delete p fs else fs.
Proof.
  unfold Cache.clear_expired_step, Cache.read_text, Cache.unlink.
  destruct (fs !! p) as [[|[e|other]]|] eqn:Hp; cbn; try done.
  by destruct (Cache.is_expired e now).
Qed.

Lemma elem_of_ancestors (q d : list string) :
  q ∈ Cache.ancestors_and_self d ↔ q `prefix_of` d.
Proof.
  unfold Cache.ancestors_and_self. rewrite list_elem_of_In, in_map_iff. split.
  - intros (n & <- & _). apply prefix_take.
  - intros [k ->]. exists (length q). split; [apply take_app_length |].
    apply in_seq. rewrite length_app. lia.
Qed.

Lemma has_descendant_true fs (d : list string) :
  Cache.has_descendant fs d = true →
  ∃ q, is_Some (fs !! q) ∧ d `prefix_of` q ∧ length d < length q.
Proof.
  unfold Cache.has_descendant. intros (q & Hq & Hb)%existsb_exists.
  apply in_map_iff in Hq as ([q' n] & Heq & Hin). cbn in Heq. subst q.
  apply list_elem_of_In, elem_of_map_to_list in Hin.
  unfold Cache.is_strictly_below in Hb.
  apply andb_true_iff in Hb as [Hpre%bool_decide_eq_true Hne%negb_true_iff].
  apply bool_decide_eq_false in Hne.
  exists q'. split; [by exists n |]. split; [done |].
  destruct Hpre as [k ->]. destruct k as [|x k].
  - by rewrite app_nil_r in Hne.
  - rewrite length_app. cbn. lia.
Qed.

(** A path exists exactly when it lies at or above a path with a node. *)
Lemma path_exists_true fs (q : list string) :
  Cache.path_exists fs q = true ↔ ∃ k, is_Some (fs !! k) ∧ q `prefix_of` k.
Proof.
  unfold Cache.path_exists. split.
  - destruct (fs !! q) as [n|] eqn:Hq.
    + intros _. exists q. by rewrite Hq.
    + intros (k & Hk & Hpre & _)%has_descendant_true. by exists k.
  - intros (k & [n Hk] & Hpre). destruct (fs !! q) eqn:Hq; [done |].
    unfold Cache.has_descendant. apply existsb_exists. exists k. split.
    + apply in_map_iff. exists (k, n). split; [done |].
      by apply list_elem_of_In, elem_of_map_to_list.
    + unfold Cache.is_strictly_below.
      rewrite (bool_decide_eq_true_2 _ Hpre). cbn [andb].
      apply negb_true_iff, bool_decide_eq_false. intros ->. congruence.
Qed.

Lemma elem_of_all_paths fs (q : list string) :
  q ∈ Cache.all_paths fs ↔ Cache.path_exists fs q = true.
Proof.
  unfold Cache.all_paths.
  rewrite path_exists_true, elem_of_remove_dups, list_elem_of_In, in_concat.
  split.
  - intros (l & Hl & Hq). apply in_map_iff in Hl as ([k n] & <- & Hin).
    apply list_elem_of_In, elem_of_map_to_list in Hin.
    exists k. split; [by exists n |].
    by apply elem_of_ancestors, list_elem_of_In.
  - intros (k & [n Hk] & Hpre). exists (Cache.ancestors_and_self k). split.
    + apply in_map_iff. exists (k, n). split; [done |].
      by apply list_elem_of_In, elem_of_map_to_list.
    + by apply list_elem_of_In, elem_of_ancestors.
Qed.

(** What [rglob] yields. *)
Lemma rglob_json_elem fs (d q : list string) :
  q ∈ Cache.rglob_json fs d ↔
  Cache.path_exists fs q = true ∧
  Cache.is_strictly_below d q && Cache.is_json_name q = true.
Proof.
  unfold Cache.rglob_json.
  by rewrite list_elem_of_In, filter_In, <- list_elem_of_In,
    elem_of_all_paths.
Qed.

(** Something strictly below a directory makes the directory exist. *)
Lemma below_makes_exist fs (d q : list string) :
  Cache.path_exists fs q = true → Cache.is_strictly_below d q = true →
  Cache.path_exists fs d = true.
Proof.
  rewrite !path_exists_true. intros (k & Hk & Hpre) Hb.
  unfold Cache.is_strictly_below in Hb.
  apply andb_true_iff in Hb as [Hd%bool_decide_eq_true _].
  exists k. split; [done |]. by etrans.
Qed.

Lemma visited_and_tested self fs (test : option Cache.node → bool)
    (q : list string) :
  test None = false →
  bool_decide (q ∈ Cache.rglob_json fs (Cache.cache_dir self))
    && test (fs !! q)
  = Cache.is_cache_file self q && test (fs !! q).
Proof.
  intros Hnone. unfold Cache.is_cache_file.
  destruct (test (fs !! q)) eqn:Ht; [|by rewrite !andb_false_r].
  rewrite !andb_true_r.
  destruct (Cache.is_strictly_below (Cache.cache_dir self) q
            && Cache.is_json_name q) eqn:Hf.
  - apply bool_decide_eq_true_2, rglob_json_elem. split; [|done].
    unfold Cache.path_exists. destruct (fs !! q); [done | congruence].
  - apply bool_decide_eq_false_2. rewrite rglob_json_elem.
    intros [_ Hf']. congruence.
Qed.

(** Without the cache directory nothing is visited. *)
Lemma rglob_json_without_dir fs (d : list string) :
  Cache.path_exists fs d = false → Cache.rglob_json fs d = [].
Proof.
  intros Hno. destruct (Cache.rglob_json fs d) as [|q l] eqn:Hl; [done |].
  assert (Hq : q ∈ Cache.rglob_json fs d) by (rewrite Hl; left).
  apply rglob_json_elem in Hq as [Hsome [Hb _]%andb_true_iff].
  by rewrite (below_makes_exist fs d q Hsome Hb) in Hno.
Qed.

(** The file system after [clear], path by path. *)
Lemma clear_lookup self fs (q : list string) :
  (Cache.clear self fs).2 !! q
  = if Cache.is_cache_file self q && Cache.holds_file (fs !! q)
    then None else fs !! q.
Proof.
  rewrite <- (visited_and_tested self fs Cache.holds_file q) by done.
  unfold Cache.clear.
  destruct (Cache.path_exists fs (Cache.cache_dir self)) eqn:Hex; cbn [negb].
  - apply purge_loop_lookup; [done | apply clear_step_spec].
  - by rewrite (rglob_json_without_dir _ _ Hex).
Qed.

(** The file system after [clear_expired], path by path. *)
Lemma clear_expired_lookup self (now : Qp) fs (q : list string) :
  (Cache.clear_expired self now fs).2 !! q
  = if Cache.is_cache_file self q && Cache.holds_stale_entry now (fs !! q)
    then None else fs !! q.
Proof.
  rewrite <- (visited_and_tested self fs (Cache.holds_stale_entry now) q)
    by done.
  unfold Cache.clear_expired.
  destruct (Cache.path_exists fs (Cache.cache_dir self)) eqn:Hex; cbn [negb].
  - apply purge_loop_lookup; [done | apply clear_expired_step_spec].
  - by rewrite (rglob_json_without_dir _ _ Hex).
Qed.

(** C7. For every state of the file system: [clear_expired] unlinks every
    visited entry whose [expires_at] is set and earlier than the current
    time; whatever it changes is such an entry, unlinked; and every entry
    that is not expired keeps its file and its contents.  [clear] leaves no
    file at any visited path, touches nothing else, and afterwards every
    key misses.  (The visited paths are those strictly below [cache_dir]
    whose name ends in [.json]; the file of every key is one of them.) *)
Theorem clear_expired_removes_exactly_stale self (now : Qp) fs :
  (∀ p e t,
     Cache.is_cache_file self p = true → Cache.stored fs p e →
     Cache.expires_at e = Some t → (t < now)%Qp →
     (Cache.clear_expired self now fs).2 !! p = None) ∧
  (∀ p,
     (Cache.clear_expired self now fs).2 !! p ≠ fs !! p →
     ∃ e t, Cache.is_cache_file self p = true ∧ Cache.stored fs p e ∧
            Cache.expires_at e = Some t ∧ (t < now)%Qp ∧
            (Cache.clear_expired self now fs).2 !! p = None) ∧
  (∀ p e,
     Cache.stored fs p e → Cache.live_at now e →
     Cache.stored (Cache.clear_expired self now fs).2 p e) ∧
  (∀ key, Cache.is_cache_file self (Cache._get_cache_path self key) = true) ∧
  (∀ p, Cache.is_cache_file self p = true →
        Cache.is_file (Cache.clear self fs).2 p = false) ∧
  (∀ p, Cache.is_cache_file self p = false →
        (Cache.clear self fs).2 !! p = fs !! p) ∧
  (∀ key now',
     (Cache.get self now' key (Cache.clear self fs).2).1 = PNone ∧
     (Cache.exists_ self now' key (Cache.clear self fs).2).1 = false).
Proof.
  assert (Hgone : ∀ p, Cache.is_cache_file self p = true →
                       Cache.is_file (Cache.clear self fs).2 p = false).
  { intros p Hp. unfold Cache.is_file. rewrite clear_lookup, Hp. cbn [andb].
    by destruct (fs !! p) as [[|text]|]. }
  split; [|split; [|split; [|split; [|split; [|split]]]]].
  - intros p e t Hp Hst Ht Hlt. rewrite clear_expired_lookup, Hp.
    unfold Cache.stored in Hst. rewrite Hst. cbn.
    assert (Hexp : Cache.is_expired e now = true)
      by (apply is_expired_true_iff; by exists t).
    by rewrite Hexp.
  - intros p Hchg. rewrite clear_expired_lookup in Hchg |- *.
    destruct (Cache.is_cache_file self p) eqn:Hp; [|done]. cbn [andb] in *.
    destruct (fs !! p) as [[|[e|other]]|] eqn:Hfs; cbn in *; try done.
    destruct (Cache.is_expired e now) eqn:Hexp; [|done].
    apply is_expired_true_iff in Hexp as (t & Ht & Hlt).
    by exists e, t.
  - intros p e Hst Hlive. unfold Cache.stored in *.
    rewrite clear_expired_lookup, Hst. cbn.
    rewrite (live_not_expired e now Hlive). by rewrite andb_false_r.
  - intros key. apply cache_path_is_cache_file.
  - done.
  - intros p Hp. by rewrite clear_lookup, Hp.
  - intros key now'.
    pose proof (Hgone _ (cache_path_is_cache_file self key)) as Hnf.
    by rewrite get_without_file, exists_without_file.
Qed.

End CacheClearing.

(** * Worked examples *)

(** Closed statements about the order of the rationals are decided by
    computation. *)
Ltac decide_closed := apply (bool_decide_unpack _); by vm_compute.

Section WorkedExamples.
#[local] Existing Instance Cache.sha256_of_examples.
#[local] Existing Instance Cache.float_sum_of_examples.
#[local] Existing Instance Base.example_pydantic.

(** The write of ["k"] succeeds and leaves the entry in its file, below the
    shard [82]. *)
Lemma returned_true_disk (o : outcome (bool * Cache.filesystem))
    (fs : Cache.filesystem) :
  Cache.returned_true o = true → o = Returns (true, Cache.disk_after o fs).
Proof. by destruct o as [[[] fs']|]. Defined.

Lemma set_k_succeeds :
  Cache.set Cache.example_cache (Cache.at_second 100) "k" Cache.example_value
    (Some 10%Z) ∅
  = Returns (true, Cache.disk_with_k).
Proof. apply returned_true_disk. by vm_compute. Defined.

(** The deadline of that write: the sum of 100 and 10. *)
Lemma deadline_of_k :
  Cache.float_add_int (Cache.at_second 100) 10
  = Returns (Some (Cache.at_second 110)).
Proof.
  change (Returns (Some (Cache.at_second 100 + Cache.seconds 10)%Qp)
          = Returns (Some (Cache.at_second 110))).
  do 2 f_equal. decide_closed.
Defined.

Lemma k_is_stored :
  Cache.stored Cache.disk_with_k
    (Cache._get_cache_path Cache.example_cache "k") Cache.entry_of_k.
Proof. by vm_compute. Defined.

Example path_of_k :
  Cache._get_cache_path Cache.example_cache "k"
  = ["data"; "cache"; "82"; "8254c329a92850f6d539dd376f4816ee.json"].
Proof. by vm_compute. Qed.



(** The scenario of the specification: [set("k", {"v": 1}, ttl=1)], an
    immediate [get] returns the value; a second and a half later [get]
    returns [None] and [exists] is false. *)
Example ttl_scenario :
  (Cache.get Cache.example_cache (Cache.at_second 100) "k"
     (Cache.disk_after
        (Cache.set Cache.example_cache (Cache.at_second 100) "k"
           Cache.example_value (Some 1%Z) ∅) ∅)).1
  = Cache.example_value ∧
  (Cache.get Cache.example_cache (pos_to_Qp 203 / 2)%Qp "k"
     (Cache.get Cache.example_cache (Cache.at_second 100) "k"
        (Cache.disk_after
           (Cache.set Cache.example_cache (Cache.at_second 100) "k"
              Cache.example_value (Some 1%Z) ∅) ∅)).2).1
  = PNone ∧
  (Cache.exists_ Cache.example_cache (pos_to_Qp 203 / 2)%Qp "k"
     (Cache.get Cache.example_cache (pos_to_Qp 203 / 2)%Qp "k"
        (Cache.get Cache.example_cache (Cache.at_second 100) "k"
           (Cache.disk_after
              (Cache.set Cache.example_cache (Cache.at_second 100) "k"
                 Cache.example_value (Some 1%Z) ∅) ∅)).2).2).1
  = false.
Proof. repeat split; by vm_compute. Qed.

(** The default ttl is what [set] uses when none is given, as in the test
    [test_set_and_get]. *)
Example set_without_ttl :
  Cache.stored
    (Cache.disk_after
       (Cache.set Cache.example_cache (Cache.at_second 100) "k"
          Cache.example_value None ∅) ∅)
    (Cache._get_cache_path Cache.example_cache "k")
    (Cache.mkEntry "k" Cache.example_value (Cache.at_second 100)
       (Some (Cache.at_second 100 + Cache.seconds 3600)%Qp) 0).
Proof. by vm_compute. Qed.

Lemma get_purges_stale_and_counts_hits_witness :
  Cache.enabled Cache.example_cache = true ∧
  Cache.stored Cache.disk_with_k
    (Cache._get_cache_path Cache.example_cache "k") Cache.entry_of_k ∧
  (Cache.get Cache.example_cache (Cache.at_second 111) "k"
     Cache.disk_with_k).1 = PNone ∧
  (Cache.exists_ Cache.example_cache (Cache.at_second 111) "k"
     (Cache.get Cache.example_cache (Cache.at_second 111) "k"
        Cache.disk_with_k).2).1 = false ∧
  (Cache.get Cache.example_cache (Cache.at_second 105) "k"
     Cache.disk_with_k).1
  = Cache.example_value ∧
  Cache.stored
    (Cache.get Cache.example_cache (Cache.at_second 105) "k"
       Cache.disk_with_k).2
    (Cache._get_cache_path Cache.example_cache "k")
    (Cache.mkEntry "k" Cache.example_value (Cache.at_second 100)
       (Some (Cache.at_second 100 + Cache.seconds 10)%Qp) 1).
Proof.
  split; [reflexivity |]. split; [apply k_is_stored |].
  pose proof (get_purges_stale_and_counts_hits Cache.example_cache
                (Cache.at_second 111) "k" Cache.disk_with_k Cache.entry_of_k
                eq_refl k_is_stored) as [Hstale _].
  pose proof (get_purges_stale_and_counts_hits Cache.example_cache
                (Cache.at_second 105) "k" Cache.disk_with_k Cache.entry_of_k
                eq_refl k_is_stored) as [_ Hlive].
  destruct (Hstale (Cache.at_second 100 + Cache.seconds 10)%Qp eq_refl)
    as (Hnone & _ & _ & Hex); [decide_closed |].
  destruct Hlive as (Hval & Hst & _).
  { intros t [= <-]. decide_closed. }
  split; [exact Hnone |]. split; [by rewrite Hex |].
  split; [exact Hval | exact Hst].
Defined.

(** At time 200 the entry of ["old"] (deadline 110) is cleared and the one
    of ["fresh"] (deadline 1150) stays; [clear] then leaves nothing to
    read. *)
Lemma clear_expired_removes_exactly_stale_witness :
  (Cache.clear_expired Cache.example_cache (Cache.at_second 200)
     Cache.disk_with_old_and_fresh).2
    !! Cache._get_cache_path Cache.example_cache "old" = None ∧
  Cache.stored
    (Cache.clear_expired Cache.example_cache (Cache.at_second 200)
       Cache.disk_with_old_and_fresh).2
    (Cache._get_cache_path Cache.example_cache "fresh")
    (Cache.mkEntry "fresh" (PStr "b") (Cache.at_second 150)
       (Some (Cache.at_second 150 + Cache.seconds 1000)%Qp) 0) ∧
  (Cache.get Cache.example_cache (Cache.at_second 200) "fresh"
     (Cache.clear Cache.example_cache Cache.disk_with_old_and_fresh).2).1
  = PNone.
Proof.
  destruct (clear_expired_removes_exactly_stale Cache.example_cache
              (Cache.at_second 200) Cache.disk_with_old_and_fresh)
    as (Hrm & _ & Hkeep & _ & _ & _ & Hclear).
  split; [|split].
  - apply (Hrm _ (Cache.mkEntry "old" (PStr "a") (Cache.at_second 100)
                    (Some (Cache.at_second 100 + Cache.seconds 10)%Qp) 0)
             (Cache.at_second 100 + Cache.seconds 10)%Qp);
      [by vm_compute | by vm_compute | reflexivity | decide_closed].
  - apply Hkeep; [by vm_compute |]. intros t [= <-]. decide_closed.
  - apply Hclear.
Defined.

(** With the default of 3600 seconds, [ttl=0] gives the deadline 3700 to an
    entry written at 100; a negative ttl gives none. *)
Lemma set_zero_ttl_takes_default_witness :
  Cache.set Cache.example_cache (Cache.at_second 100) "k" Cache.example_value
    (Some 0%Z) ∅
  = Cache.set Cache.example_cache (Cache.at_second 100) "k"
      Cache.example_value None ∅ ∧
  (Cache.get Cache.example_cache (Cache.at_second 3700) "k"
     (Cache.disk_after
        (Cache.set Cache.example_cache (Cache.at_second 100) "k"
           Cache.example_value (Some 0%Z) ∅) ∅)).1
  = Cache.example_value ∧
  (Cache.get Cache.example_cache (Cache.at_second 3701) "k"
     (Cache.disk_after
        (Cache.set Cache.example_cache (Cache.at_second 100) "k"
           Cache.example_value (Some 0%Z) ∅) ∅)).1
  = PNone ∧
  (Cache.get Cache.example_cache (Cache.at_second 1000000000) "k"
     (Cache.disk_after
        (Cache.set Cache.example_cache (Cache.at_second 100) "k"
           Cache.example_value (Some (-1)%Z) ∅) ∅)).1
  = Cache.example_value.
Proof.
  destruct (set_zero_ttl_takes_default Cache.example_cache
              (Cache.at_second 100) "k" Cache.example_value ∅)
    as (Hnone & _ & Hzero & _ & Hneg).
  split; [exact Hnone |].
  assert (Hpos : (0 < Cache.default_ttl Cache.example_cache)%Z)
    by reflexivity.
  assert (Hminus : (-1 < 0)%Z) by reflexivity.
  assert (Hsum : Cache.float_add_int (Cache.at_second 100) 3600
                 = Returns (Some (Cache.at_second 3700))).
  { change (Returns (Some (Cache.at_second 100 + Cache.seconds 3600)%Qp)
            = Returns (Some (Cache.at_second 3700))).
    do 2 f_equal. decide_closed. }
  destruct (Hzero (Cache.disk_after
                     (Cache.set Cache.example_cache (Cache.at_second 100) "k"
                        Cache.example_value (Some 0%Z) ∅) ∅) Hpos)
    as (deadline & Hsum' & _ & Hcases).
  { apply returned_true_disk. by vm_compute. }
  change (Cache.default_ttl Cache.example_cache) with 3600%Z in Hsum'.
  rewrite Hsum in Hsum'. injection Hsum' as <-.
  destruct Hcases as (_ & Hlive & Hdead).
  destruct (Hneg (-1)%Z
              (Cache.disk_after
                 (Cache.set Cache.example_cache (Cache.at_second 100) "k"
                    Cache.example_value (Some (-1)%Z) ∅) ∅) Hminus)
    as (_ & Hever).
  { apply returned_true_disk. by vm_compute. }
  split; [apply Hlive; decide_closed |].
  split; [apply Hdead; decide_closed |].
  apply Hever.
Defined.

(** With [default_ttl=0], [set] with [ttl=0] creates an entry that never
    expires. *)
Lemma set_zero_ttl_zero_default_never_expires :
  Cache.set Cache.cache_without_default (Cache.at_second 100) "k"
    Cache.example_value (Some 0%Z) ∅
  = Returns (true, Cache.disk_with_immortal_k) ∧
  Cache.stored Cache.disk_with_immortal_k
    (Cache._get_cache_path Cache.cache_without_default "k")
    (Cache.mkEntry "k" Cache.example_value (Cache.at_second 100) None 0) ∧
  (Cache.get Cache.cache_without_default (Cache.at_second 1000000000) "k"
     Cache.disk_with_immortal_k).1
  = Cache.example_value ∧
  Cache.example_value ≠ PNone.
Proof.
  split; [apply returned_true_disk; by vm_compute |].
  repeat split; by vm_compute.
Qed.

Example layout_of_k :
  String.length (Cache._get_key_hash "k") = 32 ∧
  last (Cache._get_cache_path Cache.example_cache "k")
  = Some "8254c329a92850f6d539dd376f4816ee.json" ∧
  Cache.parent (Cache._get_cache_path Cache.example_cache "k")
  = ["data"; "cache"; "82"].
Proof. repeat split; by vm_compute. Qed.



Lemma seguranca_in_capitals : same_ignoring_case "SEGURANÇA" "segurança".
Proof.
  repeat first
    [ apply sic_capital; [by (split; [vm_compute; lia | reflexivity]) |]
    | apply sic_latin1;
        [reflexivity
        | by (split; [vm_compute; lia
                     | split; [vm_compute; lia | reflexivity]])
        |] ].
  constructor.
Defined.

(** Capitals are read as small letters, accented ones included. *)
Lemma detect_intent_by_keywords_witness :
  "FAVOR REVISAR O PARSER" = "FAVOR " +:+ "REVISAR" +:+ " O PARSER" ∧
  Coordinator.REVIEW ∈ Coordinator.detect_intent "FAVOR REVISAR O PARSER" ∧
  "segurança" ∈ Coordinator.keywords_of Coordinator.SECURITY_SCAN ∧
  "VER A SEGURANÇA" = "VER A " +:+ "SEGURANÇA" +:+ "" ∧
  Coordinator.SECURITY_SCAN
    ∈ Coordinator.scan_intents Coordinator.INTENT_KEYWORDS
        (lower "VER A SEGURANÇA").
Proof.
  assert (Hkw : "segurança"
                  ∈ Coordinator.keywords_of Coordinator.SECURITY_SCAN)
    by decide_closed.
  split; [reflexivity |]. split.
  - destruct (detect_intent_by_keywords "FAVOR REVISAR O PARSER")
      as (_ & _ & _ & Hrev & _).
    apply (Hrev "FAVOR " " O PARSER" eq_refl).
  - split; [exact Hkw |]. split; [reflexivity |].
    destruct (detect_intent_by_keywords "VER A SEGURANÇA") as (Hscan & _).
    apply (proj2 (Hscan Coordinator.SECURITY_SCAN)).
    exists "segurança", "VER A ", "SEGURANÇA", "".
    split; [exact Hkw |]. split; [reflexivity | exact seguranca_in_capitals].
Defined.

(** The word of the search in capitals, in a content with accented
    capitals. *)
Example recommendations_in_capitals :
  Coordinator.recommendations
    (Coordinator._consolidate_results
       [("code_reviewer",
         Coordinator.mkResult (Some true)
           (Some "SUGESTÃO: EXTRAIR A FUNÇÃO") (Some []))]
       [Coordinator.CODE_REVIEWER])
  = ["Verifique as recomendações detalhadas no relatório"].
Proof. by vm_compute. Qed.

(** Nothing is registered: the selection is empty and [process] reports
    it. *)
Lemma select_copilots_registered_union_witness :
  Coordinator.choose_copilots ∅ (Coordinator.mkRequest "bom dia" [] None None)
  = [] ∧
  Coordinator.resp_success
    (Coordinator.process ∅ (Coordinator.mkRequest "bom dia" [] None None))
  = false ∧
  Coordinator.copilots_used
    (Coordinator.process ∅ (Coordinator.mkRequest "bom dia" [] None None))
  = [].
Proof.
  assert (Hnil : Coordinator.choose_copilots ∅
                   (Coordinator.mkRequest "bom dia" [] None None) = [])
    by (by vm_compute).
  split; [exact Hnil |].
  destruct (select_copilots_registered_union ∅ []) as (_ & _ & Hempty & _).
  destruct (Hempty _ Hnil) as (Hs & _ & Hu).
  split; [exact Hs | exact Hu].
Defined.

(** With the reviewer registered, a full analysis selects the reviewer
    alone: the security and architecture copilots are not registered. *)
Example select_copilots_full_analysis :
  Coordinator.select_copilots Coordinator.example_registry
    [Coordinator.FULL_ANALYSIS]
  = [Coordinator.CODE_REVIEWER].
Proof. by vm_compute. Qed.

(** Only the code reviewer is registered, and the request prefers the
    security and testing copilots. *)
Lemma process_preferred_unregistered_witness :
  (∀ c, c ∈ [Coordinator.SECURITY; Coordinator.TESTING] →
        Coordinator.example_registry !! c = None) ∧
  Coordinator.process Coordinator.example_registry
    (Coordinator.mkRequest "audit" [] None
       (Some [Coordinator.SECURITY; Coordinator.TESTING]))
  = Coordinator.mkResponse true ("## Resumo da Análise" +:+ nl +:+ nl) [] []
      ["security"; "testing"].
Proof.
  assert (Hnone : ∀ c, c ∈ [Coordinator.SECURITY; Coordinator.TESTING] →
                       Coordinator.example_registry !! c = None).
  { intros c Hc. apply elem_of_cons in Hc as [->|Hc]; [reflexivity |].
    apply elem_of_cons in Hc as [->|Hc]; [reflexivity |].
    by apply not_elem_of_nil in Hc. }
  split; [exact Hnone |].
  apply (process_preferred_unregistered Coordinator.example_registry
           (Coordinator.mkRequest "audit" [] None
              (Some [Coordinator.SECURITY; Coordinator.TESTING]))
           Coordinator.SECURITY [Coordinator.TESTING] eq_refl Hnone).
Defined.

(** The registered reviewer answers with a recommendation. *)
Example process_with_recommendation :
  Coordinator.recommendations
    (Coordinator.process Coordinator.example_registry
       (Coordinator.mkRequest "Por favor, revisar este módulo" [] None None))
  = [Coordinator.recommendation_text].
Proof. by vm_compute. Qed.

End WorkedExamples.

(** * Further properties of the disk cache *)

Section CacheFurther.
Context `{Cache.Hashlib}.

Implicit Types (self : Cache.t) (fs : Cache.filesystem) (e : Cache.CacheEntry).

(** The answer of [get] is decided by what the file of the key holds. *)
Lemma get_corrupted self (now : Qp) (key : string) fs (text : string) :
  fs !! Cache._get_cache_path self key
    = Some (Cache.NFile (Cache.OtherText text)) →
  Cache.get self now key fs = (PNone, fs).
Proof.
  intros Hp. unfold Cache.get. destruct (negb (Cache.enabled self)); [done |].
  destruct (negb (Cache.path_exists fs _)); [done |].
  unfold Cache.read_text. by rewrite Hp.
Qed.

Lemma exists_corrupted self (now : Qp) (key : string) fs (text : string) :
  fs !! Cache._get_cache_path self key
    = Some (Cache.NFile (Cache.OtherText text)) →
  Cache.exists_ self now key fs = (false, fs).
Proof.
  intros Hp. unfold Cache.exists_.
  destruct (negb (Cache.enabled self)); [done |].
  destruct (negb (Cache.path_exists fs _)); [done |].
  unfold Cache.read_text. by rewrite Hp.
Qed.

Lemma get_answer_by_lookup self (now : Qp) (key : string) fs fs' :
  fs !! Cache._get_cache_path self key = fs' !! Cache._get_cache_path self key →
  (Cache.get self now key fs).1 = (Cache.get self now key fs').1.
Proof.
  intros Heq. destruct (Cache.enabled self) eqn:Hen;
    [|by rewrite !get_disabled].
  destruct (fs !! Cache._get_cache_path self key) as [[|[e|other]]|] eqn:Hp.
  - rewrite !get_without_file; [done | |]; unfold Cache.is_file;
      by rewrite <- ?Heq, ?Hp.
  - destruct (Cache.is_expired e now) eqn:Hexp.
    + by rewrite (get_stale self now key fs e), (get_stale self now key fs' e).
    + by rewrite (get_hit self now key fs e), (get_hit self now key fs' e).
  - by rewrite (get_corrupted self now key fs other),
      (get_corrupted self now key fs' other).
  - rewrite !get_without_file; [done | |]; unfold Cache.is_file;
      by rewrite <- ?Heq, ?Hp.
Qed.

(** X1. [delete] answers whether a file was there to unlink, touches no
    other path, and whatever it answers the key is gone afterwards: there is
    no file at its path, [exists] is false and [get] misses, at every time
    and without changing the disk again.  It does not look at [enabled]. *)
Theorem delete_then_missing self (key : string) fs :
  (Cache.delete self key fs).1
  = Cache.is_file fs (Cache._get_cache_path self key) ∧
  (∀ p, p ≠ Cache._get_cache_path self key →
        (Cache.delete self key fs).2 !! p = fs !! p) ∧
  Cache.is_file (Cache.delete self key fs).2 (Cache._get_cache_path self key)
  = false ∧
  (∀ now, Cache.exists_ self now key (Cache.delete self key fs).2
          = (false, (Cache.delete self key fs).2)) ∧
  (∀ now, Cache.get self now key (Cache.delete self key fs).2
          = (PNone, (Cache.delete self key fs).2)) ∧
  (Cache.is_file fs (Cache._get_cache_path self key) = false →
   Cache.delete self key fs = (false, fs)).
Proof.
  assert (Hcases :
    (Cache.is_file fs (Cache._get_cache_path self key) = true ∧
     Cache.delete self key fs
     = (true, base.delete (Cache._get_cache_path self key) fs)) ∨
    (Cache.is_file fs (Cache._get_cache_path self key) = false ∧
     Cache.delete self key fs = (false, fs))).
  { unfold Cache.delete, Cache.is_file, Cache.path_exists, Cache.unlink.
    destruct (fs !! Cache._get_cache_path self key) as [[|text]|] eqn:Hp.
    - by right.
    - by left.
    - right. split; [done |]. by destruct (Cache.has_descendant fs _). }
  assert (Hgone : Cache.is_file (Cache.delete self key fs).2
                    (Cache._get_cache_path self key) = false).
  { destruct Hcases as [[_ ->]|[Hnf ->]]; [apply is_file_after_delete | done]. }
  split; [|split; [|split; [|split; [|split]]]].
  - by destruct Hcases as [[-> ->]|[-> ->]].
  - intros p Hp. destruct Hcases as [[_ ->]|[_ ->]]; [|done].
    by apply lookup_delete_ne.
  - done.
  - intros now. by apply exists_without_file.
  - intros now. by apply get_without_file.
  - intros Hnf. by destruct Hcases as [[Hf _]|[_ ->]]; [congruence |].
Qed.

(** X2. [exists] is true exactly when the cache is enabled and the file of
    the key holds an entry that has not expired; in that case it leaves the
    disk as it is (no hit is counted) and [get] at the same time returns the
    value of that entry.  On an expired entry it answers false and unlinks
    the file, as [get] does. *)
Theorem exists_iff_live_entry self (now : Qp) (key : string) fs :
  ((Cache.exists_ self now key fs).1 = true ↔
   Cache.enabled self = true ∧
   ∃ e, Cache.stored fs (Cache._get_cache_path self key) e ∧
        Cache.live_at now e) ∧
  ((Cache.exists_ self now key fs).1 = true →
   (Cache.exists_ self now key fs).2 = fs ∧
   ∃ e, Cache.stored fs (Cache._get_cache_path self key) e ∧
        (Cache.get self now key fs).1 = Cache.value e) ∧
  (∀ e, Cache.enabled self = true →
        Cache.stored fs (Cache._get_cache_path self key) e →
        Cache.expired_at now e →
        Cache.exists_ self now key fs
        = (false, base.delete (Cache._get_cache_path self key) fs) ∧
        (Cache.exists_ self now key fs).2 = (Cache.get self now key fs).2).
Proof.
  assert (Hlive : ∀ e, Cache.enabled self = true →
            Cache.stored fs (Cache._get_cache_path self key) e →
            Cache.is_expired e now = false →
            Cache.exists_ self now key fs = (true, fs)).
  { intros e Hen Hst Hexp. unfold Cache.stored in Hst. unfold Cache.exists_.
    rewrite Hen. cbn [negb]. unfold Cache.path_exists, Cache.read_text.
    rewrite Hst. cbn. by rewrite Hexp. }
  assert (Hstale : ∀ e, Cache.enabled self = true →
            Cache.stored fs (Cache._get_cache_path self key) e →
            Cache.is_expired e now = true →
            Cache.exists_ self now key fs
            = (false, base.delete (Cache._get_cache_path self key) fs)).
  { intros e Hen Hst Hexp. unfold Cache.stored in Hst. unfold Cache.exists_.
    rewrite Hen. cbn [negb]. unfold Cache.path_exists, Cache.read_text.
    rewrite Hst. cbn. rewrite Hexp.
    unfold Cache.delete, Cache.path_exists, Cache.unlink. by rewrite Hst. }
  assert (Htrue : (Cache.exists_ self now key fs).1 = true →
            Cache.enabled self = true ∧
            ∃ e, Cache.stored fs (Cache._get_cache_path self key) e ∧
                 Cache.is_expired e now = false).
  { destruct (Cache.enabled self) eqn:Hen.
    - destruct (fs !! Cache._get_cache_path self key)
        as [[|[e|other]]|] eqn:Hp.
      + rewrite exists_without_file; [done |].
        unfold Cache.is_file. by rewrite Hp.
      + destruct (Cache.is_expired e now) eqn:Hexp.
        * by rewrite (Hstale e).
        * intros _. split; [done |]. by exists e.
      + by rewrite (exists_corrupted self now key fs other).
      + rewrite exists_without_file; [done |].
        unfold Cache.is_file. by rewrite Hp.
    - unfold Cache.exists_. by rewrite Hen. }
  split; [|split].
  - split.
    + intros Hex. destruct (Htrue Hex) as (Hen & e & Hst & Hexp).
      split; [done |]. exists e. split; [done |].
      destruct (expired_or_live e now) as [[Hx _]|[Hl _]]; [|done].
      apply is_expired_true_iff in Hx. congruence.
    + intros (Hen & e & Hst & Hl).
      by rewrite (Hlive e Hen Hst (live_not_expired e now Hl)).
  - intros Hex. destruct (Htrue Hex) as (Hen & e & Hst & Hexp).
    rewrite (Hlive e Hen Hst Hexp). split; [done |].
    exists e. split; [done |]. by rewrite (get_hit self now key fs e).
  - intros e Hen Hst Hx. apply is_expired_true_iff in Hx.
    rewrite (Hstale e Hen Hst Hx). split; [done |].
    by rewrite (get_stale self now key fs e).
Qed.

(** X3. A file that does not parse as an entry is a miss that stays: [get]
    answers [None] and [exists] false at every time, neither removes nor
    repairs the file, [clear_expired] keeps it, and only [clear] (when the
    file is one it visits) or [delete] takes it away. *)
Theorem corrupted_file_is_a_lasting_miss self (key : string) fs
    (text : string) :
  fs !! Cache._get_cache_path self key
    = Some (Cache.NFile (Cache.OtherText text)) →
  (∀ now, Cache.get self now key fs = (PNone, fs)) ∧
  (∀ now, Cache.exists_ self now key fs = (false, fs)) ∧
  (∀ now, (Cache.clear_expired self now fs).2
            !! Cache._get_cache_path self key
          = Some (Cache.NFile (Cache.OtherText text))) ∧
  (Cache.clear self fs).2 !! Cache._get_cache_path self key = None ∧
  Cache.delete self key fs
  = (true, base.delete (Cache._get_cache_path self key) fs).
Proof.
  intros Hp. split; [|split; [|split; [|split]]].
  - intros now. by apply (get_corrupted self now key fs text).
  - intros now. by apply (exists_corrupted self now key fs text).
  - intros now. rewrite clear_expired_lookup, Hp. cbn.
    by rewrite andb_false_r.
  - by rewrite clear_lookup, cache_path_is_cache_file, Hp.
  - unfold Cache.delete, Cache.path_exists, Cache.unlink. by rewrite Hp.
Qed.

End CacheFurther.

(** ** Writes: what they replace and what they leave alone *)

Section CacheWrites.
Context `{Cache.Hashlib} `{Cache.FloatSum}.

Implicit Types (self : Cache.t) (fs : Cache.filesystem) (e : Cache.CacheEntry).

Lemma mkdir_lookup (dirs : list (list string)) fs (q : list string) :
  foldr (λ d acc, <[d := Cache.NDir]> acc) fs dirs !! q
  = if bool_decide (q ∈ dirs) then Some Cache.NDir else fs !! q.
Proof.
  induction dirs as [|d dirs IH]; simpl; [done |].
  destruct (decide (d = q)) as [->|Hne].
  - rewrite lookup_insert_eq. by rewrite bool_decide_eq_true_2 by left.
  - rewrite lookup_insert_ne, IH by done.
    apply (f_equal (λ b : bool, if b then _ else _)).
    apply bool_decide_ext. rewrite elem_of_cons.
    split; [by right | by intros [->|?]].
Qed.

(** The directories above the file of a key are shorter than its path. *)
Lemma cache_path_not_ancestor self (key : string) (q : list string) :
  q `prefix_of` Cache.parent (Cache._get_cache_path self key) →
  length q < length (Cache._get_cache_path self key).
Proof.
  intros Hq%prefix_length. revert Hq.
  unfold Cache.parent, Cache._get_cache_path.
  rewrite removelast_app by done. cbn [removelast].
  rewrite !length_app. cbn [length]. lia.
Qed.

Lemma cache_path_length self (key : string) :
  length (Cache._get_cache_path self key) = length (Cache.cache_dir self) + 2.
Proof. unfold Cache._get_cache_path. by rewrite length_app. Qed.

(** What [set] does to a path other than the file it writes: nothing, or
    the creation of a directory above that file. *)
Lemma set_other_paths self (now : Qp) (key : string) (value : pyval)
    (ttl : option Z) fs (p : list string) :
  p ≠ Cache._get_cache_path self key →
  Cache.disk_after (Cache.set self now key value ttl fs) fs !! p = fs !! p ∨
  (p `prefix_of` Cache.parent (Cache._get_cache_path self key) ∧
   Cache.is_file fs p = false ∧
   Cache.disk_after (Cache.set self now key value ttl fs) fs !! p
   = Some Cache.NDir).
Proof.
  intros Hp. unfold Cache.set.
  destruct (negb (Cache.enabled self)); [by left |].
  destruct (Cache.new_entry _ _ _ _) as [e|]; [|by left]. cbn [mbind outcome_bind].
  unfold Cache.mkdir_parents.
  destruct (existsb (Cache.is_file fs) _) eqn:Hfiles; [by left |].
  assert (Hfs1 :
    foldr (λ d acc, <[d := Cache.NDir]> acc) fs
      (Cache.ancestors_and_self (Cache.parent (Cache._get_cache_path self key)))
      !! p = fs !! p ∨
    (p `prefix_of` Cache.parent (Cache._get_cache_path self key) ∧
     Cache.is_file fs p = false ∧
     foldr (λ d acc, <[d := Cache.NDir]> acc) fs
       (Cache.ancestors_and_self
          (Cache.parent (Cache._get_cache_path self key)))
       !! p = Some Cache.NDir)).
  { rewrite mkdir_lookup. case_bool_decide as Hin; [|by left].
    right. split; [by apply elem_of_ancestors |]. split; [|done].
    destruct (Cache.is_file fs p) eqn:Hf; [|done].
    assert (existsb (Cache.is_file fs)
              (Cache.ancestors_and_self
                 (Cache.parent (Cache._get_cache_path self key))) = true);
      [|congruence].
    apply existsb_exists. exists p. split; [by apply list_elem_of_In | done]. }
  unfold Cache.write_text. destruct (Cache.is_dir _ _); cbn [Cache.disk_after];
    [done |].
  by rewrite lookup_insert_ne.
Qed.

(** X4. A write on one key leaves every other key as it was, whether it
    returns or raises: the file of a key with a different path holds what
    it held, and [get] on that key answers as it would have before the
    write. *)
Theorem set_leaves_other_keys self (now : Qp) (key key' : string)
    (value : pyval) (ttl : option Z) fs :
  Cache._get_cache_path self key' ≠ Cache._get_cache_path self key →
  Cache.disk_after (Cache.set self now key value ttl fs) fs
    !! Cache._get_cache_path self key'
  = fs !! Cache._get_cache_path self key' ∧
  ∀ now',
    (Cache.get self now' key'
       (Cache.disk_after (Cache.set self now key value ttl fs) fs)).1
    = (Cache.get self now' key' fs).1.
Proof.
  intros Hne.
  assert (Hsame :
    Cache.disk_after (Cache.set self now key value ttl fs) fs
      !! Cache._get_cache_path self key'
    = fs !! Cache._get_cache_path self key').
  { destruct (set_other_paths self now key value ttl fs _ Hne)
      as [?|(Hpre & _)]; [done |].
    apply cache_path_not_ancestor in Hpre.
    rewrite !cache_path_length in Hpre. lia. }
  split; [done |]. intros now'. by apply get_answer_by_lookup.
Qed.

(** After a successful write, the directories above the file are
    directories and the file is a file. *)
Lemma set_true_shape self (now : Qp) (key : string) (value : pyval)
    (ttl : option Z) fs fs' :
  Cache.set self now key value ttl fs = Returns (true, fs') →
  (∀ q, q `prefix_of` Cache.parent (Cache._get_cache_path self key) →
        fs' !! q = Some Cache.NDir).
Proof.
  intros Hset q Hq.
  assert (Hne : q ≠ Cache._get_cache_path self key).
  { intros ->. apply cache_path_not_ancestor in Hq. lia. }
  revert Hset. unfold Cache.set.
  destruct (negb (Cache.enabled self)); [done |].
  destruct (Cache.new_entry _ _ _ _) as [e|]; [|done]. cbn [mbind outcome_bind].
  unfold Cache.mkdir_parents.
  destruct (existsb (Cache.is_file fs) _); [done |].
  set (fs1 := foldr _ fs _).
  assert (Hfs1 : fs1 !! q = Some Cache.NDir).
  { subst fs1. rewrite mkdir_lookup.
    by rewrite bool_decide_eq_true_2 by (by apply elem_of_ancestors). }
  clearbody fs1.
  unfold Cache.write_text. destruct (Cache.is_dir _ _); [done |].
  intros [= <-]. by rewrite lookup_insert_ne.
Qed.

(** Where nothing above the file of a key is a file and the file is there,
    [set] writes over it the entry it has built. *)
Lemma set_over_file self (now : Qp) (key : string) (value : pyval)
    (ttl : option Z) fs e :
  Cache.enabled self = true →
  Cache.new_entry now key value (Cache.effective_ttl self ttl) = Returns e →
  (∀ q, q `prefix_of` Cache.parent (Cache._get_cache_path self key) →
        Cache.is_file fs q = false) →
  Cache.is_file fs (Cache._get_cache_path self key) = true →
  ∃ fs', Cache.set self now key value ttl fs = Returns (true, fs') ∧
         Cache.stored fs' (Cache._get_cache_path self key) e.
Proof.
  intros Hen Hnew Hdirs Hfile. unfold Cache.set. rewrite Hen, Hnew.
  cbn [negb mbind outcome_bind]. unfold Cache.mkdir_parents.
  assert (Hmk : existsb (Cache.is_file fs)
                  (Cache.ancestors_and_self
                     (Cache.parent (Cache._get_cache_path self key)))
                = false).
  { destruct (existsb _ _) eqn:Hex; [|done].
    apply existsb_exists in Hex as (q & Hq & Hf).
    apply list_elem_of_In, elem_of_ancestors in Hq.
    by rewrite (Hdirs q Hq) in Hf. }
  rewrite Hmk. set (disk1 := foldr _ fs _).
  assert (Hd : Cache.is_dir disk1 (Cache._get_cache_path self key) = false).
  { unfold Cache.is_dir. subst disk1. rewrite mkdir_lookup.
    rewrite bool_decide_eq_false_2.
    - unfold Cache.is_file in Hfile.
      by destruct (fs !! Cache._get_cache_path self key) as [[|text]|].
    - intros Hin%elem_of_ancestors%cache_path_not_ancestor. lia. }
  clearbody disk1. unfold Cache.write_text. rewrite Hd.
  eexists. split; [done |]. unfold Cache.stored. by rewrite lookup_insert_eq.
Qed.

(** X5. The hit counter counts: after a successful write, [n] reads of the
    key made while the entry is live each return the value, and the file
    then records [hit_count = n] with the value and the stamps of the
    write. *)
Theorem hit_count_counts_reads self (now : Qp) (key : string)
    (value : pyval) (ttl : option Z) (reads : list Qp) fs fs' e :
  Cache.set self now key value ttl fs = Returns (true, fs') →
  Cache.new_entry now key value (Cache.effective_ttl self ttl) = Returns e →
  Forall (λ t, Cache.live_at t e) reads →
  Cache.stored (Cache.after_gets self key reads fs')
    (Cache._get_cache_path self key)
    (Cache.mkEntry key value now (Cache.expires_at e)
       (Z.of_nat (length reads))) ∧
  (∀ t, Cache.live_at t e →
        (Cache.get self t key (Cache.after_gets self key reads fs')).1
        = value).
Proof.
  intros Hset Hnew Hlive. apply set_true in Hset as (Hen & e' & Hnew' & Hst).
  rewrite Hnew in Hnew'. injection Hnew' as <-.
  destruct (after_live_gets self key reads fs' _ Hen Hst Hlive) as [Hst' _].
  apply new_entry_returns in Hnew as [He _].
  rewrite He in Hst' at 1 2 3 5. cbn in Hst'.
  split; [exact Hst' |].
  intros t Ht. rewrite (get_hit self t key _ _ Hen Hst'); [done |].
  by apply live_not_expired.
Qed.

(** X6. Once a write on a key has succeeded, a later write on the same key,
    also after reads of the live entry, succeeds whenever the sum for its
    deadline is computed, and replaces the entry as a whole: the file then
    holds the new value with the stamps of the later write and a hit count
    back at 0.  When that sum raises, the later write raises, and the file
    keeps the earlier entry with its hits. *)
Theorem set_again_replaces self (t1 t2 : Qp) (key : string)
    (v1 v2 : pyval) (ttl1 ttl2 : option Z) (reads : list Qp) fs fs1 e1 :
  Cache.set self t1 key v1 ttl1 fs = Returns (true, fs1) →
  Cache.new_entry t1 key v1 (Cache.effective_ttl self ttl1) = Returns e1 →
  Forall (λ t, Cache.live_at t e1) reads →
  (∀ e2,
     Cache.new_entry t2 key v2 (Cache.effective_ttl self ttl2) = Returns e2 →
     ∃ fs2,
       Cache.set self t2 key v2 ttl2 (Cache.after_gets self key reads fs1)
       = Returns (true, fs2) ∧
       Cache.stored fs2 (Cache._get_cache_path self key) e2 ∧
       e2 = Cache.mkEntry key v2 t2 (Cache.expires_at e2) 0) ∧
  (∀ msg,
     Cache.new_entry t2 key v2 (Cache.effective_ttl self ttl2) = Raises msg →
     Cache.set self t2 key v2 ttl2 (Cache.after_gets self key reads fs1)
     = Raises msg ∧
     Cache.stored (Cache.after_gets self key reads fs1)
       (Cache._get_cache_path self key)
       (Cache.mkEntry key v1 t1 (Cache.expires_at e1)
          (Z.of_nat (length reads)))).
Proof.
  intros Hset Hnew Hlive.
  pose proof (set_true_shape _ _ _ _ _ _ _ Hset) as Hdirs.
  apply set_true in Hset as (Hen & e' & Hnew' & Hst).
  rewrite Hnew in Hnew'. injection Hnew' as <-.
  destruct (after_live_gets self key reads fs1 _ Hen Hst Hlive)
    as [Hst' Hframe].
  split.
  - intros e2 Hnew2.
    destruct (set_over_file self t2 key v2 ttl2
                (Cache.after_gets self key reads fs1) e2 Hen Hnew2)
      as (fs2 & Hset2 & Hst2).
    + intros q Hq. unfold Cache.is_file. rewrite Hframe.
      * by rewrite (Hdirs q Hq).
      * intros ->. apply cache_path_not_ancestor in Hq. lia.
    + unfold Cache.is_file. unfold Cache.stored in Hst'. by rewrite Hst'.
    + exists fs2. split; [done |]. split; [done |].
      by apply new_entry_returns in Hnew2 as [He2 _].
  - intros msg Hnew2. split.
    + apply set_raises_iff. by split.
    + apply new_entry_returns in Hnew as [He _].
      rewrite He in Hst' at 1 2 3 5. exact Hst'.
Qed.

End CacheWrites.

(** ** Clearing: what is counted, and clearing twice *)

Section CacheCounts.
Context `{Cache.Hashlib}.

Implicit Types (self : Cache.t) (fs : Cache.filesystem) (e : Cache.CacheEntry).

(** A loop that unlinks and counts according to a test on what each path
    holds, run over paths that are all different. *)
Lemma purge_loop_count
    (step : Z * Cache.filesystem → list string → Z * Cache.filesystem)
    (test : option Cache.node → bool) :
  (∀ count fs p,
     step (count, fs) p
     = if test (fs !! p) then ((count + 1)%Z, base.delete p fs)
       else (count, fs)) →
  ∀ (l : list (list string)) count fs,
    NoDup l →
    (foldl step (count, fs) l).1
    = (count + Z.of_nat (length (List.filter (λ q, test (fs !! q)) l)))%Z.
Proof.
  intros Hstep l. induction l as [|p l IH]; intros count fs Hnd.
  - cbn. lia.
  - apply NoDup_cons in Hnd as [Hp Hnd]. cbn [foldl List.filter].
    rewrite Hstep. destruct (test (fs !! p)) eqn:Ht.
    + rewrite IH by done. cbn [length].
      rewrite (filter_ext_in (λ q, test (base.delete p fs !! q))
                 (λ q, test (fs !! q))); [lia |].
      intros q Hq. rewrite lookup_delete_ne; [done |].
      intros ->. by apply Hp, list_elem_of_In.
    + by rewrite IH.
Qed.

Lemma clear_step_full (count : Z) fs (p : list string) :
  Cache.clear_step (count, fs) p
  = if Cache.holds_file (fs !! p) then ((count + 1)%Z, base.delete p fs)
    else (count, fs).
Proof.
  unfold Cache.clear_step, Cache.unlink.
  by destruct (fs !! p) as [[|text]|].
Qed.

Lemma clear_expired_step_full (now : Qp) (count : Z) fs (p : list string) :
  Cache.clear_expired_step now (count, fs) p
  = if Cache.holds_stale_entry now (fs !! p)
    then ((count + 1)%Z, base.delete p fs) else (count, fs).
Proof.
  unfold Cache.clear_expired_step, Cache.read_text, Cache.unlink.
  by destruct (fs !! p) as [[|[e|other]]|] eqn:Hp; cbn.
Qed.

Lemma filter_NoDup {A} (f : A → bool) (l : list A) :
  NoDup l → NoDup (List.filter f l).
Proof.
  induction 1 as [|x l Hx Hl IH]; cbn; [constructor |].
  destruct (f x); [|done]. constructor; [|done].
  rewrite list_elem_of_In, filter_In. intros [Hin _].
  by apply Hx, list_elem_of_In.
Qed.

Lemma rglob_json_NoDup fs (d : list string) : NoDup (Cache.rglob_json fs d).
Proof.
  unfold Cache.rglob_json, Cache.all_paths. apply filter_NoDup.
  apply NoDup_remove_dups.
Qed.

Lemma filter_nil_by_test {A} (f : A → bool) (l : list A) :
  (∀ x, x ∈ l → f x = false) → List.filter f l = [].
Proof.
  intros Hall. induction l as [|x l IH]; [done |]. cbn.
  rewrite (Hall x) by left. apply IH. intros y Hy. apply Hall. by right.
Qed.

(** X7. [clear] returns the number of files it has unlinked, which is the
    number of visited paths that held a file; after it no visited path
    holds a file, so that clearing again returns 0 and changes nothing. *)
Theorem clear_counts_and_settles self fs :
  (Cache.clear self fs).1 = Z.of_nat (length (Cache.cache_files self fs)) ∧
  Cache.cache_files self (Cache.clear self fs).2 = [] ∧
  Cache.clear self (Cache.clear self fs).2 = (0%Z, (Cache.clear self fs).2).
Proof.
  assert (Hcount : ∀ disk,
    (Cache.clear self disk).1
    = Z.of_nat (length (Cache.cache_files self disk))).
  { intros disk. unfold Cache.clear, Cache.cache_files.
    destruct (Cache.path_exists disk (Cache.cache_dir self)) eqn:Hex;
      cbn [negb].
    - rewrite (purge_loop_count _ Cache.holds_file clear_step_full);
        [lia | apply rglob_json_NoDup].
    - by rewrite (rglob_json_without_dir _ _ Hex). }
  assert (Hnone : Cache.cache_files self (Cache.clear self fs).2 = []).
  { unfold Cache.cache_files. apply filter_nil_by_test.
    intros q [_ Hq]%rglob_json_elem.
    change (Cache.is_cache_file self q = true) in Hq.
    rewrite clear_lookup, Hq.
    cbn [andb]. by destruct (fs !! q) as [[|text]|]. }
  split; [apply Hcount |]. split; [done |].
  rewrite (surjective_pairing (Cache.clear self (Cache.clear self fs).2)).
  f_equal.
  - by rewrite Hcount, Hnone.
  - apply map_eq. intros q. rewrite (clear_lookup self (Cache.clear self fs).2).
    destruct (Cache.is_cache_file self q) eqn:Hq; [|done]. cbn [andb].
    rewrite clear_lookup, Hq. cbn [andb].
    by destruct (fs !! q) as [[|text]|].
Qed.

Lemma clear_expired_count self (now : Qp) fs :
  (Cache.clear_expired self now fs).1
  = Z.of_nat (length (Cache.stale_files self now fs)).
Proof.
  unfold Cache.clear_expired, Cache.stale_files.
  destruct (Cache.path_exists fs (Cache.cache_dir self)) eqn:Hex; cbn [negb].
  - rewrite (purge_loop_count _ (Cache.holds_stale_entry now)
               (clear_expired_step_full now));
      [lia | apply rglob_json_NoDup].
  - by rewrite (rglob_json_without_dir _ _ Hex).
Qed.

(** X8. [clear_expired] returns the number of visited entries that had
    expired, all of which it has unlinked; clearing again at the same time
    returns 0 and changes nothing; and it never changes what [get] answers
    at that time: the entries it removes are those that [get] would have
    refused and removed itself. *)
Theorem clear_expired_counts_and_settles self (now : Qp) fs :
  (Cache.clear_expired self now fs).1
  = Z.of_nat (length (Cache.stale_files self now fs)) ∧
  Cache.stale_files self now (Cache.clear_expired self now fs).2 = [] ∧
  Cache.clear_expired self now (Cache.clear_expired self now fs).2
  = (0%Z, (Cache.clear_expired self now fs).2) ∧
  (∀ key, (Cache.get self now key (Cache.clear_expired self now fs).2).1
          = (Cache.get self now key fs).1).
Proof.
  pose proof (clear_expired_count self now) as Hcount.
  assert (Hkept : ∀ q, Cache.is_cache_file self q = true →
    Cache.holds_stale_entry now ((Cache.clear_expired self now fs).2 !! q)
    = false).
  { intros q Hq. rewrite clear_expired_lookup, Hq. cbn [andb].
    by destruct (Cache.holds_stale_entry now (fs !! q)) eqn:Hs. }
  assert (Hnone :
    Cache.stale_files self now (Cache.clear_expired self now fs).2 = []).
  { unfold Cache.stale_files. apply filter_nil_by_test.
    intros q [_ Hq]%rglob_json_elem. by apply Hkept. }
  split; [apply Hcount |]. split; [done |]. split.
  - rewrite (surjective_pairing
               (Cache.clear_expired self now (Cache.clear_expired self now fs).2)).
    f_equal.
    + by rewrite Hcount, Hnone.
    + apply map_eq. intros q.
      rewrite (clear_expired_lookup self now (Cache.clear_expired self now fs).2).
      destruct (Cache.is_cache_file self q) eqn:Hq; [|done]. cbn [andb].
      by rewrite Hkept.
  - intros key.
    pose proof (clear_expired_lookup self now fs
                  (Cache._get_cache_path self key)) as Hl.
    rewrite cache_path_is_cache_file in Hl. cbn [andb] in Hl.
    destruct (Cache.holds_stale_entry now
                (fs !! Cache._get_cache_path self key)) eqn:Hs.
    + destruct (fs !! Cache._get_cache_path self key)
        as [[|[e|other]]|] eqn:Hp; try done.
      cbn in Hs. rewrite get_without_file
        by (unfold Cache.is_file; by rewrite Hl).
      destruct (Cache.enabled self) eqn:Hen.
      * by rewrite (get_stale self now key fs e).
      * by rewrite get_disabled.
    + by apply get_answer_by_lookup.
Qed.

End CacheCounts.

(** * Further properties of the coordinator *)

Section DictFacts.
Context {K V : Type} `{EqDecision K}.

Implicit Types (d : list (K * V)) (k : K) (v : V).

Lemma dict_get_set d k v k' :
  dict_get (dict_set d k v) k' = if decide (k = k') then Some v
                                 else dict_get d k'.
Proof.
  induction d as [|[k0 v0] d IH]; cbn.
  - by repeat case_decide.
  - destruct (decide (k0 = k)) as [->|Hne]; cbn.
    + by repeat case_decide.
    + rewrite IH. repeat case_decide; congruence.
Qed.

Lemma dict_get_None d k : dict_get d k = None ↔ k ∉ map fst d.
Proof.
  induction d as [|[k0 v0] d IH]; cbn.
  - split; [intros _; apply not_elem_of_nil | done].
  - rewrite not_elem_of_cons. case_decide as Hk.
    + split; [done | by intros [? _]].
    + rewrite IH. split; [done | by intros [_ ?]].
Qed.

Lemma dict_set_fresh d k v :
  k ∉ map fst d → dict_set d k v = d ++ [(k, v)].
Proof.
  induction d as [|[k0 v0] d IH]; cbn; [done |].
  rewrite not_elem_of_cons. intros [Hne Hk].
  case_decide; [congruence |]. by rewrite IH.
Qed.

Lemma dict_set_keys d k v :
  map fst (dict_set d k v)
  = if decide (k ∈ map fst d) then map fst d else map fst d ++ [k].
Proof.
  induction d as [|[k0 v0] d IH]; cbn.
  - case_decide as Hin; [|done]. by apply not_elem_of_nil in Hin.
  - destruct (decide (k0 = k)) as [->|Hne]; cbn.
    + clear IH. case_decide as Hin; [done |]. destruct Hin. left.
    + rewrite IH. clear IH.
      destruct (decide (k ∈ map fst d)) as [Hin|Hin];
        destruct (decide (k ∈ k0 :: map fst d)) as [Hin'|Hin']; try done.
      * destruct Hin'. by right.
      * apply elem_of_cons in Hin' as [->|?]; done.
Qed.

Lemma dict_get_elem d k v :
  NoDup (map fst d) → dict_get d k = Some v ↔ (k, v) ∈ d.
Proof.
  induction d as [|[k0 v0] d IH]; cbn.
  - intros _. split; [done | by intros ?%elem_of_nil].
  - intros [Hk0 Hnd]%NoDup_cons. rewrite elem_of_cons.
    case_decide as Hk; [subst k0 |].
    + split; [intros [= ->]; by left |].
      intros [[= ->]|Hin]; [done |].
      destruct Hk0. apply list_elem_of_fmap. by exists (k, v).
    + rewrite IH by done. split; [by right |].
      intros [[= -> ->]|?]; done.
Qed.

End DictFacts.

Section Processing.
Import Coordinator.

Implicit Types (copilots : gmap CopilotType Copilot).

Lemma CopilotType_value_inj : Inj (=) (=) CopilotType_value.
Proof. by intros [] [] [=]. Qed.

Lemma run_copilot_registered copilots (request : CoordinatorRequest)
    (results : list (string * result_dict)) (ct : CopilotType) (c : Copilot) :
  copilots !! ct = Some c →
  run_copilot copilots request results ct
  = dict_set results (CopilotType_value ct) (result_of c request).
Proof.
  intros Hc. unfold run_copilot, result_of. rewrite Hc.
  by destruct (copilot_process c (build_context request)).
Qed.

(** The [results] dict when the loop of [process] ends, key by key. *)
Lemma run_copilots_get copilots (request : CoordinatorRequest)
    (copilot_types : list CopilotType) (results : list (string * result_dict)) :
  (∀ ct c, ct ∈ copilot_types → copilots !! ct = Some c →
     dict_get (foldl (run_copilot copilots request) results copilot_types)
              (CopilotType_value ct)
     = Some (result_of c request)) ∧
  (∀ name,
     (∀ ct, ct ∈ copilot_types → is_Some (copilots !! ct) →
            CopilotType_value ct ≠ name) →
     dict_get (foldl (run_copilot copilots request) results copilot_types) name
     = dict_get results name).
Proof.
  revert results.
  induction copilot_types as [|ct0 cts IH]; intros results; cbn [foldl].
  { split; [by intros ct c ?%elem_of_nil | done]. }
  destruct (IH (run_copilot copilots request results ct0)) as [IHi IHii].
  split.
  - intros ct c Hin Hc. destruct (decide (ct ∈ cts)) as [?|Hnot].
    { by apply IHi. }
    apply elem_of_cons in Hin as [->|?]; [|done].
    rewrite IHii.
    + rewrite (run_copilot_registered _ _ _ _ c Hc), dict_get_set.
      by case_decide.
    + intros ct' Hct' _ Heq. apply CopilotType_value_inj in Heq. by subst.
  - intros name Hname. rewrite IHii.
    + unfold run_copilot. destruct (copilots !! ct0) as [c|] eqn:Hc; [|done].
      assert (CopilotType_value ct0 ≠ name) as Hne.
      { apply Hname; [left | by rewrite Hc]. }
      destruct (copilot_process c (build_context request));
        rewrite dict_get_set; by case_decide.
    + intros ct' Hct'. apply Hname. by right.
Qed.

Lemma run_copilots_NoDup copilots (request : CoordinatorRequest)
    (copilot_types : list CopilotType) (results : list (string * result_dict)) :
  NoDup (map fst results) →
  NoDup (map fst (foldl (run_copilot copilots request) results copilot_types)).
Proof.
  revert results.
  induction copilot_types as [|ct0 cts IH]; intros results Hnd; [done |].
  cbn [foldl]. apply IH. unfold run_copilot.
  destruct (copilots !! ct0) as [c|]; [|done].
  destruct (copilot_process c (build_context request));
    rewrite dict_set_keys; (case_decide as Hin; [done |]);
    (apply NoDup_app; split; [done |]);
    (split; [by intros k Hk ->%list_elem_of_singleton
            | apply NoDup_singleton]).
Qed.

Lemma forallb_dict_values {V} (P : V → bool) (d : list (string * V)) :
  NoDup (map fst d) →
  forallb P (dict_values d) = true
  ↔ ∀ k v, dict_get d k = Some v → P v = true.
Proof.
  intros Hnd. unfold dict_values. rewrite forallb_forall. split.
  - intros Hall k v Hk. apply Hall, in_map_iff. exists (k, v).
    split; [done |]. by apply list_elem_of_In, dict_get_elem.
  - intros Hall v [[k v'] [<- Hin]]%in_map_iff.
    apply (Hall k). by apply dict_get_elem, list_elem_of_In.
Qed.

Lemma result_of_success (c : Copilot) (request : CoordinatorRequest) :
  default false (r_success (result_of c request)) = true
  ↔ ∃ response,
      copilot_process c (build_context request) = Returns response ∧
      Base.success response = true.
Proof.
  unfold result_of.
  destruct (copilot_process c (build_context request)) as [r|msg]; cbn.
  - split; [by exists r | by intros (? & [= <-] & ?)].
  - split; [done | by intros (? & [=] & _)].
Qed.

(** X9. When the selection that [process] works with is not empty: the
    details have one entry per selected copilot type that is registered,
    under the value of the type, and none for the other names; a copilot
    whose [process] returns gives its success flag, content and metadata; a
    copilot whose [process] raises gives a failed entry whose content is
    the text of the error after ["Erro: "]; [copilots_used] lists the whole
    selection; and the response is successful exactly when every selected
    registered copilot returned a successful response. *)
Theorem process_runs_the_selection copilots (request : CoordinatorRequest) :
  choose_copilots copilots request ≠ [] →
  let selection := choose_copilots copilots request in
  let response := process copilots request in
  (∀ ct c r, ct ∈ selection → copilots !! ct = Some c →
     copilot_process c (build_context request) = Returns r →
     dict_get (details response) (CopilotType_value ct)
     = Some (mkResult (Some (Base.success r)) (Some (Base.content r))
                      (Some (Base.metadata r)))) ∧
  (∀ ct c msg, ct ∈ selection → copilots !! ct = Some c →
     copilot_process c (build_context request) = Raises msg →
     dict_get (details response) (CopilotType_value ct)
     = Some (mkResult (Some false) (Some ("Erro: " +:+ msg)) (Some []))) ∧
  (∀ name, is_Some (dict_get (details response) name) ↔
     ∃ ct, ct ∈ selection ∧ is_Some (copilots !! ct) ∧
           name = CopilotType_value ct) ∧
  copilots_used response = map CopilotType_value selection ∧
  (resp_success response = true ↔
     ∀ ct c, ct ∈ selection → copilots !! ct = Some c →
       ∃ r, copilot_process c (build_context request) = Returns r ∧
            Base.success r = true).
Proof.
  intros Hne selection response.
  assert (Hresp : response
    = _consolidate_results
        (foldl (run_copilot copilots request) [] selection) selection).
  { unfold response, process. fold selection.
    assert (Hsel : selection ≠ []) by done. clearbody selection.
    by destruct selection as [|ct cts]. }
  destruct (run_copilots_get copilots request selection []) as [Hi Hii].
  pose proof (run_copilots_NoDup copilots request selection [] (NoDup_nil_2))
    as Hnd.
  assert (Hnames : ∀ name,
    is_Some (dict_get (foldl (run_copilot copilots request) [] selection) name)
    ↔ ∃ ct, ct ∈ selection ∧ is_Some (copilots !! ct) ∧
            name = CopilotType_value ct).
  { intros name. split.
    - intros Hsome.
      destruct (decide (Exists (λ ct, is_Some (copilots !! ct) ∧
                                      CopilotType_value ct = name) selection))
        as [Hex|Hnex].
      + apply Exists_exists in Hex as (ct & ? & ? & ?). by exists ct.
      + rewrite Hii in Hsome; [by destruct Hsome |].
        intros ct Hct Hreg Heq. apply Hnex, Exists_exists. by exists ct.
    - intros (ct & Hct & [c Hc] & ->). by rewrite (Hi ct c). }
  rewrite Hresp. cbn [details copilots_used resp_success _consolidate_results].
  split; [|split; [|split; [|split]]].
  - intros ct c r Hct Hc Hr. rewrite (Hi ct c) by done.
    unfold result_of. by rewrite Hr.
  - intros ct c msg Hct Hc Hr. rewrite (Hi ct c) by done.
    unfold result_of. by rewrite Hr.
  - done.
  - done.
  - rewrite forallb_dict_values by done. split.
    + intros Hall ct c Hct Hc. apply result_of_success.
      apply (Hall (CopilotType_value ct)). by apply (Hi ct c).
    + intros Hall name r Hget.
      destruct (proj1 (Hnames name)) as (ct & Hct & [c Hc] & ->).
      { by rewrite Hget. }
      rewrite (Hi ct c) in Hget by done. injection Hget as <-.
      apply result_of_success. by apply (Hall ct c).
Qed.

Lemma run_copilots_fresh copilots (request : CoordinatorRequest)
    (copilot_types : list CopilotType) (results : list (string * result_dict)) :
  NoDup copilot_types →
  (∀ ct, ct ∈ copilot_types → is_Some (copilots !! ct)) →
  (∀ ct, ct ∈ copilot_types → CopilotType_value ct ∉ map fst results) →
  map fst (foldl (run_copilot copilots request) results copilot_types)
  = map fst results ++ map CopilotType_value copilot_types.
Proof.
  revert results.
  induction copilot_types as [|ct0 cts IH]; intros results Hnd Hreg Hfresh.
  { cbn. by rewrite app_nil_r. }
  apply NoDup_cons in Hnd as [Hct0 Hnd]. cbn [foldl].
  destruct (Hreg ct0) as [c Hc]; [left |].
  assert (Hkeys : map fst (run_copilot copilots request results ct0)
                  = map fst results ++ [CopilotType_value ct0]).
  { rewrite (run_copilot_registered _ _ _ _ c Hc), dict_set_keys.
    case_decide as Hin; [|done]. destruct (Hfresh ct0); [left | done]. }
  rewrite IH.
  - rewrite Hkeys. cbn. by rewrite <- app_assoc.
  - done.
  - intros ct Hct. apply Hreg. by right.
  - intros ct Hct. rewrite Hkeys, elem_of_app, list_elem_of_singleton.
    intros [Hin|Heq].
    + destruct (Hfresh ct); [by right | done].
    + apply CopilotType_value_inj in Heq. by subst.
Qed.

(** X10. Without preferred copilots, [process] runs every copilot it has
    selected exactly once and in the order of the selection: the keys of
    the details are [copilots_used], without repetition, and they are the
    values of the selected types. *)
Theorem process_without_preferences copilots (request : CoordinatorRequest) :
  preferred_copilots request = None ∨ preferred_copilots request = Some [] →
  let response := process copilots request in
  map fst (details response) = copilots_used response ∧
  copilots_used response
  = map CopilotType_value
      (select_copilots copilots (detect_intent (message request))) ∧
  NoDup (copilots_used response).
Proof.
  intros Hpref response.
  set (selection := select_copilots copilots (detect_intent (message request))).
  assert (Hchoose : choose_copilots copilots request = selection).
  { unfold choose_copilots. by destruct Hpref as [-> | ->]. }
  assert (Hnd : NoDup selection).
  { unfold selection, select_copilots. apply NoDup_filter, NoDup_elements. }
  assert (Hreg : ∀ ct, ct ∈ selection → is_Some (copilots !! ct)).
  { intros ct. unfold selection, select_copilots.
    rewrite list_elem_of_filter. by intros [? _]. }
  assert (Hused : copilots_used response = map CopilotType_value selection).
  { unfold response, process. rewrite Hchoose.
    by destruct selection as [|ct cts]. }
  assert (Hkeys : map fst (details response)
                  = map CopilotType_value selection).
  { unfold response, process. rewrite Hchoose.
    destruct selection as [|ct cts] eqn:Hsel; [done |].
    cbn [details _consolidate_results].
    rewrite run_copilots_fresh; [done | done | done |].
    intros ? _. apply not_elem_of_nil. }
  rewrite Hused, Hkeys. split; [done |]. split; [done |].
  by apply (NoDup_fmap_2 _ (Inj0 := CopilotType_value_inj)).
Qed.

End Processing.

(** ** Registration, detection and the context handed to a copilot *)

Section Registration.
Import Coordinator.

Implicit Types (copilots : gmap CopilotType Copilot).

(** X11. Registering a copilot under a type replaces what was registered
    under that type and nothing else, whether the call returns or raises;
    the guard of [_update_team] then always holds, so that the constructor
    of the team is called with the agents of exactly the registered
    copilots: when it returns, the call returns and the team is the new
    one; when it raises, the call raises the same, after the registry has
    been updated, and the team is left as it was.  In both cases the type
    is listed among the available copilots, and the selections gain the
    type for the intents mapped to it, and nothing else. *)
Theorem register_copilot_effects `{Agno Team}
    (self : gmap CopilotType Copilot * option Team)
    (copilot : Copilot) (ct : CopilotType) :
  let after := register_copilot self copilot ct in
  let self' := after.2 in
  self'.1 = <[ct := copilot]> self.1 ∧
  self'.1 !! ct = Some copilot ∧
  (∀ ct', ct' ≠ ct → self'.1 !! ct' = self.1 !! ct') ∧
  (length (team_agents self'.1) = size self'.1 ∧
   (∀ c, c ∈ team_agents self'.1 ↔ ∃ ct', self'.1 !! ct' = Some c) ∧
   (∀ team, new_Team (team_agents self'.1) = Returns team →
            after.1 = Returns tt ∧ self'.2 = Some team) ∧
   (∀ msg, new_Team (team_agents self'.1) = Raises msg →
           after.1 = Raises msg ∧ self'.2 = self.2)) ∧
  (∀ name, name ∈ get_available_copilots self'.1 ↔
           name = CopilotType_value ct ∨
           name ∈ get_available_copilots self.1) ∧
  (∀ intents ct',
     ct' ∈ select_copilots self'.1 intents ↔
     ct' ∈ select_copilots self.1 intents ∨
     (ct' = ct ∧ mapped_from intents ct)).
Proof.
  destruct self as [copilots team].
  assert (Hreg : (register_copilot (copilots, team) copilot ct).2.1
                 = <[ct := copilot]> copilots).
  { unfold register_copilot. cbn [fst snd]. by destruct (_update_team _ _). }
  assert (Hguard :
    _update_team (<[ct := copilot]> copilots) team
    = (new_team ← new_Team (team_agents (<[ct := copilot]> copilots));
       Returns (Some new_team))).
  { unfold _update_team.
    assert (size (<[ct := copilot]> copilots) ≠ 0) as Hsize
      by apply map_size_non_empty_iff, insert_non_empty.
    destruct (Z.ltb_spec 0 (Z.of_nat (size (<[ct := copilot]> copilots))));
      [done | lia]. }
  cbn zeta. rewrite Hreg. cbn [fst snd].
  split; [done |].
  split; [apply lookup_insert_eq |].
  split; [intros ct' Hne; by apply lookup_insert_ne |].
  split; [|split].
  - unfold team_agents at 1 2. split; [|split; [|split]].
    + by rewrite length_map, length_map_to_list.
    + intros c. rewrite list_elem_of_fmap. split.
      * intros ([ct' c'] & -> & Hin%elem_of_map_to_list). by exists ct'.
      * intros [ct' Hct']. exists (ct', c). split; [done |].
        by apply elem_of_map_to_list.
    + intros new_team Hnew. unfold register_copilot. cbn [fst snd].
      by rewrite Hguard, Hnew.
    + intros msg Hnew. unfold register_copilot. cbn [fst snd].
      by rewrite Hguard, Hnew.
  - intros name. unfold get_available_copilots.
    rewrite !list_elem_of_fmap. split.
    + intros ([ct' c'] & -> & Hin%elem_of_map_to_list). cbn.
      destruct (decide (ct' = ct)) as [->|Hne]; [by left | right].
      rewrite lookup_insert_ne in Hin by done.
      exists (ct', c'). split; [done |]. by apply elem_of_map_to_list.
    + intros [->|([ct' c'] & -> & Hin%elem_of_map_to_list)].
      * exists (ct, copilot). split; [done |].
        apply elem_of_map_to_list, lookup_insert_eq.
      * cbn. destruct (decide (ct' = ct)) as [->|Hne].
        -- exists (ct, copilot). split; [done |].
           apply elem_of_map_to_list, lookup_insert_eq.
        -- exists (ct', c'). split; [done |].
           apply elem_of_map_to_list. by rewrite lookup_insert_ne.
  - intros intents ct'. unfold select_copilots.
    rewrite !list_elem_of_filter, !elem_of_elements,
      !collect_copilot_types_elem.
    destruct (decide (ct' = ct)) as [->|Hne].
    + rewrite lookup_insert_eq. split.
      * intros [_ Hm]. by right.
      * intros [[_ Hm]|[_ Hm]]; (split; [by eexists | done]).
    + rewrite lookup_insert_ne by done. split; [by left |].
      intros [?|[? _]]; done.
Qed.

End Registration.

Section DetectionShape.
Import Coordinator.

Lemma scan_intents_sublist (table : list (TaskIntent * list string))
    (message_lower : string) :
  scan_intents table message_lower `sublist_of` map fst table.
Proof.
  induction table as [|[intent keywords] table IH]; cbn; [done |].
  destruct (any_keyword_in keywords message_lower).
  - by apply sublist_skip.
  - by apply sublist_cons.
Qed.

Lemma lower_lower_bounded (n : nat) (s : string) :
  (String.length s ≤ n)%nat → lower (lower s) = lower s.
Proof.
  revert s. induction n as [|n IH]; intros s Hlen.
  { destruct s; [done | cbn in Hlen; lia]. }
  destruct s as [|c s']; [done |]. cbn in Hlen.
  destruct (is_lead_c3 c) eqn:Hc3.
  - destruct s' as [|d s'']; [by rewrite !lower_c3_end |].
    cbn in Hlen. destruct (is_upper_latin1_tail d) eqn:Hd.
    + destruct (upper_tail_shifted d Hd) as (Hs3 & Hsup & Hst).
      rewrite (lower_c3_tail c d s'' Hc3 Hd).
      rewrite (lower_c3_other c _ _ Hc3 Hst).
      rewrite lower_plain_head by done. by rewrite IH by lia.
    + rewrite (lower_c3_other c d s'' Hc3 Hd).
      destruct (lower_head d s'' Hd) as (d' & r & Hlow & Hd').
      rewrite Hlow. rewrite (lower_c3_other c d' r Hc3 Hd').
      rewrite <- Hlow. by rewrite IH by (cbn; lia).
  - destruct (plain_lowered c Hc3) as [Hc3' Hup'].
    rewrite (lower_plain c s' Hc3).
    rewrite lower_plain_head by done. by rewrite IH by lia.
Qed.

Lemma lower_lower (s : string) : lower (lower s) = lower s.
Proof. by apply (lower_lower_bounded (String.length s)). Qed.

Lemma detect_intent_nonempty (message : string) : detect_intent message ≠ [].
Proof.
  unfold detect_intent.
  by destruct (scan_intents INTENT_KEYWORDS (lower message)).
Qed.

(** X12. The list that [detect_intent] returns is never empty, has no
    repetition, and lists the intents in the order of [INTENT_KEYWORDS];
    and detection does not depend on letter case: a message and its
    lower-cased form give the same list. *)
Theorem detect_intent_shape (message : string) :
  detect_intent message ≠ [] ∧
  NoDup (detect_intent message) ∧
  detect_intent message `sublist_of` all_intents ∧
  detect_intent (lower message) = detect_intent message.
Proof.
  assert (Hsub : detect_intent message `sublist_of` all_intents).
  { unfold detect_intent.
    pose proof (scan_intents_sublist INTENT_KEYWORDS (lower message)) as Hs.
    destruct (scan_intents INTENT_KEYWORDS (lower message)) as [|i l];
      [|done].
    apply sublist_skip, sublist_nil_l. }
  split; [|split; [|split]].
  - apply detect_intent_nonempty.
  - refine (sublist_NoDup _ _ _ Hsub).
    apply (bool_decide_unpack _). by vm_compute.
  - done.
  - unfold detect_intent. by rewrite lower_lower.
Qed.

Lemma foldl_dict_set_get {V} (base l : list (string * V)) (k : string) :
  dict_get (foldl (λ d kv, dict_set d kv.1 kv.2) base l) k
  = match dict_get (reverse l) k with
    | Some v => Some v
    | None => dict_get base k
    end.
Proof.
  induction l as [|[k0 v0] l IH] using rev_ind; [done |].
  rewrite foldl_app, reverse_app. cbn. rewrite dict_get_set, IH.
  by repeat case_decide.
Qed.

(** X13. The context dict that a copilot receives always has the keys
    ["message"] and ["files"]; a key of the request's context takes
    precedence over them, the last binding of a key winning; without a
    context the two keys hold the message and the files of the request. *)
Theorem build_context_lookup (request : CoordinatorRequest) :
  (∀ k,
     dict_get (build_context request) k
     = match dict_get (reverse (default [] (context request))) k with
       | Some v => Some v
       | None =>
           if decide (k = "message") then Some (PStr (message request))
           else if decide (k = "files")
                then Some (PList (map PStr (files request)))
                else None
       end) ∧
  is_Some (dict_get (build_context request) "message") ∧
  is_Some (dict_get (build_context request) "files") ∧
  (context request = None →
   build_context request
   = [("message", PStr (message request));
      ("files", PList (map PStr (files request)))]).
Proof.
  assert (Hget : ∀ k,
     dict_get (build_context request) k
     = match dict_get (reverse (default [] (context request))) k with
       | Some v => Some v
       | None =>
           if decide (k = "message") then Some (PStr (message request))
           else if decide (k = "files")
                then Some (PList (map PStr (files request)))
                else None
       end).
  { intros k. unfold build_context. rewrite foldl_dict_set_get.
    destruct (dict_get (reverse (default [] (context request))) k); [done |].
    cbn. repeat case_decide; congruence. }
  split; [done |]. split; [|split].
  - rewrite Hget.
    by destruct (dict_get (reverse (default [] (context request))) "message").
  - rewrite Hget.
    by destruct (dict_get (reverse (default [] (context request))) "files").
  - intros Hnone. unfold build_context. by rewrite Hnone.
Qed.

(** X14. Every intent is mapped to at least one copilot type; hence, when
    every copilot type is registered, the selection of [process] is never
    empty, whatever the request, and [process] never gives the answer for
    an empty selection. *)
Theorem full_registry_always_selects (copilots : gmap CopilotType Copilot)
    (request : CoordinatorRequest) :
  (∀ ct, is_Some (copilots !! ct)) →
  choose_copilots copilots request ≠ [] ∧
  copilots_used (process copilots request) ≠ [] ∧
  summary (process copilots request)
  ≠ "Nenhum copiloto disponível para esta solicitação".
Proof.
  intros Hall.
  assert (Hmap : ∀ intent, ∃ ct cts,
    dict_get INTENT_COPILOT_MAP intent = Some (ct :: cts)).
  { intros []; cbn; eauto. }
  assert (Hsel : ∀ message,
    select_copilots copilots (detect_intent message) ≠ []).
  { intros message Hnil.
    destruct (detect_intent message) as [|intent intents] eqn:Hdet.
    { by destruct (detect_intent_nonempty message). }
    destruct (Hmap intent) as (ct & cts & Hget).
    assert (Hin : ct ∈ select_copilots copilots (intent :: intents)).
    { unfold select_copilots.
      rewrite list_elem_of_filter, elem_of_elements,
        collect_copilot_types_elem.
      split; [apply Hall |]. exists intent, (ct :: cts).
      split; [left |]. split; [done | left]. }
    rewrite Hnil in Hin. by apply elem_of_nil in Hin. }
  assert (Hch : choose_copilots copilots request ≠ []).
  { unfold choose_copilots.
    destruct (preferred_copilots request) as [[|ct cts]|]; [apply Hsel | done
      | apply Hsel]. }
  split; [done |]. unfold process.
  destruct (choose_copilots copilots request) as [|ct cts]; [done |].
  split; [done |]. cbn [summary _consolidate_results].
  intros Heq. apply (f_equal (λ s, String.get 0 s)) in Heq.
  by rewrite !append_cons in Heq.
Qed.

End DetectionShape.

(** * Further properties of the agent wrapper *)

Section AgentWrapperFurther.
Import Base.
Context `{Pydantic}.


End AgentWrapperFurther.
(** ** A directory that the cache has to itself *)

Section CacheOwned.
Context `{Cache.Hashlib} `{Cache.FloatSum}.

Implicit Types (self : Cache.t) (fs : Cache.filesystem) (e : Cache.CacheEntry).

Lemma prefix_snoc_cases (q l : list string) (x : string) :
  q `prefix_of` l ++ [x] → q `prefix_of` l ∨ q = l ++ [x].
Proof.
  intros [k Hk]. destruct k as [|y k _] using rev_ind.
  - right. by rewrite app_nil_r in Hk.
  - left. rewrite app_assoc in Hk. apply app_inj_tail in Hk as [-> _].
    by apply prefix_app_r.
Qed.

Lemma parent_of_cache_path self (key : string) :
  Cache.parent (Cache._get_cache_path self key)
  = Cache.cache_dir self
    ++ [substring 0 2 (Cache._get_key_hash key)].
Proof.
  unfold Cache.parent, Cache._get_cache_path.
  by rewrite removelast_app.
Qed.

Lemma cache_dir_above_cache_path self (key : string) :
  Cache.cache_dir self `prefix_of` Cache._get_cache_path self key.
Proof. unfold Cache._get_cache_path. by apply prefix_app_r. Qed.

(** What a call does to one path of the disk: nothing, a removal, the
    writing of the file of a key, or the creation of a directory above such
    a file. *)
Lemma after_call_lookup self fs (c : Cache.call) (q : list string) :
  Cache.after_call self fs c !! q = fs !! q ∨
  Cache.after_call self fs c !! q = None ∨
  (∃ key text, q = Cache._get_cache_path self key ∧
     Cache.after_call self fs c !! q = Some (Cache.NFile text)) ∨
  (∃ key, q `prefix_of` Cache.parent (Cache._get_cache_path self key) ∧
     Cache.after_call self fs c !! q = Some Cache.NDir).
Proof.
  destruct c as [now key value ttl|now key|key|now key| |now];
    cbn [Cache.after_call].
  - destruct (decide (q = Cache._get_cache_path self key)) as [->|Hne].
    + unfold Cache.set. destruct (negb (Cache.enabled self)); [by left |].
      destruct (Cache.new_entry _ _ _ _) as [e|]; [|by left].
      cbn [mbind outcome_bind]. unfold Cache.mkdir_parents.
      destruct (existsb (Cache.is_file fs) _); [by left |].
      set (fs1 := foldr _ fs _).
      assert (Hfs1 : fs1 !! Cache._get_cache_path self key
                     = fs !! Cache._get_cache_path self key).
      { subst fs1. rewrite mkdir_lookup. rewrite bool_decide_eq_false_2; [done |].
        intros Hin%elem_of_ancestors%cache_path_not_ancestor. lia. }
      clearbody fs1. unfold Cache.write_text.
      destruct (Cache.is_dir fs1 _); cbn [Cache.disk_after]; [by left |].
      right. right. left. eexists key, _. split; [done |].
      by rewrite lookup_insert_eq.
    + destruct (set_other_paths self now key value ttl fs q Hne)
        as [?|(Hpre & _ & Hdir)]; [by left |].
      right. right. right. by exists key.
  - unfold Cache.get. destruct (negb (Cache.enabled self)); [by left |].
    destruct (negb (Cache.path_exists fs _)); [by left |].
    destruct (Cache.read_text _ fs) as [text|]; cbn; [|by left].
    destruct (Cache.parse_entry text) as [e|]; cbn; [|by left].
    destruct (Cache.is_expired e now).
    + unfold Cache.delete. destruct (Cache.path_exists fs _); [|by left].
      unfold Cache.unlink.
      destruct (fs !! Cache._get_cache_path self key) as [[|t]|]; cbn [snd];
        try by left.
      destruct (decide (q = Cache._get_cache_path self key)) as [->|Hne].
      * right. left. apply lookup_delete_eq.
      * left. by apply lookup_delete_ne.
    + unfold Cache.write_text. destruct (Cache.is_dir fs _); [by left |].
      cbn [snd].
      destruct (decide (q = Cache._get_cache_path self key)) as [->|Hne].
      * right. right. left. eexists key, _. split; [done |].
        by rewrite lookup_insert_eq.
      * left. by apply lookup_insert_ne.
  - unfold Cache.delete. destruct (Cache.path_exists fs _); [|by left].
    unfold Cache.unlink.
    destruct (fs !! Cache._get_cache_path self key) as [[|t]|]; cbn [snd];
      try by left.
    destruct (decide (q = Cache._get_cache_path self key)) as [->|Hne].
    + right. left. apply lookup_delete_eq.
    + left. by apply lookup_delete_ne.
  - unfold Cache.exists_. destruct (negb (Cache.enabled self)); [by left |].
    destruct (negb (Cache.path_exists fs _)); [by left |].
    destruct (Cache.read_text _ fs) as [text|]; cbn; [|by left].
    destruct (Cache.parse_entry text) as [e|]; cbn; [|by left].
    destruct (Cache.is_expired e now); [|by left].
    unfold Cache.delete. destruct (Cache.path_exists fs _); [|by left].
    unfold Cache.unlink.
    destruct (fs !! Cache._get_cache_path self key) as [[|t]|]; cbn [snd];
      try by left.
    destruct (decide (q = Cache._get_cache_path self key)) as [->|Hne].
    + right. left. apply lookup_delete_eq.
    + left. by apply lookup_delete_ne.
  - rewrite clear_lookup.
    destruct (_ && _); [by right; left | by left].
  - rewrite clear_expired_lookup.
    destruct (_ && _); [by right; left | by left].
Qed.

Lemma cache_owned_after_call self fs (c : Cache.call) :
  Cache.cache_owned self fs → Cache.cache_owned self (Cache.after_call self fs c).
Proof.
  intros Hown q n Hq.
  destruct (after_call_lookup self fs c q)
    as [Hsame|[Hnone|[(key & text & -> & Hfile)|(key & Hpre & Hdir)]]].
  - apply Hown. by rewrite <- Hsame.
  - congruence.
  - rewrite Hfile in Hq. injection Hq as <-. split.
    + intros Hpre%prefix_length. rewrite cache_path_length in Hpre. lia.
    + intros _. apply cache_path_length.
  - rewrite Hdir in Hq. injection Hq as <-. split; [done |].
    intros _. apply prefix_length in Hpre.
    rewrite parent_of_cache_path, length_app in Hpre. cbn in Hpre. lia.
Qed.

Lemma cache_owned_after_calls self (calls : list Cache.call) fs :
  Cache.cache_owned self fs →
  Cache.cache_owned self (Cache.after_calls self calls fs).
Proof.
  revert fs. induction calls as [|c calls IH]; intros fs Hown; [done |].
  apply IH. by apply cache_owned_after_call.
Qed.

(** On a disk where the cache has its directory to itself, a write goes
    through once its entry is built. *)
Lemma set_on_owned_disk self (now : Qp) (key : string) (value : pyval)
    (ttl : option Z) fs e :
  Cache.enabled self = true → Cache.cache_owned self fs →
  Cache.new_entry now key value (Cache.effective_ttl self ttl) = Returns e →
  ∃ fs', Cache.set self now key value ttl fs = Returns (true, fs') ∧
         Cache.stored fs' (Cache._get_cache_path self key) e.
Proof.
  intros Hen Hown Hnew. unfold Cache.set. rewrite Hen, Hnew.
  cbn [negb mbind outcome_bind].
  unfold Cache.mkdir_parents.
  assert (Hmk : existsb (Cache.is_file fs)
                  (Cache.ancestors_and_self
                     (Cache.parent (Cache._get_cache_path self key)))
                = false).
  { destruct (existsb _ _) eqn:Hex; [|done].
    apply existsb_exists in Hex as (q & Hq & Hf).
    apply list_elem_of_In, elem_of_ancestors in Hq.
    unfold Cache.is_file in Hf.
    destruct (fs !! q) as [[|text]|] eqn:Hfs; try done.
    destruct (Hown q _ Hfs) as [Habove Hbelow].
    rewrite parent_of_cache_path in Hq.
    apply prefix_snoc_cases in Hq as [Hq| ->].
    - by specialize (Habove Hq).
    - specialize (Hbelow (prefix_app_r _ _ _ (reflexivity _))).
      rewrite length_app in Hbelow. cbn in Hbelow. lia. }
  rewrite Hmk. set (fs1 := foldr _ fs _).
  assert (Hfile : Cache.is_dir fs1 (Cache._get_cache_path self key) = false).
  { unfold Cache.is_dir.
    assert (Hsame : fs1 !! Cache._get_cache_path self key
                    = fs !! Cache._get_cache_path self key).
    { subst fs1. rewrite mkdir_lookup. rewrite bool_decide_eq_false_2; [done |].
      intros Hin%elem_of_ancestors%cache_path_not_ancestor. lia. }
    rewrite Hsame.
    destruct (fs !! Cache._get_cache_path self key) as [[|text]|] eqn:Hfs;
      [| done |].
    - destruct (Hown _ _ Hfs) as [_ Hbelow].
      specialize (Hbelow (cache_dir_above_cache_path self key)).
      rewrite cache_path_length in Hbelow. lia.
    - destruct (Cache.has_descendant fs1 _) eqn:Hdesc; [|done].
      apply has_descendant_true in Hdesc as (q & [n Hn] & Hpre & Hlen).
      rewrite cache_path_length in Hlen.
      subst fs1. rewrite mkdir_lookup in Hn.
      case_bool_decide as Hin.
      + apply elem_of_ancestors, prefix_length in Hin.
        rewrite parent_of_cache_path, length_app in Hin. cbn in Hin. lia.
      + destruct (Hown _ _ Hn) as [_ Hbelow].
        assert (Hdir : Cache.cache_dir self `prefix_of` q).
        { etrans; [apply cache_dir_above_cache_path | done]. }
        specialize (Hbelow Hdir). destruct n; lia. }
  clearbody fs1. unfold Cache.write_text. rewrite Hfile.
  eexists. split; [done |]. unfold Cache.stored. by rewrite lookup_insert_eq.
Qed.

(** X16. The ownership of the cache directory is an invariant: it holds of
    the empty disk, [__init__] keeps it and then always succeeds, and so
    does every call on the cache object. *)
Theorem cache_owned_is_kept self :
  Cache.cache_owned self ∅ ∧
  (∀ fs, Cache.cache_owned self fs →
     ∃ fs', Cache.__init__ (Cache.cache_dir self) (Cache.default_ttl self)
              (Cache.enabled self) fs = Returns (self, fs') ∧
            Cache.cache_owned self fs') ∧
  (∀ fs c, Cache.cache_owned self fs →
     Cache.cache_owned self (Cache.after_call self fs c)) ∧
  (∀ fs calls, Cache.cache_owned self fs →
     Cache.cache_owned self (Cache.after_calls self calls fs)).
Proof.
  split; [by intros q n ?%lookup_empty_Some |].
  split; [|split].
  - intros fs Hown. unfold Cache.__init__.
    destruct self as [dir ttl en]. cbn [Cache.cache_dir Cache.default_ttl
      Cache.enabled] in *. destruct en; [|by eexists].
    unfold Cache.mkdir_parents.
    assert (Hmk : existsb (Cache.is_file fs) (Cache.ancestors_and_self dir)
                  = false).
    { destruct (existsb _ _) eqn:Hex; [|done].
      apply existsb_exists in Hex as (q & Hq & Hf).
      apply list_elem_of_In, elem_of_ancestors in Hq.
      unfold Cache.is_file in Hf.
      destruct (fs !! q) as [[|text]|] eqn:Hfs; try done.
      by destruct (Hown q _ Hfs) as [Habove _]; specialize (Habove Hq). }
    rewrite Hmk. eexists. split; [reflexivity |].
    intros q n. rewrite mkdir_lookup. case_bool_decide as Hin.
    + intros [= <-]. split; [done |]. intros _.
      apply elem_of_ancestors, prefix_length in Hin.
      cbn [Cache.cache_dir]. lia.
    + apply Hown.
  - intros fs c. apply cache_owned_after_call.
  - intros fs calls. apply cache_owned_after_calls.
Qed.

(** X17. On a disk where an enabled cache has its directory to itself, no
    write is ever refused: after any run of calls, [set] does not return
    false.  When the entry is built, [set] returns true, the file of the
    key holds the new entry, and a [get] made while that entry is live
    returns the value; when the sum for the deadline raises, [set]
    raises. *)
Theorem set_succeeds_on_owned_disk self fs (calls : list Cache.call)
    (now : Qp) (key : string) (value : pyval) (ttl : option Z) :
  Cache.enabled self = true →
  Cache.cache_owned self fs →
  (∀ fs', Cache.set self now key value ttl (Cache.after_calls self calls fs)
          ≠ Returns (false, fs')) ∧
  (∀ e,
     Cache.new_entry now key value (Cache.effective_ttl self ttl)
     = Returns e →
     ∃ fs',
       Cache.set self now key value ttl (Cache.after_calls self calls fs)
       = Returns (true, fs') ∧
       Cache.stored fs' (Cache._get_cache_path self key) e ∧
       ∀ t, Cache.live_at t e → (Cache.get self t key fs').1 = value) ∧
  (∀ msg,
     Cache.new_entry now key value (Cache.effective_ttl self ttl)
     = Raises msg →
     Cache.set self now key value ttl (Cache.after_calls self calls fs)
     = Raises msg).
Proof.
  intros Hen Hown.
  assert (Hown' : Cache.cache_owned self (Cache.after_calls self calls fs))
    by (by apply cache_owned_after_calls).
  assert (Hgo : ∀ e,
    Cache.new_entry now key value (Cache.effective_ttl self ttl)
    = Returns e →
    ∃ fs',
      Cache.set self now key value ttl (Cache.after_calls self calls fs)
      = Returns (true, fs') ∧
      Cache.stored fs' (Cache._get_cache_path self key) e ∧
      ∀ t, Cache.live_at t e → (Cache.get self t key fs').1 = value).
  { intros e Hnew.
    destruct (set_on_owned_disk self now key value ttl _ e Hen Hown' Hnew)
      as (fs' & Hset & Hst).
    exists fs'. split; [done |]. split; [done |].
    intros t Ht. rewrite (get_hit self t key fs' _ Hen Hst).
    - apply new_entry_returns in Hnew as [-> _]. done.
    - by apply live_not_expired. }
  split; [|split; [done |]].
  - intros fs' Hset.
    destruct (Cache.new_entry now key value (Cache.effective_ttl self ttl))
      as [e|msg] eqn:Hnew.
    + destruct (Hgo e eq_refl) as (fs'' & Hset' & _). congruence.
    + assert (Hr : Cache.set self now key value ttl
                     (Cache.after_calls self calls fs) = Raises msg)
        by (by apply set_raises_iff).
      congruence.
  - intros msg Hnew. by apply set_raises_iff.
Qed.

(** X18. A disabled cache never writes: [__init__] creates nothing, [set],
    [get] and [exists] answer false, [None] and false and leave the disk
    as it is, and after any run of calls every path holds what it held or
    nothing ([delete], [clear] and [clear_expired] do not look at the
    flag). *)
Theorem disabled_cache_never_writes self :
  Cache.enabled self = false →
  (∀ fs, Cache.__init__ (Cache.cache_dir self) (Cache.default_ttl self)
           (Cache.enabled self) fs = Returns (self, fs)) ∧
  (∀ fs now key value ttl,
     Cache.set self now key value ttl fs = Returns (false, fs)) ∧
  (∀ fs now key, Cache.get self now key fs = (PNone, fs)) ∧
  (∀ fs now key, Cache.exists_ self now key fs = (false, fs)) ∧
  (∀ fs calls q,
     Cache.after_calls self calls fs !! q = fs !! q ∨
     Cache.after_calls self calls fs !! q = None).
Proof.
  intros Hen.
  assert (Hex : ∀ fs now key, Cache.exists_ self now key fs = (false, fs)).
  { intros fs now key. unfold Cache.exists_. by rewrite Hen. }
  split; [|split; [|split; [|split]]].
  - intros fs. destruct self as [dir ttl en]. cbn in Hen. by subst en.
  - intros fs now key value ttl. by apply set_disabled.
  - intros fs now key. by apply get_disabled.
  - done.
  - intros fs calls q. revert fs.
    induction calls as [|c calls IH]; intros fs; [by left |].
    unfold Cache.after_calls. cbn [foldl].
    fold (Cache.after_calls self calls (Cache.after_call self fs c)).
    assert (Hstep : Cache.after_call self fs c !! q = fs !! q ∨
                    Cache.after_call self fs c !! q = None).
    { destruct c as [now key value ttl|now key|key|now key| |now];
        cbn [Cache.after_call].
      - left. by rewrite set_disabled.
      - left. by rewrite get_disabled.
      - unfold Cache.delete. destruct (Cache.path_exists fs _); [|by left].
        unfold Cache.unlink.
        destruct (fs !! Cache._get_cache_path self key) as [[|t]|];
          cbn [snd]; try by left.
        destruct (decide (q = Cache._get_cache_path self key)) as [->|Hne].
        + right. apply lookup_delete_eq.
        + left. by apply lookup_delete_ne.
      - left. by rewrite Hex.
      - rewrite clear_lookup. destruct (_ && _); [by right | by left].
      - rewrite clear_expired_lookup. destruct (_ && _); [by right | by left]. }
    destruct (IH (Cache.after_call self fs c)) as [Hrest|Hrest];
      rewrite Hrest; [exact Hstep | by right].
Qed.

End CacheOwned.

(** ** The decorator [cache_response] *)

Section CacheDecorator.
Context `{Cache.Hashlib} `{Cache.FloatSum} `{PyStr}.

Implicit Types (cache : Cache.t) (fs : Cache.filesystem).

(** An entry whose value is [None] reads as a miss. *)
Lemma get_stored_none cache (now : Qp) (key : string) fs
    (e : Cache.CacheEntry) :
  Cache.stored fs (Cache._get_cache_path cache key) e →
  Cache.value e = PNone →
  (Cache.get cache now key fs).1 = PNone.
Proof.
  intros Hst Hval. destruct (Cache.enabled cache) eqn:Hen;
    [|by rewrite get_disabled].
  destruct (Cache.is_expired e now) eqn:Hexp.
  - by rewrite (get_stale cache now key fs e).
  - by rewrite (get_hit cache now key fs e).
Qed.

Lemma cache_response_miss cache (key_prefix : string) (ttl : option Z)
    (func_name : string)
    (func : list pyval → list (string * pyval) → outcome pyval)
    (t_get t_set : Qp) (args : list pyval) (kwargs : list (string * pyval))
    fs :
  (Cache.get cache t_get
     (Cache.wrapper_key key_prefix func_name args kwargs) fs).1 = PNone →
  Cache.cache_response cache key_prefix ttl func_name func t_get t_set
    args kwargs fs
  = match func args kwargs with
    | Returns result =>
        match Cache.set cache t_set
                (Cache.wrapper_key key_prefix func_name args kwargs) result
                ttl
                (Cache.get cache t_get
                   (Cache.wrapper_key key_prefix func_name args kwargs) fs).2
        with
        | Returns (_, fs2) => (Returns result, fs2)
        | Raises e =>
            (Raises e,
             (Cache.get cache t_get
                (Cache.wrapper_key key_prefix func_name args kwargs) fs).2)
        end
    | Raises e =>
        (Raises e,
         (Cache.get cache t_get
            (Cache.wrapper_key key_prefix func_name args kwargs) fs).2)
    end.
Proof.
  intros Hmiss. unfold Cache.cache_response.
  destruct (Cache.get cache t_get _ fs) as [cached fs1].
  cbn in Hmiss. by subst cached.
Qed.

(** X19. The decorator memoises: when the first call misses the cache, the
    function returns a value other than [None] and the entry for it is
    built, the call returns that value and stores it; every later call with
    the same arguments made while the entry is live returns the stored
    value, whatever the function would answer then (it is not consulted).
    When the sum for the deadline of the entry raises, the first call
    raises after the function has returned, and nothing is stored. *)
Theorem cache_response_memoises cache (key_prefix : string)
    (ttl : option Z) (func_name : string)
    (func : list pyval → list (string * pyval) → outcome pyval)
    (t0 t1 : Qp) (args : list pyval) (kwargs : list (string * pyval)) fs
    (v : pyval) :
  Cache.enabled cache = true →
  Cache.cache_owned cache fs →
  (Cache.get cache t0
     (Cache.wrapper_key key_prefix func_name args kwargs) fs).1 = PNone →
  func args kwargs = Returns v →
  v ≠ PNone →
  let first :=
    Cache.cache_response cache key_prefix ttl func_name func t0 t1
      args kwargs fs in
  (∀ e,
     Cache.new_entry t1
       (Cache.wrapper_key key_prefix func_name args kwargs) v
       (Cache.effective_ttl cache ttl) = Returns e →
     first.1 = Returns v ∧
     ∀ func' (t2 t3 : Qp),
       Cache.live_at t2 e →
       (Cache.cache_response cache key_prefix ttl func_name func' t2 t3
          args kwargs first.2).1 = Returns v) ∧
  (∀ msg,
     Cache.new_entry t1
       (Cache.wrapper_key key_prefix func_name args kwargs) v
       (Cache.effective_ttl cache ttl) = Raises msg →
     first.1 = Raises msg ∧
     first.2
     = (Cache.get cache t0
          (Cache.wrapper_key key_prefix func_name args kwargs) fs).2).
Proof.
  intros Hen Hown Hmiss Hfunc Hv first. subst first.
  rewrite (cache_response_miss _ _ _ _ _ _ _ _ _ _ Hmiss), Hfunc.
  set (key := Cache.wrapper_key key_prefix func_name args kwargs) in *.
  split.
  - intros e Hnew.
    destruct (set_on_owned_disk cache t1 key v ttl
                (Cache.get cache t0 key fs).2 e Hen) as (fs2 & Hset & Hst);
      [|done |].
    { apply (cache_owned_after_call cache fs (Cache.CallGet t0 key) Hown). }
    rewrite Hset. cbn [fst snd]. split; [done |].
    intros func' t2 t3 Hlive. unfold Cache.cache_response. fold key.
    rewrite (get_hit cache t2 key fs2 _ Hen Hst)
      by (by apply live_not_expired).
    apply new_entry_returns in Hnew as [-> _].
    cbn [Cache.value]. by destruct v.
  - intros msg Hnew.
    assert (Hset : Cache.set cache t1 key v ttl (Cache.get cache t0 key fs).2
                   = Raises msg) by (by apply set_raises_iff).
    by rewrite Hset.
Qed.

(** X20. On a miss the function is consulted.  When it raises, the call
    raises the same and nothing is stored.  When it returns, the call
    returns the same where the cache is disabled or the entry for the
    result is built; where the sum for the deadline of that entry raises,
    the call raises and nothing is stored.  A function that returns [None]
    is never served from the cache: its result is stored, but every later
    call consults the function again. *)
Theorem cache_response_recomputes cache (key_prefix : string)
    (ttl : option Z) (func_name : string)
    (func : list pyval → list (string * pyval) → outcome pyval)
    (t0 t1 : Qp) (args : list pyval) (kwargs : list (string * pyval)) fs :
  (Cache.get cache t0
     (Cache.wrapper_key key_prefix func_name args kwargs) fs).1 = PNone →
  let key := Cache.wrapper_key key_prefix func_name args kwargs in
  let first :=
    Cache.cache_response cache key_prefix ttl func_name func t0 t1
      args kwargs fs in
  (∀ msg, func args kwargs = Raises msg →
     first = (Raises msg, (Cache.get cache t0 key fs).2)) ∧
  (∀ v, func args kwargs = Returns v →
     (Cache.enabled cache = false ∨
      ∃ e, Cache.new_entry t1 key v (Cache.effective_ttl cache ttl)
           = Returns e) →
     first.1 = Returns v) ∧
  (∀ v msg, func args kwargs = Returns v →
     Cache.enabled cache = true →
     Cache.new_entry t1 key v (Cache.effective_ttl cache ttl) = Raises msg →
     first = (Raises msg, (Cache.get cache t0 key fs).2)) ∧
  (Cache.enabled cache = true → Cache.cache_owned cache fs →
   func args kwargs = Returns PNone →
   ∀ e, Cache.new_entry t1 key PNone (Cache.effective_ttl cache ttl)
        = Returns e →
   ∀ func' (t2 t3 : Qp),
     let second :=
       Cache.cache_response cache key_prefix ttl func_name func' t2 t3
         args kwargs first.2 in
     (∀ msg, func' args kwargs = Raises msg → second.1 = Raises msg) ∧
     (∀ v' e', func' args kwargs = Returns v' →
        Cache.new_entry t3 key v' (Cache.effective_ttl cache ttl)
        = Returns e' →
        second.1 = Returns v')).
Proof.
  intros Hmiss key first. subst first.
  rewrite (cache_response_miss _ _ _ _ _ _ _ _ _ _ Hmiss). fold key.
  assert (Hret : ∀ now v disk,
    (Cache.enabled cache = false ∨
     ∃ e, Cache.new_entry now key v (Cache.effective_ttl cache ttl)
          = Returns e) →
    ∃ b disk', Cache.set cache now key v ttl disk = Returns (b, disk')).
  { intros now v disk Hcase.
    destruct (Cache.set cache now key v ttl disk) as [[b disk']|msg] eqn:Hset;
      [by eauto |].
    apply set_raises_iff in Hset as [Hen Hnew].
    destruct Hcase as [?|[e ?]]; congruence. }
  split; [|split; [|split]].
  - intros msg Hmsg. by rewrite Hmsg.
  - intros v Hv Hcase. rewrite Hv.
    destruct (Hret t1 v (Cache.get cache t0 key fs).2 Hcase)
      as (b & disk' & Hset).
    by rewrite Hset.
  - intros v msg Hv Hen Hnew. rewrite Hv.
    assert (Hset : Cache.set cache t1 key v ttl (Cache.get cache t0 key fs).2
                   = Raises msg) by (by apply set_raises_iff).
    by rewrite Hset.
  - intros Hen Hown Hfunc e Hnew func' t2 t3 second. subst second.
    rewrite Hfunc.
    destruct (set_on_owned_disk cache t1 key PNone ttl
                (Cache.get cache t0 key fs).2 e Hen) as (fs2 & Hset & Hst);
      [|done |].
    { apply (cache_owned_after_call cache fs (Cache.CallGet t0 key) Hown). }
    rewrite Hset. cbn [snd].
    rewrite cache_response_miss.
    + fold key. split.
      * intros msg Hmsg. by rewrite Hmsg.
      * intros v' e' Hv' Hnew'. rewrite Hv'.
        destruct (Hret t3 v' (Cache.get cache t2 key fs2).2)
          as (b & disk' & Hset'); [by eauto |].
        by rewrite Hset'.
    + fold key. apply (get_stored_none cache t2 key fs2 _ Hst).
      by apply new_entry_returns in Hnew as [-> _].
Qed.

Lemma join_merge (a b : string) (rest : list string) :
  join ":" ((a +:+ ":" +:+ b) :: rest) = join ":" (a :: b :: rest).
Proof.
  unfold join. destruct rest as [|r rest]; cbn [String.concat]; [done |].
  by rewrite !append_assoc.
Qed.

Lemma join_cons2 (a b : string) (rest : list string) :
  join ":" (a :: b :: rest) = a +:+ ":" +:+ join ":" (b :: rest).
Proof. done. Qed.

(** X21. The key is not a faithful image of the call: an argument that
    contains the separator reads like two arguments, a keyword argument
    reads like the positional text ["k=v"], and a prefix that contains the
    separator reads into the name of the function.  Calls that differ in
    this way share one cache entry. *)
Theorem wrapper_key_collisions (key_prefix func_name : string) :
  (∀ a b args kwargs,
     Cache.wrapper_key key_prefix func_name
       (PStr (a +:+ ":" +:+ b) :: args) kwargs
     = Cache.wrapper_key key_prefix func_name
         (PStr a :: PStr b :: args) kwargs) ∧
  (∀ args k v,
     Cache.wrapper_key key_prefix func_name args [(k, PStr v)]
     = Cache.wrapper_key key_prefix func_name
         (args ++ [PStr (k +:+ "=" +:+ v)]) []) ∧
  (∀ other args kwargs,
     Cache.wrapper_key (key_prefix +:+ ":" +:+ other) func_name args kwargs
     = Cache.wrapper_key key_prefix (other +:+ ":" +:+ func_name)
         args kwargs).
Proof.
  split; [|split].
  - intros a b args kwargs. unfold Cache.wrapper_key.
    cbn [app map]. rewrite !py_str_of_str.
    rewrite !(join_cons2 key_prefix), !(join_cons2 func_name).
    by rewrite join_merge.
  - intros args k v. unfold Cache.wrapper_key.
    cbn [Cache.sorted_items foldr Cache.insert_item map fst snd].
    rewrite map_app. cbn [map]. rewrite !py_str_of_str.
    by rewrite app_nil_r.
  - intros other args kwargs. unfold Cache.wrapper_key. cbn [app].
    rewrite join_merge.
    set (rest := map py_str args ++ _).
    rewrite (join_cons2 key_prefix other).
    rewrite (join_cons2 key_prefix (other +:+ ":" +:+ func_name)).
    by rewrite join_merge.
Qed.

Lemma ascii_compare_lt_trans (x y z : ascii) :
  Ascii.compare x y = Lt → Ascii.compare y z = Lt → Ascii.compare x z = Lt.
Proof.
  unfold Ascii.compare. rewrite !N.compare_lt_iff. lia.
Qed.

Lemma string_leb_trans (a b c : string) :
  String.leb a b = true → String.leb b c = true → String.leb a c = true.
Proof.
  unfold String.leb. revert b c.
  induction a as [|x a IH]; intros [|y b] [|z c]; cbn; try done.
  destruct (Ascii.compare x y) eqn:Hxy; [| |done].
  - apply Ascii.compare_eq_iff in Hxy as ->.
    destruct (Ascii.compare y z) eqn:Hyz; [|done..]. apply IH.
  - intros _. destruct (Ascii.compare y z) eqn:Hyz; [| |done].
    + apply Ascii.compare_eq_iff in Hyz as <-. by rewrite Hxy.
    + by rewrite (ascii_compare_lt_trans x y z).
Qed.

Lemma insert_item_comm (x y : string * pyval)
    (items : list (string * pyval)) :
  x.1 ≠ y.1 →
  Cache.insert_item x (Cache.insert_item y items)
  = Cache.insert_item y (Cache.insert_item x items).
Proof.
  intros Hne.
  assert (Hord : String.leb y.1 x.1 = negb (String.leb x.1 y.1)).
  { destruct (String.leb x.1 y.1) eqn:Hle; cbn [negb].
    - destruct (String.leb y.1 x.1) eqn:Hge; [|done].
      by destruct Hne; apply String.leb_antisym.
    - by destruct (String.leb_total x.1 y.1) as [Ht|Ht];
        [rewrite Ht in Hle |]. }
  induction items as [|z items IH]; cbn [Cache.insert_item].
  - rewrite Hord. by destruct (String.leb x.1 y.1).
  - destruct (String.leb y.1 z.1) eqn:Hyz;
      destruct (String.leb x.1 z.1) eqn:Hxz;
      cbn [Cache.insert_item]; rewrite ?Hord, ?Hxz, ?Hyz.
    + destruct (String.leb x.1 y.1); cbn [negb Cache.insert_item];
        by rewrite ?Hxz, ?Hyz.
    + destruct (String.leb x.1 y.1) eqn:Hle.
      * by rewrite (string_leb_trans _ _ _ Hle Hyz) in Hxz.
      * done.
    + destruct (String.leb x.1 y.1) eqn:Hle; cbn [negb].
      * done.
      * assert (Hge : String.leb y.1 x.1 = true) by exact Hord.
        by rewrite (string_leb_trans _ _ _ Hge Hxz) in Hyz.
    + by rewrite IH.
Qed.

Lemma sorted_items_permutation (kwargs kwargs' : list (string * pyval)) :
  kwargs ≡ₚ kwargs' → NoDup (map fst kwargs) →
  Cache.sorted_items kwargs = Cache.sorted_items kwargs'.
Proof.
  unfold Cache.sorted_items.
  induction 1 as [|x l l' Hperm IH|x y l|l l' l'' Hperm IH Hperm' IH'];
    intros Hnd.
  - done.
  - cbn. apply NoDup_cons in Hnd as [_ Hnd]. by rewrite IH.
  - cbn. apply insert_item_comm.
    apply NoDup_cons in Hnd as [Hx _]. intros Heq. apply Hx. rewrite Heq.
    left.
  - rewrite IH by done. apply IH'.
    assert (Hp : map fst l ≡ₚ map fst l') by (by apply Permutation_map).
    by rewrite <- Hp.
Qed.

(** X22. The key does not depend on the order in which the keyword
    arguments are given. *)
Theorem wrapper_key_ignores_kwargs_order (key_prefix func_name : string)
    (args : list pyval) (kwargs kwargs' : list (string * pyval)) :
  kwargs ≡ₚ kwargs' → NoDup (map fst kwargs) →
  Cache.wrapper_key key_prefix func_name args kwargs
  = Cache.wrapper_key key_prefix func_name args kwargs'.
Proof.
  intros Hperm Hnd. unfold Cache.wrapper_key.
  by rewrite (sorted_items_permutation kwargs kwargs').
Qed.

End CacheDecorator.

(** ** Statistics *)

Section CacheStats.
Context `{Cache.Hashlib} `{Cache.Platform}.

Implicit Types (self : Cache.t) (fs : Cache.filesystem).

Lemma stats_loop (now : Qp) fs (l : list (list string))
    (total expired total_size : Z) :
  (∀ q, q ∈ l → Cache.path_exists fs q = true) →
  ∃ size,
    foldl (Cache.stats_step now fs) (Returns (total, expired, total_size)) l
    = Returns ((total + Z.of_nat (length l))%Z,
               (expired
                + Z.of_nat (length
                    (List.filter (λ q, Cache.holds_stale_entry now (fs !! q))
                                 l)))%Z,
               size).
Proof.
  revert total expired total_size.
  induction l as [|q l IH]; intros total expired total_size Hall.
  { exists total_size. cbn. by rewrite !Z.add_0_r. }
  assert (Hq : Cache.path_exists fs q = true) by (apply Hall; left).
  assert (Hstep : ∃ size,
    Cache.stats_step now fs (Returns (total, expired, total_size)) q
    = Returns ((total + 1)%Z,
               (expired
                + if Cache.holds_stale_entry now (fs !! q) then 1 else 0)%Z,
               size)).
  { unfold Cache.stats_step, Cache.node_at, Cache.read_text. cbn.
    unfold Cache.path_exists in Hq.
    destruct (fs !! q) as [[|[e|other]]|] eqn:Hn; cbn;
      rewrite ?Hq; cbn; rewrite ?Z.add_0_r; eauto.
    destruct (Cache.is_expired e now); rewrite ?Z.add_0_r; eauto. }
  destruct Hstep as [size Hstep]. cbn [foldl]. rewrite Hstep.
  destruct (IH (total + 1)%Z
              (expired
               + if Cache.holds_stale_entry now (fs !! q) then 1 else 0)%Z
              size) as [size' Hrest].
  { intros q' Hq'. apply Hall. by right. }
  exists size'. rewrite Hrest. cbn [length List.filter].
  destruct (Cache.holds_stale_entry now (fs !! q)); cbn [length];
    do 3 f_equal; lia.
Qed.


End CacheStats.

(** ** The asynchronous path of the coordinator *)

Section AsyncProcessing.
Import Coordinator.
Context `{PyStr}.

Implicit Types (copilots : gmap CopilotType Copilot).

Lemma store_results_get copilots (res : Copilot → result_dict)
    (copilot_types : list CopilotType) (results : list (string * result_dict)) :
  (∀ ct c, ct ∈ copilot_types → copilots !! ct = Some c →
     dict_get (foldl (store_result copilots res) results copilot_types)
              (CopilotType_value ct)
     = Some (res c)) ∧
  (∀ name,
     (∀ ct, ct ∈ copilot_types → is_Some (copilots !! ct) →
            CopilotType_value ct ≠ name) →
     dict_get (foldl (store_result copilots res) results copilot_types) name
     = dict_get results name).
Proof.
  revert results.
  induction copilot_types as [|ct0 cts IH]; intros results; cbn [foldl].
  { split; [by intros ct c ?%elem_of_nil | done]. }
  destruct (IH (store_result copilots res results ct0)) as [IHi IHii].
  split.
  - intros ct c Hin Hc. destruct (decide (ct ∈ cts)) as [?|Hnot].
    { by apply IHi. }
    apply elem_of_cons in Hin as [->|?]; [|done].
    rewrite IHii.
    + unfold store_result. rewrite Hc, dict_get_set. by case_decide.
    + intros ct' Hct' _ Heq. apply CopilotType_value_inj in Heq. by subst.
  - intros name Hname. rewrite IHii.
    + unfold store_result. destruct (copilots !! ct0) as [c|] eqn:Hc; [|done].
      assert (CopilotType_value ct0 ≠ name) as Hne.
      { apply Hname; [left | by rewrite Hc]. }
      rewrite dict_get_set. by case_decide.
    + intros ct' Hct'. apply Hname. by right.
Qed.

Lemma store_results_NoDup copilots (res : Copilot → result_dict)
    (copilot_types : list CopilotType) (results : list (string * result_dict)) :
  NoDup (map fst results) →
  NoDup (map fst (foldl (store_result copilots res) results copilot_types)).
Proof.
  revert results.
  induction copilot_types as [|ct0 cts IH]; intros results Hnd; [done |].
  cbn [foldl]. apply IH. unfold store_result.
  destruct (copilots !! ct0) as [c|]; [|done].
  rewrite dict_set_keys. case_decide as Hin; [done |].
  apply NoDup_app. split; [done |].
  split; [by intros k Hk ->%list_elem_of_singleton | apply NoDup_singleton].
Qed.

(** The dict that [aprocess] builds from the gathered results is the one
    of a loop over the selection. *)
Lemma gather_results_as_loop copilots
    (arun_of : Copilot → string → outcome Base.AgentResponse)
    (request : CoordinatorRequest) (copilot_types : list CopilotType) :
  gather_results (map (arun_copilot copilots arun_of request) copilot_types)
  = foldl (store_result copilots (λ c, aresult_of arun_of c request)) []
          copilot_types.
Proof.
  unfold gather_results. generalize (@nil (string * result_dict)).
  induction copilot_types as [|ct cts IH]; intros results; [done |].
  cbn [map foldl]. rewrite IH. f_equal.
  unfold arun_copilot, store_result, aresult_of.
  destruct (copilots !! ct) as [c|]; [|done].
  by destruct (arun_of c _).
Qed.

(** X28. [aprocess] with a selection that is not empty: the details have
    one entry per selected type that is registered and none for the other
    names; the entry comes from the copilot's [arun] on the text of the
    context dict, not from its [process], and has no metadata; an [arun]
    that raises gives a failed entry whose content is the text of the
    error, without prefix; [copilots_used] lists the whole selection; and
    the response is successful exactly when every selected registered
    copilot returned a successful response. *)
Theorem aprocess_runs_the_selection copilots
    (arun_of : Copilot → string → outcome Base.AgentResponse)
    (request : CoordinatorRequest) :
  choose_copilots copilots request ≠ [] →
  let selection := choose_copilots copilots request in
  let prompt := py_str (PDict (build_context request)) in
  let response := aprocess copilots arun_of request in
  (∀ ct c r, ct ∈ selection → copilots !! ct = Some c →
     arun_of c prompt = Returns r →
     dict_get (details response) (CopilotType_value ct)
     = Some (mkResult (Some (Base.success r)) (Some (Base.content r)) None)) ∧
  (∀ ct c msg, ct ∈ selection → copilots !! ct = Some c →
     arun_of c prompt = Raises msg →
     dict_get (details response) (CopilotType_value ct)
     = Some (mkResult (Some false) (Some msg) None)) ∧
  (∀ name, is_Some (dict_get (details response) name) ↔
     ∃ ct, ct ∈ selection ∧ is_Some (copilots !! ct) ∧
           name = CopilotType_value ct) ∧
  copilots_used response = map CopilotType_value selection ∧
  (resp_success response = true ↔
     ∀ ct c, ct ∈ selection → copilots !! ct = Some c →
       ∃ r, arun_of c prompt = Returns r ∧ Base.success r = true).
Proof.
  intros Hne selection prompt response.
  set (res := λ c, aresult_of arun_of c request).
  assert (Hresp : response
    = _consolidate_results
        (foldl (store_result copilots res) [] selection) selection).
  { unfold response, aprocess. fold selection.
    rewrite gather_results_as_loop. fold res.
    assert (Hsel : selection ≠ []) by done. clearbody selection.
    by destruct selection as [|ct cts]. }
  destruct (store_results_get copilots res selection []) as [Hi Hii].
  pose proof (store_results_NoDup copilots res selection [] (NoDup_nil_2))
    as Hnd.
  assert (Hnames : ∀ name,
    is_Some (dict_get (foldl (store_result copilots res) [] selection) name)
    ↔ ∃ ct, ct ∈ selection ∧ is_Some (copilots !! ct) ∧
            name = CopilotType_value ct).
  { intros name. split.
    - intros Hsome.
      destruct (decide (Exists (λ ct, is_Some (copilots !! ct) ∧
                                      CopilotType_value ct = name) selection))
        as [Hex|Hnex].
      + apply Exists_exists in Hex as (ct & ? & ? & ?). by exists ct.
      + rewrite Hii in Hsome; [by destruct Hsome |].
        intros ct Hct Hreg Heq. apply Hnex, Exists_exists. by exists ct.
    - intros (ct & Hct & [c Hc] & ->). by rewrite (Hi ct c). }
  assert (Hres : ∀ c,
    default false (r_success (res c)) = true
    ↔ ∃ r, arun_of c prompt = Returns r ∧ Base.success r = true).
  { intros c. unfold res, aresult_of. fold prompt.
    destruct (arun_of c prompt) as [r|msg]; cbn.
    - split; [by exists r | by intros (? & [= <-] & ?)].
    - split; [done | by intros (? & [=] & _)]. }
  rewrite Hresp. cbn [details copilots_used resp_success _consolidate_results].
  split; [|split; [|split; [|split]]].
  - intros ct c r Hct Hc Hr. rewrite (Hi ct c) by done.
    unfold res, aresult_of. fold prompt. by rewrite Hr.
  - intros ct c msg Hct Hc Hr. rewrite (Hi ct c) by done.
    unfold res, aresult_of. fold prompt. by rewrite Hr.
  - done.
  - done.
  - rewrite forallb_dict_values by done. split.
    + intros Hall ct c Hct Hc. apply Hres.
      apply (Hall (CopilotType_value ct)). by apply (Hi ct c).
    + intros Hall name r Hget.
      destruct (proj1 (Hnames name)) as (ct & Hct & [c Hc] & ->).
      { by rewrite Hget. }
      rewrite (Hi ct c) in Hget by done. injection Hget as <-.
      apply Hres. by apply (Hall ct c).
Qed.

End AsyncProcessing.

(** * Properties of the token counter *)

Section TokenCounting.
Import TokenCounter.
Context `{Tiktoken}.

Lemma slice_index_inner (len i : Z) :
  (0 ≤ i ≤ len)%Z → slice_index len i = i.
Proof.
  intros Hi. unfold slice_index.
  destruct (Z.ltb_spec i 0); lia.
Qed.

Lemma py_slice_inner {A} (l : list A) (start end_ : Z) :
  (0 ≤ start ≤ end_)%Z → (end_ ≤ Z.of_nat (length l))%Z →
  py_slice l start end_
  = take (Z.to_nat (end_ - start)) (drop (Z.to_nat start) l).
Proof.
  intros Hs He. unfold py_slice.
  by rewrite !slice_index_inner by lia.
Qed.

(** Without overlap and with a positive chunk size the loop ends, and its
    chunks are the decoded pieces of a partition of the tokens that are
    left. *)
Lemma chunk_loop_partitions (encoder : Encoding) (tokens : list Z)
    (chunk_size overlap : Z) :
  (0 < chunk_size)%Z → (overlap ≤ 0)%Z →
  ∀ (n : nat) (start : Z) (chunks : list string),
    (0 ≤ start ≤ Z.of_nat (length tokens))%Z →
    (Z.of_nat (length tokens) - start ≤ Z.of_nat n)%Z →
    ∃ pieces,
      (∀ fuel, n < fuel →
         chunk_loop fuel encoder tokens chunk_size overlap start chunks
         = Some (chunks ++ map (decode encoder) pieces)) ∧
      concat pieces = drop (Z.to_nat start) tokens ∧
      Forall (λ piece, (0 < Z.of_nat (length piece) ≤ chunk_size)%Z) pieces.
Proof.
  intros Hcs Hov n. induction n as [|n IH]; intros start chunks Hstart Hleft.
  - exists []. split; [|split; [|done]].
    + intros [|fuel] Hfuel; [lia |]. cbn [chunk_loop].
      destruct (Z.ltb_spec start (Z.of_nat (length tokens))); [lia |].
      by rewrite app_nil_r.
    + cbn. rewrite drop_ge; [done | lia].
  - destruct (Z.ltb_spec start (Z.of_nat (length tokens))) as [Hlt|Hge].
    + set (end_ := Z.min (start + chunk_size) (Z.of_nat (length tokens))).
      assert (Hend : (start < end_ ≤ Z.of_nat (length tokens))%Z)
        by (unfold end_; lia).
      destruct (IH end_
                  (chunks ++ [decode encoder (py_slice tokens start end_)]))
        as (pieces & Hrun & Hcat & Hsizes); [lia | lia |].
      exists (py_slice tokens start end_ :: pieces).
      split; [|split].
      * intros [|fuel] Hfuel; [lia |]. cbn [chunk_loop].
        destruct (Z.ltb_spec start (Z.of_nat (length tokens))); [|lia].
        destruct (Z.ltb_spec 0 overlap); [lia |].
        fold end_. rewrite Hrun by lia. cbn [map].
        by rewrite <- app_assoc.
      * cbn [concat]. rewrite Hcat, py_slice_inner by lia.
        rewrite <- (take_drop (Z.to_nat (end_ - start))
                      (drop (Z.to_nat start) tokens)) at 2.
        f_equal. rewrite drop_drop. f_equal. lia.
      * constructor; [|done].
        rewrite py_slice_inner by lia.
        rewrite length_take, length_drop. unfold end_ in *. lia.
    + exists []. split; [|split; [|done]].
      * intros [|fuel] Hfuel; [lia |]. cbn [chunk_loop].
        destruct (Z.ltb_spec start (Z.of_nat (length tokens))); [lia |].
        by rewrite app_nil_r.
      * cbn. rewrite drop_ge; [done | lia].
Qed.

(** With an overlap, or with a chunk size that is not positive, the start
    of the next chunk stays before the end of the tokens. *)
Lemma chunk_loop_never_ends (encoder : Encoding) (tokens : list Z)
    (chunk_size overlap : Z) :
  (0 < overlap)%Z ∨ (chunk_size ≤ 0)%Z →
  ∀ (fuel : nat) (start : Z) (chunks : list string),
    (start < Z.of_nat (length tokens))%Z →
    chunk_loop fuel encoder tokens chunk_size overlap start chunks = None.
Proof.
  intros Hbad fuel. induction fuel as [|fuel IH]; intros start chunks Hstart;
    [done |].
  cbn [chunk_loop].
  destruct (Z.ltb_spec start (Z.of_nat (length tokens))); [|lia].
  apply IH. destruct (Z.ltb_spec 0 overlap); lia.
Qed.

(** X24. [split_into_chunks] without overlap and with a positive chunk
    size: the loop ends, and the chunks are the decoded pieces of a
    partition of the tokens of the text, in order, each piece holding at
    least one and at most [chunk_size] tokens. *)
Theorem split_into_chunks_partitions (self self' : t) (text : string)
    (chunk_size overlap : Z) (model : option string) (encoder : Encoding) :
  (0 < chunk_size)%Z → (overlap ≤ 0)%Z →
  _get_encoder self (model_or_default self model) = Returns (encoder, self') →
  ∃ (pieces : list (list Z)) (n : nat),
    (∀ fuel, n < fuel →
       split_into_chunks fuel self text chunk_size overlap model
       = Returns (Some (map (decode encoder) pieces), self')) ∧
    concat pieces = encode encoder text ∧
    Forall (λ piece, (0 < Z.of_nat (length piece) ≤ chunk_size)%Z) pieces.
Proof.
  intros Hcs Hov Henc.
  destruct (chunk_loop_partitions encoder (encode encoder text) chunk_size
              overlap Hcs Hov (length (encode encoder text)) 0 [])
    as (pieces & Hrun & Hcat & Hsizes); [lia | lia |].
  exists pieces, (length (encode encoder text)). split; [|done].
  intros fuel Hfuel. unfold split_into_chunks. rewrite Henc. cbn.
  by rewrite Hrun.
Qed.

(** X25. [split_into_chunks] with a positive overlap, or with a chunk size
    that is not positive, never returns on a text that has a token: the
    condition of its loop holds at every turn, whatever the number of
    turns. *)
Theorem split_into_chunks_never_returns (self self' : t) (text : string)
    (chunk_size overlap : Z) (model : option string) (encoder : Encoding) :
  (0 < overlap)%Z ∨ (chunk_size ≤ 0)%Z →
  _get_encoder self (model_or_default self model) = Returns (encoder, self') →
  encode encoder text ≠ [] →
  ∀ fuel,
    split_into_chunks fuel self text chunk_size overlap model
    = Returns (None, self').
Proof.
  intros Hbad Henc Htokens fuel. unfold split_into_chunks.
  rewrite Henc. cbn.
  rewrite (chunk_loop_never_ends encoder _ chunk_size overlap Hbad); [done |].
  destruct (encode encoder text); [done | cbn; lia].
Qed.

Lemma get_encoder_again (self self' : t) (model : string)
    (encoder : Encoding) :
  _get_encoder self model = Returns (encoder, self') →
  _get_encoder self' model = Returns (encoder, self') ∧
  default_model self' = default_model self.
Proof.
  unfold _get_encoder.
  set (encoding_name := default _ (dict_get MODEL_ENCODINGS model)).
  destruct (dict_get (_encoders self) encoding_name) as [enc|] eqn:Hget.
  - intros [= <- <-]. by rewrite Hget.
  - destruct (try_except _ _) as [enc|msg]; cbn; [|done].
    intros [= <- <-]. cbn [_encoders default_model].
    rewrite dict_get_set. by case_decide.
Qed.

Lemma model_or_default_again (self self' : t) (model : option string) :
  default_model self' = default_model self →
  model_or_default self' (Some (model_or_default self model))
  = model_or_default self model.
Proof.
  intros Hdef. unfold model_or_default. rewrite Hdef.
  destruct model as [m|].
  - destruct (String.eqb m "") eqn:Hm; [|by rewrite Hm].
    by destruct (String.eqb (default_model self) "").
  - by destruct (String.eqb (default_model self) "").
Qed.

(** X26. [count_messages] of no message is 3, and no encoder is fetched
    for it.  Of at least one message it is 3 plus, for every message, 4
    plus the numbers of tokens of its role and of its content (a missing
    key counting as the empty text), all counted with the encoder of the
    model, which is fetched once; hence it is at least 3 plus 4 for every
    message. *)
Theorem count_messages_total (self self' : t)
    (messages : list (list (string * string))) (model : option string)
    (encoder : Encoding) :
  _get_encoder self (model_or_default self model) = Returns (encoder, self') →
  count_messages self [] model = Returns (3%Z, self) ∧
  (messages ≠ [] →
   ∃ total,
     count_messages self messages model = Returns (total, self') ∧
     total
     = (3 + foldr Z.add 0
              (map (λ message,
                      4 + Z.of_nat (length
                            (encode encoder
                               (default "" (dict_get message "role"))))
                        + Z.of_nat (length
                            (encode encoder
                               (default "" (dict_get message "content")))))
                   messages))%Z ∧
     (3 + 4 * Z.of_nat (length messages) ≤ total)%Z).
Proof.
  intros Henc. split; [done |].
  destruct (get_encoder_again _ _ _ _ Henc) as [Hagain Hdef].
  assert (Hagain' : _get_encoder self' (model_or_default self model)
                    = Returns (encoder, self')) by done.
  assert (Hcount : ∀ me text,
    (me = self ∨ me = self') →
    count me text (Some (model_or_default self model))
    = Returns (Z.of_nat (length (encode encoder text)), self')).
  { intros me text Hme. unfold count.
    assert (Hm : model_or_default me (Some (model_or_default self model))
                 = model_or_default self model).
    { apply model_or_default_again. by destruct Hme as [-> | ->]. }
    rewrite Hm. by destruct Hme as [-> | ->]; rewrite ?Henc, ?Hagain'. }
  assert (Hloop : ∀ msgs me acc,
    (me = self ∨ me = self') → msgs ≠ [] →
    foldl (count_message (model_or_default self model)) (Returns (acc, me))
          msgs
    = Returns
        ((acc + foldr Z.add 0
                  (map (λ message,
                          4 + Z.of_nat (length
                                (encode encoder
                                   (default "" (dict_get message "role"))))
                            + Z.of_nat (length
                                (encode encoder
                                   (default ""
                                      (dict_get message "content")))))
                       msgs))%Z,
         self')).
  { induction msgs as [|m msgs IH]; intros me acc Hme Hne; [done |].
    cbn [foldl]. unfold count_message at 2. cbn.
    rewrite (Hcount me _ Hme). cbn.
    rewrite (Hcount self' _ (or_intror eq_refl)). cbn.
    destruct msgs as [|m' msgs'].
    - cbn. do 2 f_equal. lia.
    - rewrite IH; [|by right | done]. cbn [map foldr]. do 2 f_equal. lia. }
  intros Hne. eexists. unfold count_messages.
  rewrite (Hloop messages self 0%Z (or_introl eq_refl) Hne). cbn.
  split; [done |]. split; [lia |].
  clear. induction messages as [|m messages IH]; cbn [map foldr length]; lia.
Qed.


End TokenCounting.

(** ** Prices *)

Section TokenPrices.
Import TokenCounter.
Context `{Tiktoken} `{Floats}.

Lemma str_in_trans (a b c : string) :
  str_in a b = true → str_in b c = true → str_in a c = true.
Proof.
  rewrite !str_in_true_iff.
  intros (p & q & ->) (p' & q' & ->).
  exists (p' +:+ p), (q +:+ q'). by rewrite !append_assoc.
Qed.

Lemma model_or_default_named (self : t) (model : string) :
  model ≠ "" → model_or_default self (Some model) = model.
Proof.
  intros Hne. unfold model_or_default.
  by destruct (String.eqb_spec model "").
Qed.


(** X30. [get_model_info] looks the model up by its exact name only: for
    a name that is not an entry it reports ["N/A"] for both prices, also
    where [estimate_cost] finds prices by similarity, and the encoding
    [cl100k_base]; and the encoding it reports is the name under which
    [_get_encoder] keeps the encoder of the model. *)
Theorem get_model_info_exact_only (model : string) :
  (dict_get MODEL_PRICING model = None →
   dict_get (get_model_info model) "input_price_per_1m" = Some (VStr "N/A") ∧
   dict_get (get_model_info model) "output_price_per_1m"
   = Some (VStr "N/A")) ∧
  (dict_get MODEL_ENCODINGS model = None →
   dict_get (get_model_info model) "encoding" = Some (VStr "cl100k_base")) ∧
  (∀ default_model encoder self' encoding,
     _get_encoder (__init__ default_model) model = Returns (encoder, self') →
     dict_get (get_model_info model) "encoding" = Some (VStr encoding) →
     _encoders self' = [(encoding, encoder)]).
Proof.
  split; [|split].
  - intros Hnone. unfold get_model_info. rewrite Hnone. by cbn.
  - intros Hnone. unfold get_model_info. rewrite Hnone. by cbn.
  - intros default_model encoder self' encoding. unfold get_model_info.
    cbn [dict_get]. repeat case_decide; try done. intros Henc [= <-].
    revert Henc. unfold _get_encoder, __init__. cbn [_encoders dict_get].
    change (default "" (dict_get MODEL_ENCODINGS "default"))
      with "cl100k_base".
    destruct (try_except _ _) as [enc|msg]; cbn; [|done].
    by intros [= <- <-].
Qed.

End TokenPrices.

(** * Further worked examples *)

Section FurtherExamples.
#[local] Existing Instance Cache.sha256_of_examples.
#[local] Existing Instance Cache.float_sum_of_examples.
#[local] Existing Instance Base.example_pydantic.
#[local] Existing Instance Cache.str_of_examples.
#[local] Existing Instance TokenCounter.tiktoken_of_examples.

Lemma corrupted_file_is_a_lasting_miss_witness :
  Cache.disk_with_corrupted_k !! Cache._get_cache_path Cache.example_cache "k"
  = Some (Cache.NFile (Cache.OtherText "{")) ∧
  Cache.get Cache.example_cache (Cache.at_second 5) "k"
    Cache.disk_with_corrupted_k
  = (PNone, Cache.disk_with_corrupted_k) ∧
  (Cache.clear Cache.example_cache Cache.disk_with_corrupted_k).2
    !! Cache._get_cache_path Cache.example_cache "k" = None.
Proof.
  assert (Hfile :
    Cache.disk_with_corrupted_k !! Cache._get_cache_path Cache.example_cache "k"
    = Some (Cache.NFile (Cache.OtherText "{"))) by (by vm_compute).
  split; [exact Hfile |].
  destruct (corrupted_file_is_a_lasting_miss Cache.example_cache "k"
              Cache.disk_with_corrupted_k "{" Hfile)
    as (Hget & _ & _ & Hclear & _).
  split; [apply Hget | exact Hclear].
Defined.

Lemma set_leaves_other_keys_witness :
  Cache._get_cache_path Cache.example_cache "old"
  ≠ Cache._get_cache_path Cache.example_cache "k" ∧
  Cache.disk_after
    (Cache.set Cache.example_cache (Cache.at_second 200) "k"
       Cache.example_value None Cache.disk_with_old_and_fresh)
    Cache.disk_with_old_and_fresh
    !! Cache._get_cache_path Cache.example_cache "old"
  = Cache.disk_with_old_and_fresh
      !! Cache._get_cache_path Cache.example_cache "old".
Proof.
  assert (Hne : Cache._get_cache_path Cache.example_cache "old"
                ≠ Cache._get_cache_path Cache.example_cache "k")
    by decide_closed.
  split; [exact Hne |].
  apply (set_leaves_other_keys Cache.example_cache (Cache.at_second 200)
           "k" "old" Cache.example_value None Cache.disk_with_old_and_fresh
           Hne).
Defined.

(** The entry that the write of ["k"] builds. *)
Lemma entry_of_k_is_built :
  Cache.new_entry (Cache.at_second 100) "k" Cache.example_value
    (Cache.effective_ttl Cache.example_cache (Some 10%Z))
  = Returns Cache.entry_of_k.
Proof. reflexivity. Defined.

Lemma reads_of_k_are_live :
  Forall (λ t, Cache.live_at t Cache.entry_of_k)
         [Cache.at_second 101; Cache.at_second 105].
Proof.
  repeat constructor; intros t [= <-]; decide_closed.
Defined.

Lemma hit_count_counts_reads_witness :
  Cache.set Cache.example_cache (Cache.at_second 100) "k" Cache.example_value
    (Some 10%Z) ∅
  = Returns (true, Cache.disk_with_k) ∧
  Cache.new_entry (Cache.at_second 100) "k" Cache.example_value
    (Cache.effective_ttl Cache.example_cache (Some 10%Z))
  = Returns Cache.entry_of_k ∧
  Forall (λ t, Cache.live_at t Cache.entry_of_k)
         [Cache.at_second 101; Cache.at_second 105] ∧
  Cache.stored
    (Cache.after_gets Cache.example_cache "k"
       [Cache.at_second 101; Cache.at_second 105] Cache.disk_with_k)
    (Cache._get_cache_path Cache.example_cache "k")
    (Cache.mkEntry "k" Cache.example_value (Cache.at_second 100)
       (Cache.expires_at Cache.entry_of_k) 2).
Proof.
  split; [apply set_k_succeeds |]. split; [apply entry_of_k_is_built |].
  split; [apply reads_of_k_are_live |].
  apply (hit_count_counts_reads Cache.example_cache (Cache.at_second 100)
           "k" Cache.example_value (Some 10%Z)
           [Cache.at_second 101; Cache.at_second 105] ∅ Cache.disk_with_k
           Cache.entry_of_k set_k_succeeds entry_of_k_is_built
           reads_of_k_are_live).
Defined.

(** A second write of ["k"] replaces the entry; one whose ttl lies beyond
    the floats raises and leaves the entry with its two hits. *)
Lemma set_again_replaces_witness :
  Cache.set Cache.example_cache (Cache.at_second 100) "k" Cache.example_value
    (Some 10%Z) ∅
  = Returns (true, Cache.disk_with_k) ∧
  Cache.new_entry (Cache.at_second 100) "k" Cache.example_value
    (Cache.effective_ttl Cache.example_cache (Some 10%Z))
  = Returns Cache.entry_of_k ∧
  Forall (λ t, Cache.live_at t Cache.entry_of_k)
         [Cache.at_second 101; Cache.at_second 105] ∧
  (∃ fs2,
     Cache.set Cache.example_cache (Cache.at_second 106) "k" (PStr "again")
       None
       (Cache.after_gets Cache.example_cache "k"
          [Cache.at_second 101; Cache.at_second 105] Cache.disk_with_k)
     = Returns (true, fs2) ∧
     Cache.stored fs2 (Cache._get_cache_path Cache.example_cache "k")
       (Cache.mkEntry "k" (PStr "again") (Cache.at_second 106)
          (Some (Cache.at_second 106 + Cache.seconds 3600)%Qp) 0)) ∧
  Cache.set Cache.example_cache (Cache.at_second 106) "k" (PStr "again")
    (Some (2 ^ 1024)%Z)
    (Cache.after_gets Cache.example_cache "k"
       [Cache.at_second 101; Cache.at_second 105] Cache.disk_with_k)
  = Raises "OverflowError" ∧
  Cache.stored
    (Cache.after_gets Cache.example_cache "k"
       [Cache.at_second 101; Cache.at_second 105] Cache.disk_with_k)
    (Cache._get_cache_path Cache.example_cache "k")
    (Cache.mkEntry "k" Cache.example_value (Cache.at_second 100)
       (Cache.expires_at Cache.entry_of_k) 2).
Proof.
  split; [apply set_k_succeeds |]. split; [apply entry_of_k_is_built |].
  split; [apply reads_of_k_are_live |].
  split.
  - destruct (set_again_replaces Cache.example_cache (Cache.at_second 100)
                (Cache.at_second 106) "k" Cache.example_value (PStr "again")
                (Some 10%Z) None [Cache.at_second 101; Cache.at_second 105]
                ∅ Cache.disk_with_k Cache.entry_of_k set_k_succeeds
                entry_of_k_is_built reads_of_k_are_live)
      as [Hagain _].
    destruct (Hagain (Cache.mkEntry "k" (PStr "again") (Cache.at_second 106)
                (Some (Cache.at_second 106 + Cache.seconds 3600)%Qp) 0)
                eq_refl)
      as (fs2 & Hset & Hst & _).
    exists fs2. split; [exact Hset | exact Hst].
  - destruct (set_again_replaces Cache.example_cache (Cache.at_second 100)
                (Cache.at_second 106) "k" Cache.example_value (PStr "again")
                (Some 10%Z) (Some (2 ^ 1024)%Z)
                [Cache.at_second 101; Cache.at_second 105]
                ∅ Cache.disk_with_k Cache.entry_of_k set_k_succeeds
                entry_of_k_is_built reads_of_k_are_live)
      as [_ Hraise].
    apply (Hraise "OverflowError"). by vm_compute.
Defined.

(** A request that mentions security and a review, on the registry whose
    security copilot fails. *)
Lemma process_runs_the_selection_witness :
  Coordinator.choose_copilots Coordinator.mixed_registry
    (Coordinator.mkRequest "review de security" [] None None) ≠ [] ∧
  Coordinator.resp_success
    (Coordinator.process Coordinator.mixed_registry
       (Coordinator.mkRequest "review de security" [] None None)) ≠ true ∧
  dict_get
    (Coordinator.details
       (Coordinator.process Coordinator.mixed_registry
          (Coordinator.mkRequest "review de security" [] None None)))
    "security"
  = Some (Coordinator.mkResult (Some false)
            (Some ("Erro: " +:+ "connection refused")) (Some [])).
Proof.
  assert (Hne : Coordinator.choose_copilots Coordinator.mixed_registry
                  (Coordinator.mkRequest "review de security" [] None None)
                ≠ []) by (by vm_compute).
  split; [exact Hne |].
  destruct (process_runs_the_selection Coordinator.mixed_registry
              (Coordinator.mkRequest "review de security" [] None None) Hne)
    as (_ & Hraise & _ & _ & Hsucc).
  split.
  - intros Htrue.
    destruct (proj1 Hsucc Htrue Coordinator.SECURITY
                Coordinator.failing_copilot)
      as (r & Hr & _); [decide_closed | reflexivity | discriminate Hr].
  - apply (Hraise Coordinator.SECURITY Coordinator.failing_copilot
             "connection refused"); [decide_closed | reflexivity..].
Defined.

Lemma process_without_preferences_witness :
  (Coordinator.preferred_copilots
     (Coordinator.mkRequest "review de security" [] None None) = None ∨
   Coordinator.preferred_copilots
     (Coordinator.mkRequest "review de security" [] None None) = Some []) ∧
  map fst
    (Coordinator.details
       (Coordinator.process Coordinator.mixed_registry
          (Coordinator.mkRequest "review de security" [] None None)))
  = Coordinator.copilots_used
      (Coordinator.process Coordinator.mixed_registry
         (Coordinator.mkRequest "review de security" [] None None)).
Proof.
  split; [by left |].
  apply (process_without_preferences Coordinator.mixed_registry
           (Coordinator.mkRequest "review de security" [] None None)
           (or_introl eq_refl)).
Defined.

Lemma full_registry_always_selects_witness :
  (∀ ct, is_Some (Coordinator.full_registry !! ct)) ∧
  Coordinator.choose_copilots Coordinator.full_registry
    (Coordinator.mkRequest "bom dia" [] None None) ≠ [].
Proof.
  assert (Hall : ∀ ct, is_Some (Coordinator.full_registry !! ct)).
  { intros []; decide_closed. }
  split; [exact Hall |].
  apply (full_registry_always_selects Coordinator.full_registry
           (Coordinator.mkRequest "bom dia" [] None None) Hall).
Defined.

Lemma empty_disk_is_owned : Cache.cache_owned Cache.example_cache ∅.
Proof. intros q n Hq. by rewrite lookup_empty in Hq. Defined.

Lemma set_succeeds_on_owned_disk_witness :
  Cache.enabled Cache.example_cache = true ∧
  Cache.cache_owned Cache.example_cache ∅ ∧
  (∃ fs',
     Cache.set Cache.example_cache (Cache.at_second 300) "k" (PStr "v") None
       (Cache.after_calls Cache.example_cache
          [Cache.CallSet (Cache.at_second 100) "old" (PStr "a") (Some 10%Z);
           Cache.CallGet (Cache.at_second 200) "old";
           Cache.CallClear] ∅)
     = Returns (true, fs')) ∧
  Cache.set Cache.example_cache (Cache.at_second 300) "k" (PStr "v")
    (Some (2 ^ 1024)%Z)
    (Cache.after_calls Cache.example_cache
       [Cache.CallSet (Cache.at_second 100) "old" (PStr "a") (Some 10%Z);
        Cache.CallGet (Cache.at_second 200) "old";
        Cache.CallClear] ∅)
  = Raises "OverflowError".
Proof.
  split; [reflexivity |]. split; [exact empty_disk_is_owned |].
  split.
  - destruct (set_succeeds_on_owned_disk Cache.example_cache ∅
                [Cache.CallSet (Cache.at_second 100) "old" (PStr "a")
                   (Some 10%Z);
                 Cache.CallGet (Cache.at_second 200) "old";
                 Cache.CallClear]
                (Cache.at_second 300) "k" (PStr "v") None eq_refl
                empty_disk_is_owned) as (_ & Hgo & _).
    destruct (Hgo (Cache.mkEntry "k" (PStr "v") (Cache.at_second 300)
                (Some (Cache.at_second 300 + Cache.seconds 3600)%Qp) 0)
                eq_refl) as (fs' & Hset & _).
    exists fs'. exact Hset.
  - destruct (set_succeeds_on_owned_disk Cache.example_cache ∅
                [Cache.CallSet (Cache.at_second 100) "old" (PStr "a")
                   (Some 10%Z);
                 Cache.CallGet (Cache.at_second 200) "old";
                 Cache.CallClear]
                (Cache.at_second 300) "k" (PStr "v") (Some (2 ^ 1024)%Z)
                eq_refl empty_disk_is_owned) as (_ & _ & Hraise).
    apply (Hraise "OverflowError"). by vm_compute.
Defined.

Lemma disabled_cache_never_writes_witness :
  Cache.enabled Cache.disabled_cache = false ∧
  Cache.set Cache.disabled_cache (Cache.at_second 100) "k" (PStr "v") None ∅
  = Returns (false, ∅).
Proof.
  split; [reflexivity |].
  destruct (disabled_cache_never_writes Cache.disabled_cache eq_refl)
    as (_ & Hset & _).
  apply Hset.
Defined.

(** With a [Team] that has no parameter [agents], registering a copilot
    raises [TypeError] once the copilot is in the registry, and there is no
    team; with one that takes the agents, the call returns and the team
    has the copilot. *)
Lemma register_copilot_effects_witness :
  (@Coordinator.register_copilot _ Coordinator.agno_without_agents (∅, None)
     Coordinator.example_copilot Coordinator.CODE_REVIEWER).1
  = Raises "TypeError" ∧
  (@Coordinator.register_copilot _ Coordinator.agno_without_agents (∅, None)
     Coordinator.example_copilot Coordinator.CODE_REVIEWER).2.2
  = None ∧
  (@Coordinator.register_copilot _ Coordinator.agno_without_agents (∅, None)
     Coordinator.example_copilot Coordinator.CODE_REVIEWER).2.1
    !! Coordinator.CODE_REVIEWER
  = Some Coordinator.example_copilot ∧
  (@Coordinator.register_copilot _ Coordinator.agno_with_agents (∅, None)
     Coordinator.example_copilot Coordinator.CODE_REVIEWER).1
  = Returns tt.
Proof.
  destruct (@register_copilot_effects _ Coordinator.agno_without_agents
              (∅, None) Coordinator.example_copilot
              Coordinator.CODE_REVIEWER)
    as (_ & Hreg & _ & (_ & _ & _ & Hraise) & _).
  destruct (@register_copilot_effects _ Coordinator.agno_with_agents
              (∅, None) Coordinator.example_copilot
              Coordinator.CODE_REVIEWER)
    as (_ & _ & _ & (_ & _ & Hreturn & _) & _).
  destruct (Hraise "TypeError" eq_refl) as [Hout Hteam].
  split; [exact Hout |]. split; [exact Hteam |]. split; [exact Hreg |].
  exact (proj1 (Hreturn _ eq_refl)).
Defined.


Lemma first_review_misses :
  (Cache.get Cache.example_cache (Cache.at_second 100)
     (Cache.wrapper_key "review" "review_code" [PStr "x = 1"] []) ∅).1
  = PNone.
Proof. by vm_compute. Defined.

(** The entry that the first call of the decorated function stores, with
    the ttl of the decorator and with one that lies beyond the floats. *)
Lemma entry_of_first_review :
  Cache.new_entry (Cache.at_second 101)
    (Cache.wrapper_key "review" "review_code" [PStr "x = 1"] [])
    (PStr "LGTM") (Cache.effective_ttl Cache.example_cache (Some 3600%Z))
  = Returns
      (Cache.mkEntry
         (Cache.wrapper_key "review" "review_code" [PStr "x = 1"] [])
         (PStr "LGTM") (Cache.at_second 101)
         (Some (Cache.at_second 101 + Cache.seconds 3600)%Qp) 0).
Proof. reflexivity. Defined.

Lemma no_entry_beyond_the_floats :
  Cache.new_entry (Cache.at_second 101)
    (Cache.wrapper_key "review" "review_code" [PStr "x = 1"] [])
    (PStr "LGTM")
    (Cache.effective_ttl Cache.example_cache (Some (2 ^ 1024)%Z))
  = Raises "OverflowError".
Proof. by vm_compute. Defined.

Lemma cache_response_memoises_witness :
  Cache.enabled Cache.example_cache = true ∧
  Cache.cache_owned Cache.example_cache ∅ ∧
  (Cache.get Cache.example_cache (Cache.at_second 100)
     (Cache.wrapper_key "review" "review_code" [PStr "x = 1"] []) ∅).1
  = PNone ∧
  Cache.reviewing_function [PStr "x = 1"] [] = Returns (PStr "LGTM") ∧
  PStr "LGTM" ≠ PNone ∧
  (Cache.cache_response Cache.example_cache "review" (Some 3600%Z)
     "review_code" (λ _ _, Raises "the model is down")
     (Cache.at_second 200) (Cache.at_second 201) [PStr "x = 1"] []
     (Cache.cache_response Cache.example_cache "review" (Some 3600%Z)
        "review_code" Cache.reviewing_function
        (Cache.at_second 100) (Cache.at_second 101) [PStr "x = 1"] []
        ∅).2).1
  = Returns (PStr "LGTM") ∧
  (Cache.cache_response Cache.example_cache "review" (Some (2 ^ 1024)%Z)
     "review_code" Cache.reviewing_function
     (Cache.at_second 100) (Cache.at_second 101) [PStr "x = 1"] [] ∅).1
  = Raises "OverflowError".
Proof.
  assert (Hsome : PStr "LGTM" ≠ PNone) by discriminate.
  split; [reflexivity |]. split; [exact empty_disk_is_owned |].
  split; [exact first_review_misses |]. split; [reflexivity |].
  split; [exact Hsome |]. split.
  - destruct (cache_response_memoises Cache.example_cache "review"
                (Some 3600%Z) "review_code" Cache.reviewing_function
                (Cache.at_second 100) (Cache.at_second 101) [PStr "x = 1"] []
                ∅ (PStr "LGTM") eq_refl empty_disk_is_owned
                first_review_misses eq_refl Hsome)
      as [Hstored _].
    destruct (Hstored _ entry_of_first_review) as [_ Hlater].
    apply Hlater. intros t [= <-]. decide_closed.
  - destruct (cache_response_memoises Cache.example_cache "review"
                (Some (2 ^ 1024)%Z) "review_code" Cache.reviewing_function
                (Cache.at_second 100) (Cache.at_second 101) [PStr "x = 1"] []
                ∅ (PStr "LGTM") eq_refl empty_disk_is_owned
                first_review_misses eq_refl Hsome)
      as [_ Hraise].
    apply (proj1 (Hraise "OverflowError" no_entry_beyond_the_floats)).
Defined.

Lemma cache_response_recomputes_witness :
  (Cache.get Cache.example_cache (Cache.at_second 100)
     (Cache.wrapper_key "review" "review_code" [PStr "x = 1"] []) ∅).1
  = PNone ∧
  (Cache.cache_response Cache.example_cache "review" (Some 3600%Z)
     "review_code" (λ _ _, Raises "the model is down")
     (Cache.at_second 100) (Cache.at_second 101) [PStr "x = 1"] [] ∅).1
  = Raises "the model is down" ∧
  (Cache.cache_response Cache.example_cache "review" (Some (2 ^ 1024)%Z)
     "review_code" Cache.reviewing_function
     (Cache.at_second 100) (Cache.at_second 101) [PStr "x = 1"] [] ∅).1
  = Raises "OverflowError".
Proof.
  split; [exact first_review_misses |]. split.
  - destruct (cache_response_recomputes Cache.example_cache "review"
                (Some 3600%Z) "review_code"
                (λ _ _, Raises "the model is down")
                (Cache.at_second 100) (Cache.at_second 101) [PStr "x = 1"] []
                ∅ first_review_misses) as [Hout _].
    exact (f_equal fst (Hout "the model is down" eq_refl)).
  - destruct (cache_response_recomputes Cache.example_cache "review"
                (Some (2 ^ 1024)%Z) "review_code" Cache.reviewing_function
                (Cache.at_second 100) (Cache.at_second 101) [PStr "x = 1"] []
                ∅ first_review_misses) as (_ & _ & Hraise & _).
    exact (f_equal fst (Hraise (PStr "LGTM") "OverflowError" eq_refl eq_refl
                          no_entry_beyond_the_floats)).
Defined.

Lemma wrapper_key_ignores_kwargs_order_witness :
  [("style", PStr "strict"); ("lang", PStr "py")]
  ≡ₚ [("lang", PStr "py"); ("style", PStr "strict")] ∧
  NoDup (map fst [("style", PStr "strict"); ("lang", PStr "py")]) ∧
  Cache.wrapper_key "review" "review_code" []
    [("style", PStr "strict"); ("lang", PStr "py")]
  = Cache.wrapper_key "review" "review_code" []
      [("lang", PStr "py"); ("style", PStr "strict")].
Proof.
  assert (Hnd : NoDup (map fst [("style", PStr "strict");
                                ("lang", PStr "py")])) by decide_closed.
  split; [apply perm_swap |]. split; [exact Hnd |].
  apply (wrapper_key_ignores_kwargs_order "review" "review_code" []
           [("style", PStr "strict"); ("lang", PStr "py")]
           [("lang", PStr "py"); ("style", PStr "strict")]
           (perm_swap _ _ _) Hnd).
Defined.

Lemma aprocess_runs_the_selection_witness :
  Coordinator.choose_copilots Coordinator.mixed_registry
    (Coordinator.mkRequest "review de security" [] None None) ≠ [] ∧
  dict_get
    (Coordinator.details
       (Coordinator.aprocess Coordinator.mixed_registry
          Coordinator.arun_of_examples
          (Coordinator.mkRequest "review de security" [] None None)))
    "security"
  = Some (Coordinator.mkResult (Some false) (Some "connection refused") None).
Proof.
  assert (Hne : Coordinator.choose_copilots Coordinator.mixed_registry
                  (Coordinator.mkRequest "review de security" [] None None)
                ≠ []) by (by vm_compute).
  split; [exact Hne |].
  destruct (aprocess_runs_the_selection Coordinator.mixed_registry
              Coordinator.arun_of_examples
              (Coordinator.mkRequest "review de security" [] None None) Hne)
    as (_ & Hraise & _).
  apply (Hraise Coordinator.SECURITY Coordinator.failing_copilot
           "connection refused"); [decide_closed | reflexivity..].
Defined.

(** The counter of the examples, before and after its encoder is
    fetched. *)
Lemma encoder_of_examples :
  TokenCounter._get_encoder (TokenCounter.__init__ "gpt-4o")
    (TokenCounter.model_or_default (TokenCounter.__init__ "gpt-4o") None)
  = Returns (TokenCounter.bytes_encoding,
             TokenCounter.mkCounter "gpt-4o"
               [("o200k_base", TokenCounter.bytes_encoding)]).
Proof. reflexivity. Defined.

Lemma split_into_chunks_partitions_witness :
  (0 < 2)%Z ∧ (0 ≤ 0)%Z ∧
  ∃ (pieces : list (list Z)) (n : nat),
    (∀ fuel, n < fuel →
       TokenCounter.split_into_chunks fuel (TokenCounter.__init__ "gpt-4o")
         "hello" 2 0 None
       = Returns (Some (map (TokenCounter.decode TokenCounter.bytes_encoding)
                            pieces),
                  TokenCounter.mkCounter "gpt-4o"
                    [("o200k_base", TokenCounter.bytes_encoding)])) ∧
    concat pieces
    = TokenCounter.encode TokenCounter.bytes_encoding "hello".
Proof.
  split; [lia |]. split; [lia |].
  destruct (split_into_chunks_partitions (TokenCounter.__init__ "gpt-4o")
              _ "hello" 2 0 None TokenCounter.bytes_encoding
              ltac:(lia) ltac:(lia) encoder_of_examples)
    as (pieces & n & Hrun & Hcat & _).
  exists pieces, n. split; [exact Hrun | exact Hcat].
Defined.

Lemma split_into_chunks_never_returns_witness :
  ((0 < 1)%Z ∨ (2 ≤ 0)%Z) ∧
  TokenCounter.encode TokenCounter.bytes_encoding "hello" ≠ [] ∧
  ∀ fuel,
    TokenCounter.split_into_chunks fuel (TokenCounter.__init__ "gpt-4o")
      "hello" 2 1 None
    = Returns (None,
               TokenCounter.mkCounter "gpt-4o"
                 [("o200k_base", TokenCounter.bytes_encoding)]).
Proof.
  assert (Hbad : (0 < 1)%Z ∨ (2 ≤ 0)%Z) by (left; lia).
  assert (Htokens : TokenCounter.encode TokenCounter.bytes_encoding "hello"
                    ≠ []) by discriminate.
  split; [exact Hbad |]. split; [exact Htokens |].
  apply (split_into_chunks_never_returns (TokenCounter.__init__ "gpt-4o")
           _ "hello" 2 1 None TokenCounter.bytes_encoding
           Hbad encoder_of_examples Htokens).
Defined.

Lemma count_messages_total_witness :
  TokenCounter._get_encoder (TokenCounter.__init__ "gpt-4o")
    (TokenCounter.model_or_default (TokenCounter.__init__ "gpt-4o") None)
  = Returns (TokenCounter.bytes_encoding,
             TokenCounter.mkCounter "gpt-4o"
               [("o200k_base", TokenCounter.bytes_encoding)]) ∧
  TokenCounter.count_messages (TokenCounter.__init__ "gpt-4o") [] None
  = Returns (3%Z, TokenCounter.__init__ "gpt-4o").
Proof.
  split; [exact encoder_of_examples |].
  destruct (count_messages_total (TokenCounter.__init__ "gpt-4o") _
              [[("role", "user"); ("content", "hi")]] None
              TokenCounter.bytes_encoding encoder_of_examples)
    as [Hempty _].
  exact Hempty.
Defined.


(** The loop of [split_into_chunks] on five tokens, in chunks of two. *)
Example split_hello_in_twos :
  TokenCounter.split_into_chunks 4 (TokenCounter.__init__ "gpt-4o") "hello"
    2 0 None
  = Returns (Some ["he"; "ll"; "o"],
             TokenCounter.mkCounter "gpt-4o"
               [("o200k_base", TokenCounter.bytes_encoding)]).
Proof. reflexivity. Qed.

(** Two calls that differ share a key. *)
Example keys_of_two_calls :
  Cache.wrapper_key "review" "review_code" [PStr "a:b"] []
  = Cache.wrapper_key "review" "review_code" [PStr "a"; PStr "b"] [].
Proof. reflexivity. Qed.

End FurtherExamples.
